(** * colamusic-api: request execution, concurrency gate and tiered cache

    A shallow embedding of the core of the service:
    - [HttpClient] (retry loop, retry predicate, performance counters),
    - [AdapterManager.updateMetrics] (aggregate metrics),
    - [Semaphore] (the counting gate used by the batch operations),
    - [MemoryCache] / [CacheManager] (L1 cache with TTL and LRU eviction),
    - the batch operations and the cross-platform fan-out.

    JavaScript numbers that only ever hold integers (counters, clock
    readings in milliseconds, HTTP status codes) are modelled as [Z];
    derived ratios are modelled as exact rationals [Q].  [Date.now()] is an
    explicit argument wherever the source reads the clock. *)

From Stdlib Require Import ZArith QArith Qround Permutation Lia Lqa.
From stdpp Require Import base option list strings.

Local Open Scope Z_scope.

(** ** JavaScript truthiness for the values the source tests *)

(** [if (s)] on a [string | null | undefined]: the empty string is falsy. *)
Definition truthy_string (s : option string) : bool :=
  match s with
  | Some s => negb (String.eqb s "")
  | None => false
  end.

(** [if (n)] on a [number | undefined] holding an integer: [0] is falsy. *)
Definition truthy_number (n : option Z) : bool :=
  match n with
  | Some n => negb (n =? 0)
  | None => false
  end.

(** [a || b] where [a : number | undefined] and [b : number]. *)
Definition number_or (a : option Z) (b : Z) : Z :=
  match a with
  | Some n => if n =? 0 then b else n
  | None => b
  end.

(** [a || b] where [a : string | undefined] and [b : string]. *)
Definition string_or (a : option string) (b : string) : string :=
  match a with
  | Some s => if String.eqb s "" then b else s
  | None => b
  end.

(** * HttpClient *)

Module HttpClient.

(** [HttpConfig] (types): the fields the client reads. *)
Record HttpConfig := mkHttpConfig {
  timeout : Z;
  retries : Z;
  retryDelay : Z;
  maxSockets : Z;
  keepAlive : bool
}.

(** The private counters of [HttpClient]. *)
Record Counters := mkCounters {
  requestCount : Z;
  errorCount : Z;
  totalResponseTime : Z
}.

Definition initial : Counters := mkCounters 0 0 0.

(** What the code reads of a rejected axios call:
    [error.code], [error.message], [error.response?.status]. *)
Record AxiosError := mkAxiosError {
  code : option string;
  message : option string;
  status : option Z
}.

(** [ApiError] as built by [createApiError]. *)
Record ApiError := mkApiError {
  api_message : string;
  api_code : string;
  api_status : option Z;
  retryable : bool
}.

Section Client.

(** The decoded payload [response.data]. *)
Variable Data : Type.

(** One round trip of [this.client.request]: the promise is fulfilled
    with a response or rejected with an error.  [startTime] is
    [config.metadata?.startTime] as the response interceptor finds it
    and [now] is the clock reading inside the interceptor. *)
Inductive Reply :=
  | Fulfilled (data : Data) (startTime : option Z) (now : Z)
  | Rejected (error : AxiosError) (startTime : option Z) (now : Z).

(** [updateMetrics(response)]. *)
Definition updateMetrics (c : Counters) (startTime : option Z) (now : Z) : Counters :=
  let c := mkCounters (requestCount c + 1) (errorCount c) (totalResponseTime c) in
  if truthy_number startTime
  then mkCounters (requestCount c) (errorCount c)
                  (totalResponseTime c + (now - default 0 startTime))
  else c.

(** The rejection handler of the response interceptor. *)
Definition onRejected (c : Counters) (startTime : option Z) (now : Z) : Counters :=
  let c := mkCounters (requestCount c) (errorCount c + 1) (totalResponseTime c) in
  if truthy_number startTime
  then mkCounters (requestCount c) (errorCount c)
                  (totalResponseTime c + (now - default 0 startTime))
  else c.

(** [await this.client.request(...)] with both interceptors applied. *)
Definition client_request (c : Counters) (r : Reply) : Counters * (Data + AxiosError) :=
  match r with
  | Fulfilled d s n => (updateMetrics c s n, inl d)
  | Rejected e s n => (onRejected c s n, inr e)
  end.

Definition code_is (e : AxiosError) (s : string) : bool :=
  match code e with
  | Some c => String.eqb c s
  | None => false
  end.

(** The four network-level codes listed in [shouldRetry]. *)
Definition transient_code (e : AxiosError) : bool :=
  code_is e "ECONNRESET" || code_is e "ETIMEDOUT" ||
  code_is e "ECONNREFUSED" || code_is e "ENOTFOUND".

(** [error.response?.status >= 500] ([undefined >= 500] is false). *)
Definition status_ge (e : AxiosError) (n : Z) : bool :=
  match status e with
  | Some s => n <=? s
  | None => false
  end.

(** [error.response?.status === n]. *)
Definition status_is (e : AxiosError) (n : Z) : bool :=
  match status e with
  | Some s => s =? n
  | None => false
  end.

(** [shouldRetry(error, retryCount)]. *)
Definition shouldRetry (config : HttpConfig) (error : AxiosError) (retryCount : Z) : bool :=
  if retries config <=? retryCount then false
  else if transient_code error then true
  else if status_ge error 500 then true
  else if status_is error 429 then true
  else false.

(** [createApiError(error, url)]; the url only ends up in [details]. *)
Definition createApiError (config : HttpConfig) (error : AxiosError) : ApiError :=
  mkApiError (string_or (message error) "Unknown error occurred")
             (string_or (code error) "UNKNOWN_ERROR")
             (status error)
             (shouldRetry config error 0).

(** The result of one logical call, with the replies it consumed. *)
Record CallResult := mkCallResult {
  counters : Counters;
  outcome : Data + ApiError;
  trace : list Reply
}.

Definition attempts (r : CallResult) : nat := length (trace r).

(** [requestWithRetry(method, url, data, config, retryCount)].
    [endpoint k] is the reply to the attempt made with [retryCount = k].
    The delay slept between attempts does not touch the counters.
    [fuel] bounds the recursion depth; [None] means it ran out. *)
Fixpoint requestWithRetry (fuel : nat) (config : HttpConfig) (endpoint : Z -> Reply)
    (retryCount : Z) (c : Counters) : option CallResult :=
  match fuel with
  | O => None
  | S fuel =>
    let reply := endpoint retryCount in
    match client_request c reply with
    | (c, inl data) => Some (mkCallResult c (inl data) [reply])
    | (c, inr error) =>
      if shouldRetry config error retryCount
      then
        match requestWithRetry fuel config endpoint (retryCount + 1) c with
        | Some r => Some (mkCallResult (counters r) (outcome r) (reply :: trace r))
        | None => None
        end
      else Some (mkCallResult c (inr (createApiError config error)) [reply])
    end
  end.

(** Recursion depth that [get]/[post]/[put]/[delete] can need. *)
Definition depth (config : HttpConfig) : nat := S (Z.to_nat (retries config)).

(** [get]/[post]/[put]/[delete]: all four start the loop at [retryCount = 0]. *)
Definition request (config : HttpConfig) (endpoint : Z -> Reply) (c : Counters)
    : option CallResult :=
  requestWithRetry (depth config) config endpoint 0 c.

(** [getMetrics().errorRate]. *)
Definition errorRate (c : Counters) : Q :=
  if 0 <? requestCount c then inject_Z (errorCount c) / inject_Z (requestCount c)
  else 0%Q.

(** [getMetrics().averageResponseTime]. *)
Definition averageResponseTime (c : Counters) : Q :=
  if 0 <? requestCount c
  then inject_Z (totalResponseTime c) / inject_Z (requestCount c)
  else 0%Q.

(** [resetMetrics()]. *)
Definition resetMetrics (c : Counters) : Counters := mkCounters 0 0 0.

Definition is_rejected (r : Reply) : bool :=
  match r with Rejected _ _ _ => true | Fulfilled _ _ _ => false end.

Definition is_fulfilled (r : Reply) : bool := negb (is_rejected r).

(** Time an attempt adds to [totalResponseTime]. *)
Definition elapsed (r : Reply) : Z :=
  match r with
  | Fulfilled _ s n | Rejected _ s n =>
    if truthy_number s then n - default 0 s else 0
  end.

Definition count_rejected (t : list Reply) : Z :=
  Z.of_nat (length (filter (fun r => is_rejected r = true) t)).

Definition count_fulfilled (t : list Reply) : Z :=
  Z.of_nat (length (filter (fun r => is_fulfilled r = true) t)).

Definition total_elapsed (t : list Reply) : Z :=
  foldr (fun r acc => elapsed r + acc) 0 t.

(** Whether the attempt answered by [reply] at [retryCount = k] is
    followed by another attempt. *)
Definition retried (config : HttpConfig) (reply : Reply) (k : Z) : bool :=
  match reply with
  | Rejected e _ _ => shouldRetry config e k
  | Fulfilled _ _ _ => false
  end.

(** The replies to the first [n] attempts of a call. *)
Definition replies (endpoint : Z -> Reply) (n : nat) : list Reply :=
  map (fun i => endpoint (Z.of_nat i)) (seq 0 n).

End Client.

(** The retry condition in the words of the retry policy: the retries
    already made are fewer than [retries], and the failure is one of the
    four network-level codes, a status of at least 500, or status 429. *)
Definition retry_condition (config : HttpConfig) (e : AxiosError) (k : Z) : Prop :=
  k < retries config /\
  ((code e = Some "ECONNRESET" \/ code e = Some "ETIMEDOUT" \/
    code e = Some "ECONNREFUSED" \/ code e = Some "ENOTFOUND") \/
   exists s, status e = Some s /\ (500 <= s \/ s = 429)).

Arguments Fulfilled {Data}.
Arguments Rejected {Data}.
Arguments client_request {Data}.
Arguments mkCallResult {Data}.
Arguments counters {Data}.
Arguments outcome {Data}.
Arguments trace {Data}.
Arguments attempts {Data}.
Arguments requestWithRetry {Data}.
Arguments request {Data}.
Arguments is_rejected {Data}.
Arguments is_fulfilled {Data}.
Arguments elapsed {Data}.
Arguments count_rejected {Data}.
Arguments count_fulfilled {Data}.
Arguments total_elapsed {Data}.
Arguments retried {Data}.
Arguments replies {Data}.

(** Metrics counted once per logical call: what a call would add if
    [requestCount] and the terminal [errorCount] moved once per call. *)
Definition once_per_call (Data : Type) : Prop :=
  forall config (endpoint : Z -> Reply Data) c r,
    request config endpoint c = Some r ->
    requestCount (counters r) = requestCount c + 1 /\
    errorCount (counters r)
      = errorCount c + (match outcome r with inl _ => 0 | inr _ => 1 end).

(** Sample configuration and endpoints. *)
Definition config3 : HttpConfig := mkHttpConfig 10000 3 1000 50 true.

Definition error500 : AxiosError :=
  mkAxiosError (Some "ERR_BAD_RESPONSE")
               (Some "Request failed with status code 500") (Some 500).

Definition error404 : AxiosError :=
  mkAxiosError (Some "ERR_BAD_REQUEST")
               (Some "Request failed with status code 404") (Some 404).

(** Status 500 twice, then a response. *)
Definition fails_twice (k : Z) : Reply string :=
  if k <? 2 then Rejected error500 (Some (1000 + 2000 * k)) (1040 + 2000 * k)
  else Fulfilled "ok" (Some 5000) 5030.

Definition always500 (k : Z) : Reply string :=
  Rejected error500 (Some (1000 + 2000 * k)) (1040 + 2000 * k).

Definition always404 (k : Z) : Reply string :=
  Rejected error404 (Some (1000 + 2000 * k)) (1040 + 2000 * k).

End HttpClient.

(** * AdapterManager: aggregate performance metrics *)

Module Metrics.

(** [PerformanceMetrics] (types). *)
Record PerformanceMetrics := mkPerformanceMetrics {
  requestCount : Z;
  averageResponseTime : Q;
  errorRate : Q;
  cacheHitRate : Q;
  activeConnections : Z;
  memoryUsage : Z;
  cpuUsage : Q;
  timestamp : Z
}.

(** [initializeMetrics()]. *)
Definition initializeMetrics (now : Z) : PerformanceMetrics :=
  mkPerformanceMetrics 0 0 0 0 0 0 0 now.

(** [updateMetrics(operation, responseTime, success)]. *)
Definition updateMetrics (m : PerformanceMetrics) (operation : string)
    (responseTime : Z) (success : bool) : PerformanceMetrics :=
  let requestCount' := requestCount m + 1 in
  if success then
    mkPerformanceMetrics requestCount'
      ((averageResponseTime m * inject_Z (requestCount' - 1) + inject_Z responseTime)
         / inject_Z requestCount')
      (errorRate m) (cacheHitRate m) (activeConnections m)
      (memoryUsage m) (cpuUsage m) (timestamp m)
  else
    let errorCount := Qfloor (inject_Z requestCount' * errorRate m) + 1 in
    mkPerformanceMetrics requestCount'
      (averageResponseTime m)
      (inject_Z errorCount / inject_Z requestCount')
      (cacheHitRate m) (activeConnections m)
      (memoryUsage m) (cpuUsage m) (timestamp m).

(** A sequence of [updateMetrics] calls, oldest first. *)
Definition updateAll (m : PerformanceMetrics) (calls : list (string * Z * bool))
    : PerformanceMetrics :=
  foldl (fun m c => updateMetrics m c.1.1 c.1.2 c.2) m calls.

(** Two failed operations in a row. *)
Definition two_failures : list (string * Z * bool) :=
  [("search", 120, false); ("getSong", 80, false)].

End Metrics.

(** * Semaphore *)

Module Semaphore.

Section Gate.

(** A suspended caller, i.e. the [resolve] callback parked in [waitQueue]. *)
Variable Waiter : Type.

Record t := mk {
  permits : Z;
  waitQueue : list Waiter
}.

(** [new Semaphore(permits)]. *)
Definition new (n : Z) : t := mk n [].

(** [acquire()] called by [w]: the boolean tells whether the returned
    promise is already resolved ([true]) or [w] has been parked. *)
Definition acquire (s : t) (w : Waiter) : t * bool :=
  if 0 <? permits s
  then (mk (permits s - 1) (waitQueue s), true)
  else (mk (permits s) (waitQueue s ++ [w]), false).

(** [release()]: returns the caller whose [resolve] was invoked, if any. *)
Definition release (s : t) : t * option Waiter :=
  let p := permits s + 1 in
  match waitQueue s with
  | w :: q => (mk (p - 1) q, Some w)
  | [] => (mk p [], None)
  end.

(** The semaphore together with the number of permits handed out and
    not yet given back (a ghost counter, not a field of the class). *)
Record Gate := mkGate {
  sem : t;
  outstanding : Z
}.

Definition init (n : Z) : Gate := mkGate (new n) 0.

Definition do_acquire (g : Gate) (w : Waiter) : Gate :=
  let '(s, granted) := acquire (sem g) w in
  mkGate s (if granted then outstanding g + 1 else outstanding g).

(** A holder releases: its permit comes back, and a woken waiter
    becomes a holder at once. *)
Definition do_release (g : Gate) : Gate :=
  let '(s, woken) := release (sem g) in
  mkGate s (match woken with
            | Some _ => outstanding g - 1 + 1
            | None => outstanding g - 1
            end).

(** Interleavings of [acquire]/[release]; only a caller that holds a
    permit releases (the [finally] after a completed [acquire]). *)
Inductive step : Gate -> Gate -> Prop :=
  | step_acquire g w : step g (do_acquire g w)
  | step_release g : 0 < outstanding g -> step g (do_release g).

Inductive reachable (n : Z) : Gate -> Prop :=
  | reachable_init : reachable n (init n)
  | reachable_step g g' : reachable n g -> step g g' -> reachable n g'.

End Gate.

Arguments mk {Waiter}.
Arguments permits {Waiter}.
Arguments waitQueue {Waiter}.
Arguments new {Waiter}.
Arguments acquire {Waiter}.
Arguments release {Waiter}.
Arguments mkGate {Waiter}.
Arguments sem {Waiter}.
Arguments outstanding {Waiter}.
Arguments init {Waiter}.
Arguments do_acquire {Waiter}.
Arguments do_release {Waiter}.
Arguments step {Waiter}.
Arguments reachable {Waiter}.
Arguments Gate : clear implicits.

(** The gate's bookkeeping: the free permits and the permits handed out
    add up to the capacity, and a caller only waits when no permit is free. *)
Definition gate_inv {Waiter : Type} (n : Z) (g : Gate Waiter) : Prop :=
  0 <= permits (sem g) /\ 0 <= outstanding g /\
  permits (sem g) + outstanding g = n /\
  (waitQueue (sem g) <> [] -> permits (sem g) = 0).

(** Three callers at a gate of capacity two: the third one waits. *)
Definition crowded : Gate string :=
  do_acquire (do_acquire (do_acquire (init 2) "a") "b") "c".

End Semaphore.

(** * JavaScript [Map<string, V>]

    A [Map] iterates in insertion order, and [evictLeastUsed] and
    [cleanupExpired] iterate, so the order is part of the model: a list of
    bindings, oldest insertion first, with at most one binding per key. *)

Module JSMap.

Section Map.

Variable V : Type.

Fixpoint get (k : string) (m : list (string * V)) : option V :=
  match m with
  | [] => None
  | (k', v) :: m => if String.eqb k' k then Some v else get k m
  end.

Definition has (k : string) (m : list (string * V)) : bool :=
  match get k m with Some _ => true | None => false end.

(** [m.set(k, v)]: an existing key keeps its position, a new one goes last. *)
Fixpoint set (k : string) (v : V) (m : list (string * V)) : list (string * V) :=
  match m with
  | [] => [(k, v)]
  | (k', v') :: m =>
    if String.eqb k' k then (k, v) :: m else (k', v') :: set k v m
  end.

Fixpoint delete (k : string) (m : list (string * V)) : list (string * V) :=
  match m with
  | [] => []
  | (k', v') :: m =>
    if String.eqb k' k then m else (k', v') :: delete k m
  end.

Definition size (m : list (string * V)) : Z := Z.of_nat (length m).

Definition keys (m : list (string * V)) : list string := map fst m.

End Map.

Arguments get {V}.
Arguments has {V}.
Arguments set {V}.
Arguments delete {V}.
Arguments size {V}.
Arguments keys {V}.

End JSMap.

(** * MemoryCache (L1) *)

(** [CacheConfig] (types); [strategy] is never read.  An absent
    [enableL1]/[enableL2] is falsy, i.e. [false]. *)
Record CacheConfig := mkCacheConfig {
  ttl : Z;
  maxSize : Z;
  enableL1 : bool;
  enableL2 : bool
}.

(** Sample configurations: capacity one and capacity two. *)
Definition cacheConfig1 : CacheConfig := mkCacheConfig 300000 1 true false.

Definition cacheConfig2 : CacheConfig := mkCacheConfig 300000 2 true false.

Module MemoryCache.

Section Cache.

(** The cached payload; [null] is not a payload ([get] returns [null] for
    a miss, and [CacheManager.get] reads [null] as a miss). *)
Variable T : Type.

Record CacheItem := mkCacheItem {
  key : string;
  value : T;
  item_ttl : Z;
  createdAt : Z;
  accessCount : Z;
  lastAccessed : Z
}.

Record t := mk {
  cache : list (string * CacheItem);
  accessOrder : list (string * Z);
  hits : Z;
  misses : Z;
  accessCounter : Z
}.

(** [new MemoryCache(config)]. *)
Definition new : t := mk [] [] 0 0 0.

(** [isExpired(item)] at clock reading [now]. *)
Definition isExpired (now : Z) (item : CacheItem) : bool :=
  item_ttl item <? now - createdAt item.

(** [delete(key)]. *)
Definition delete (k : string) (c : t) : t * bool :=
  (mk (JSMap.delete k (cache c)) (JSMap.delete k (accessOrder c))
      (hits c) (misses c) (accessCounter c),
   JSMap.has k (cache c)).

Definition miss (c : t) : t :=
  mk (cache c) (accessOrder c) (hits c) (misses c + 1) (accessCounter c).

(** [get(key)]. *)
Definition get (k : string) (now : Z) (c : t) : t * option T :=
  match JSMap.get k (cache c) with
  | None => (miss c, None)
  | Some item =>
    if isExpired now item then (miss (delete k c).1, None)
    else
      let item' := mkCacheItem (key item) (value item) (item_ttl item)
                               (createdAt item) (accessCount item + 1) now in
      let n := accessCounter c + 1 in
      (mk (JSMap.set k item' (cache c)) (JSMap.set k n (accessOrder c))
          (hits c + 1) (misses c) n,
       Some (value item))
  end.

(** The loop of [evictLeastUsed]: [(lruKey, lruOrder)], with [None] for
    [null] and for [Infinity]. *)
Definition lru_step (acc : option string * option Z) (e : string * Z)
    : option string * option Z :=
  let below := match acc.2 with
               | None => true
               | Some o => e.2 <? o
               end in
  if below then (Some e.1, Some e.2) else acc.

Definition lruKey (order : list (string * Z)) : option string :=
  (foldl lru_step (None, None) order).1.

(** [evictLeastUsed()]; [if (lruKey)] is a truthiness test. *)
Definition evictLeastUsed (c : t) : t :=
  match lruKey (accessOrder c) with
  | Some k => if truthy_string (Some k) then (delete k c).1 else c
  | None => c
  end.

(** The key that [set] removes before inserting, if any. *)
Definition evicted (config : CacheConfig) (c : t) : option string :=
  if maxSize config <=? JSMap.size (cache c)
  then match lruKey (accessOrder c) with
       | Some k => if truthy_string (Some k) then Some k else None
       | None => None
       end
  else None.

(** [set(key, value, ttl?)]. *)
Definition set (config : CacheConfig) (k : string) (v : T) (ttl' : option Z)
    (now : Z) (c : t) : t :=
  let itemTtl := number_or ttl' (ttl config) in
  let c := if maxSize config <=? JSMap.size (cache c) then evictLeastUsed c else c in
  let item := mkCacheItem k v itemTtl now 1 now in
  let n := accessCounter c + 1 in
  mk (JSMap.set k item (cache c)) (JSMap.set k n (accessOrder c))
     (hits c) (misses c) n.

(** [clear()]. *)
Definition clear (c : t) : t := mk [] [] (hits c) (misses c) 0.

(** [has(key)]. *)
Definition has (k : string) (now : Z) (c : t) : bool :=
  match JSMap.get k (cache c) with
  | Some item => negb (isExpired now item)
  | None => false
  end.

(** [cleanupExpired()], the body of the periodic sweep. *)
Definition cleanupExpired (now : Z) (c : t) : t :=
  let expiredKeys :=
    map fst (filter (fun e => isExpired now e.2 = true) (cache c)) in
  foldl (fun c k => (delete k c).1) c expiredKeys.

(** [resetStats()]. *)
Definition resetStats (c : t) : t :=
  mk (cache c) (accessOrder c) 0 0 (accessCounter c).

(** [getStats().hitRate] and [getStats().size]. *)
Definition hitRate (c : t) : Q :=
  let total := hits c + misses c in
  if 0 <? total then inject_Z (hits c) / inject_Z total else 0%Q.

Definition stats_size (c : t) : Z := JSMap.size (cache c).

(** The public operations the L1 tier is driven with. *)
Inductive Op :=
| OpGet (k : string) (now : Z)
| OpSet (k : string) (v : T) (ttl' : option Z) (now : Z)
| OpDelete (k : string).

Definition apply (config : CacheConfig) (c : t) (op : Op) : t :=
  match op with
  | OpGet k now => (get k now c).1
  | OpSet k v ttl' now => set config k v ttl' now c
  | OpDelete k => (delete k c).1
  end.

Definition run (config : CacheConfig) (c : t) (ops : list Op) : t :=
  foldl (apply config) c ops.

(** The keys removed by eviction while [ops] run, oldest first. *)
Fixpoint evictions (config : CacheConfig) (c : t) (ops : list Op) : list string :=
  match ops with
  | [] => []
  | op :: ops =>
    let here := match op with
                | OpSet _ _ _ _ => match evicted config c with
                                   | Some k => [k]
                                   | None => []
                                   end
                | _ => []
                end in
    here ++ evictions config (apply config c op) ops
  end.

(** A write request: key, value, optional ttl, and the clock reading. *)
Record Entry := mkEntry {
  e_key : string;
  e_value : T;
  e_ttl : option Z;
  e_now : Z
}.

Definition insert (e : Entry) : Op := OpSet (e_key e) (e_value e) (e_ttl e) (e_now e).

(** Writes with no reads in between. *)
Definition inserts (es : list Entry) : list Op := map insert es.

(** Writes, each preceded by a read of [hot] (at the paired clock reading). *)
Definition hot_inserts (hot : string) (es : list (Z * Entry)) : list Op :=
  flat_map (fun e => [OpGet hot e.1; insert e.2]) es.

Definition op_key (op : Op) : string :=
  match op with
  | OpGet k _ => k
  | OpSet k _ _ _ => k
  | OpDelete k => k
  end.

Definition is_set_of (k : string) (op : Op) : bool :=
  match op with
  | OpSet k' _ _ _ => String.eqb k' k
  | _ => false
  end.

(** The representation invariant: both maps hold the same keys in the
    same order, once each; no recorded access is newer than the counter,
    and no two keys share an access number. *)
Definition WF (c : t) : Prop :=
  JSMap.keys (cache c) = JSMap.keys (accessOrder c) /\
  NoDup (JSMap.keys (cache c)) /\
  Forall (fun e => e.2 <= accessCounter c) (accessOrder c) /\
  NoDup (accessOrder c).*2.

(** [k] is the least recently used key: its last access is the oldest. *)
Definition oldest (c : t) (k : string) : Prop :=
  exists o, (k, o) ∈ accessOrder c /\
    forall k' o', (k', o') ∈ accessOrder c -> o <= o'.

(** [k] is the most recently used key: its last access is the newest. *)
Definition newest (c : t) (k : string) : Prop :=
  exists o, (k, o) ∈ accessOrder c /\
    forall k' o', (k', o') ∈ accessOrder c -> o' <= o.

(** A key written once and read before every later write is never the
    key that a write evicts. *)
Definition hot_key_kept (config : CacheConfig) : Prop :=
  forall (pre : list Op) (hot : Entry) (post : list (Z * Entry)),
    Forall (fun op => is_set_of (e_key hot) op = false) pre ->
    e_key hot ∉ evictions config new
                  (pre ++ [insert hot] ++ hot_inserts (e_key hot) post).

End Cache.

Arguments hot_key_kept : clear implicits.
Arguments mkEntry {T}.
Arguments e_key {T}.
Arguments e_value {T}.
Arguments e_ttl {T}.
Arguments e_now {T}.
Arguments insert {T}.
Arguments inserts {T}.
Arguments hot_inserts {T}.
Arguments op_key {T}.
Arguments is_set_of {T}.
Arguments WF {T}.
Arguments oldest {T}.
Arguments newest {T}.
Arguments mkCacheItem {T}.
Arguments key {T}.
Arguments value {T}.
Arguments item_ttl {T}.
Arguments createdAt {T}.
Arguments accessCount {T}.
Arguments lastAccessed {T}.
Arguments mk {T}.
Arguments cache {T}.
Arguments accessOrder {T}.
Arguments hits {T}.
Arguments misses {T}.
Arguments accessCounter {T}.
Arguments new {T}.
Arguments isExpired {T}.
Arguments delete {T}.
Arguments miss {T}.
Arguments get {T}.
Arguments evictLeastUsed {T}.
Arguments evicted {T}.
Arguments set {T}.
Arguments clear {T}.
Arguments has {T}.
Arguments cleanupExpired {T}.
Arguments resetStats {T}.
Arguments hitRate {T}.
Arguments stats_size {T}.
Arguments OpGet {T}.
Arguments OpSet {T}.
Arguments OpDelete {T}.
Arguments apply {T}.
Arguments run {T}.
Arguments evictions {T}.

(** Sample writes. *)
Definition entryA : Entry Z := mkEntry "a" 1 None 0.

Definition entryB : Entry Z := mkEntry "b" 2 None 5.

Definition entryC : Entry Z := mkEntry "c" 3 None 9.

End MemoryCache.

(** * CacheManager *)

Module CacheManager.

Section Manager.

Variable T : Type.

(** [l2Cache] is declared but never assigned (its initialisation is a
    TODO), so every [this.config.enableL2 && this.l2Cache] test is falsy
    and the manager's state is the configuration and the L1 tier. *)
Record t := mk {
  config : CacheConfig;
  l1Cache : MemoryCache.t T
}.

Definition new (config : CacheConfig) : t := mk config MemoryCache.new.

(** [get(key)]. *)
Definition get (k : string) (now : Z) (m : t) : t * option T :=
  if enableL1 (config m)
  then let r := MemoryCache.get k now (l1Cache m) in (mk (config m) r.1, r.2)
  else (m, None).

(** [set(key, value, ttl?)]. *)
Definition set (k : string) (v : T) (ttl' : option Z) (now : Z) (m : t) : t :=
  if enableL1 (config m)
  then mk (config m) (MemoryCache.set (config m) k v ttl' now (l1Cache m))
  else m.

(** [delete(key)]. *)
Definition delete (k : string) (m : t) : t :=
  if enableL1 (config m)
  then mk (config m) (MemoryCache.delete k (l1Cache m)).1
  else m.

(** The L1 loop of [mset]: the [i]-th write reads the clock as [clock i]. *)
Fixpoint mset_l1 (cfg : CacheConfig) (items : list (string * T)) (ttl' : option Z)
    (clock : nat -> Z) (i : nat) (c : MemoryCache.t T) : MemoryCache.t T :=
  match items with
  | [] => c
  | (k, v) :: items =>
    mset_l1 cfg items ttl' clock (S i) (MemoryCache.set cfg k v ttl' (clock i) c)
  end.

(** [mset(items, ttl?)]. *)
Definition mset (items : list (string * T)) (ttl' : option Z) (clock : nat -> Z)
    (m : t) : t :=
  if enableL1 (config m)
  then mk (config m) (mset_l1 (config m) items ttl' clock 0 (l1Cache m))
  else m.

(** [clear()]. *)
Definition clear (m : t) : t :=
  if enableL1 (config m)
  then mk (config m) (MemoryCache.clear (l1Cache m))
  else m.

(** An element of the array given to [warmup]. *)
Record WarmupItem := mkWarmupItem {
  w_key : string;
  w_value : T;
  w_ttl : option Z
}.

(** One iteration of the loop of [warmup]: [(itemMap, commonTtl)]. *)
Definition warmup_step (acc : list (string * T) * option Z) (item : WarmupItem)
    : list (string * T) * option Z :=
  (JSMap.set (w_key item) (w_value item) acc.1,
   if negb (truthy_number acc.2) then w_ttl item else acc.2).

Definition commonTtl (items : list WarmupItem) : option Z :=
  (foldl warmup_step ([], None) items).2.

Definition itemMap (items : list WarmupItem) : list (string * T) :=
  (foldl warmup_step ([], None) items).1.

(** [warmup(items)]. *)
Definition warmup (items : list WarmupItem) (clock : nat -> Z) (m : t) : t :=
  mset (itemMap items) (commonTtl items) clock m.

(** The ttl of the first item, in list order, whose ttl is set.  A ttl
    counts as set when it is a non-zero number: the code only ever tests
    it for truthiness. *)
Fixpoint first_set_ttl (items : list WarmupItem) : option Z :=
  match items with
  | [] => None
  | item :: items =>
    if truthy_number (w_ttl item) then w_ttl item else first_set_ttl items
  end.

(** The one ttl a warm-up is expected to use: that of the first item that
    sets one, else the default of the cache. *)
Definition shared_ttl (cfg : CacheConfig) (items : list WarmupItem) : Z :=
  default (ttl cfg) (first_set_ttl items).

End Manager.

Arguments first_set_ttl {T}.
Arguments shared_ttl {T}.
Arguments mk {T}.
Arguments config {T}.
Arguments l1Cache {T}.
Arguments new {T}.
Arguments get {T}.
Arguments set {T}.
Arguments delete {T}.
Arguments mset_l1 {T}.
Arguments mset {T}.
Arguments clear {T}.
Arguments mkWarmupItem {T}.
Arguments w_key {T}.
Arguments w_value {T}.
Arguments w_ttl {T}.
Arguments warmup_step {T}.
Arguments commonTtl {T}.
Arguments itemMap {T}.
Arguments warmup {T}.

(** Sample warm-up list: the first item sets no ttl, the others differ. *)
Definition warmupItems : list (WarmupItem Z) :=
  [mkWarmupItem "a" 1 None; mkWarmupItem "b" 2 (Some 500); mkWarmupItem "c" 3 (Some 900)].

End CacheManager.

(** * Platforms *)

Inductive Platform := NETEASE | QQ | KUGOU | KUWO.

Definition platform_name (p : Platform) : string :=
  match p with
  | NETEASE => "netease"
  | QQ => "qq"
  | KUGOU => "kugou"
  | KUWO => "kuwo"
  end.

#[global] Instance Platform_eq_dec : EqDecision Platform.
Proof. solve_decision. Defined.

(** * Batch operations

    [batchSearch], [batchGetSongs] and [HttpClient.batchRequest] share one
    shape: every item becomes a task that acquires the semaphore, awaits
    its operation, stores the value or the caught error at its own index
    and releases in [finally].  The event loop is single-threaded; what
    varies between runs is the order in which the awaited operations
    settle, which is the [schedule]. *)

Module Batch.

(** [a[i] = v] on a JavaScript array: writing past the end extends the
    array and leaves holes ([None]). *)
Fixpoint array_set {A : Type} (a : list (option A)) (i : nat) (v : A)
    : list (option A) :=
  match i, a with
  | O, [] => [Some v]
  | O, _ :: a => Some v :: a
  | S i, [] => None :: array_set [] i v
  | S i, x :: a => x :: array_set a i v
  end.

Section Run.

Variables Item Value Error : Type.

(** The awaited operation of a task ([this.search(query)],
    [this.getSong(songId)], [this.requestWithRetry(...)]) as its settled
    outcome: the value, or the error that the [catch] receives. *)
Variable perform : Item -> Value + Error.

Record State := mk {
  sem : Semaphore.t nat;
  running : list nat;
  results : list (option (Value + Error));
  successCount : Z;
  errorCount : Z;
  settled : nat
}.

(** The synchronous part of the callback given to [map]: the call of
    [semaphore.acquire()] made by the task of index [index]. *)
Definition spawn (s : State) (index : nat) : State :=
  let r := Semaphore.acquire (sem s) index in
  mk r.1 (if r.2 then running s ++ [index] else running s)
     (results s) (successCount s) (errorCount s) (settled s).

(** The state when [map] returns and [Promise.all] starts waiting. *)
Definition start (maxConcurrency : Z) (n : nat) : State :=
  foldl spawn (mk (Semaphore.new maxConcurrency) [] [] 0 0 0%nat) (seq 0 n).

(** The operation of the running task [index] settles: the [try] or the
    [catch] branch stores its outcome, [finally] releases. *)
Definition finish (items : list Item) (s : State) (index : nat) : option State :=
  if bool_decide (index ∈ running s) then
    match items !! index with
    | Some item =>
      let o := perform item in
      let r := Semaphore.release (sem s) in
      Some (mk r.1
               (filter (fun i => i ≠ index) (running s) ++ option_list r.2)
               (array_set (results s) index o)
               (match o with inl _ => successCount s + 1 | inr _ => successCount s end)
               (match o with inl _ => errorCount s | inr _ => errorCount s + 1 end)
               (S (settled s)))
    | None => None
    end
  else None.

Fixpoint play (items : list Item) (s : State) (schedule : list nat) : option State :=
  match schedule with
  | [] => Some s
  | index :: schedule =>
    match finish items s index with
    | Some s => play items s schedule
    | None => None
    end
  end.

(** [BatchResponse] without [totalTime]. *)
Record BatchResponse := mkBatchResponse {
  r_results : list (option (Value + Error));
  r_successCount : Z;
  r_errorCount : Z
}.

(** The common body: [None] when [schedule] names a task that is not
    running, or stops while [Promise.all] is still pending. *)
Definition batch (maxConcurrency : Z) (items : list Item) (schedule : list nat)
    : option BatchResponse :=
  match play items (start maxConcurrency (length items)) schedule with
  | Some s =>
    if bool_decide (settled s = length items)
    then Some (mkBatchResponse (results s) (successCount s) (errorCount s))
    else None
  | None => None
  end.

(** [BasePlatformAdapter.batchSearch(queries)] and
    [batchGetSongs(songIds)]: the gate is [maxSockets || 10]. *)
Definition batchSearch (maxSockets : Z) (queries : list Item) (schedule : list nat)
    : option BatchResponse :=
  batch (number_or (Some maxSockets) 10) queries schedule.

Definition batchGetSongs (maxSockets : Z) (songIds : list Item) (schedule : list nat)
    : option BatchResponse :=
  batch (number_or (Some maxSockets) 10) songIds schedule.

(** [HttpClient.batchRequest(requests, maxConcurrency = 10)]. *)
Definition batchRequest (requests : list Item) (maxConcurrency : option Z)
    (schedule : list nat) : option (list (option (Value + Error))) :=
  r_results <$> batch (default 10 maxConcurrency) requests schedule.

(** What holds between two settlements, [completed] being the indices whose
    operation has settled: every index is settled, running or queued,
    exactly once; each settled index holds its own outcome; the array has
    not grown past the input; the counters count the settled tasks. *)
Definition batch_inv (maxConcurrency : Z) (items : list Item) (s : State)
    (completed : list nat) : Prop :=
  Permutation (completed ++ running s ++ Semaphore.waitQueue (sem s))
              (seq 0 (length items)) /\
  (forall i, i ∈ completed ->
     exists item, items !! i = Some item /\
                  results s !! i = Some (Some (perform item))) /\
  (length (results s) <= length items)%nat /\
  settled s = length completed /\
  successCount s + errorCount s = Z.of_nat (length completed) /\
  (Semaphore.waitQueue (sem s) <> [] -> Semaphore.permits (sem s) <= 0) /\
  (0 < maxConcurrency ->
     0 <= Semaphore.permits (sem s) /\
     Semaphore.permits (sem s) + Z.of_nat (length (running s)) = maxConcurrency).

End Run.

Arguments batch_inv {Item Value Error}.
Arguments mk {Value Error}.
Arguments sem {Value Error}.
Arguments running {Value Error}.
Arguments results {Value Error}.
Arguments successCount {Value Error}.
Arguments errorCount {Value Error}.
Arguments settled {Value Error}.
Arguments spawn {Value Error}.
Arguments start {Value Error}.
Arguments finish {Item Value Error}.
Arguments play {Item Value Error}.
Arguments mkBatchResponse {Value Error}.
Arguments r_results {Value Error}.
Arguments r_successCount {Value Error}.
Arguments r_errorCount {Value Error}.
Arguments batch {Item Value Error}.
Arguments batchSearch {Item Value Error}.
Arguments batchGetSongs {Item Value Error}.
Arguments batchRequest {Item Value Error}.

(** Sample batch: the second item fails. *)
Definition sample_perform (q : string) : string + string :=
  if String.eqb q "b" then inr "boom" else inl (q +:+ "!").

End Batch.

(** * BasePlatformAdapter: cache maintenance *)

Module BasePlatformAdapter.

Section Adapter.

Variable T : Type.

(** The adapter's platform and cache manager, and the lines it has sent
    to [logger.info]. *)
Record t := mk {
  platform : Platform;
  cacheManager : CacheManager.t T;
  log : list string
}.

(** [clearCache(pattern?)]; [if (pattern)] is a truthiness test. *)
Definition clearCache (pattern : option string) (a : t) : t :=
  if truthy_string pattern then
    mk (platform a) (cacheManager a)
       (log a ++ ["Clearing cache for " +:+ platform_name (platform a)
                    +:+ " with pattern: " +:+ default "" pattern])
  else
    mk (platform a) (CacheManager.clear (cacheManager a))
       (log a ++ ["Cleared all cache for " +:+ platform_name (platform a)]).

End Adapter.

Arguments mk {T}.
Arguments platform {T}.
Arguments cacheManager {T}.
Arguments log {T}.
Arguments clearCache {T}.

End BasePlatformAdapter.

(** * JavaScript [Map<Platform, V>]

    [AdapterManager] keeps its adapters, and [searchAll] its results, in a
    [Map] keyed by platform.  [getAvailablePlatforms] lists the keys, and
    a [Map] lists them in insertion order, so the order is part of the
    model: a list of bindings, oldest insertion first. *)

Module PlatformMap.

Section Map.

Variable V : Type.

Record t := mk { entries : list (Platform * V) }.

(** [new Map()]. *)
Definition new : t := mk [].

Fixpoint find (p : Platform) (l : list (Platform * V)) : option V :=
  match l with
  | [] => None
  | (p', v) :: l => if bool_decide (p' = p) then Some v else find p l
  end.

(** An existing key keeps its position, a new one goes last. *)
Fixpoint put (p : Platform) (v : V) (l : list (Platform * V)) : list (Platform * V) :=
  match l with
  | [] => [(p, v)]
  | (p', v') :: l =>
    if bool_decide (p' = p) then (p, v) :: l else (p', v') :: put p v l
  end.

(** [m.get(p)]. *)
Definition get (p : Platform) (m : t) : option V := find p (entries m).

(** [m.set(p, v)]. *)
Definition set (p : Platform) (v : V) (m : t) : t := mk (put p v (entries m)).

(** [Array.from(m.keys())]. *)
Definition keys (m : t) : list Platform := (entries m).*1.

(** [m.size]. *)
Definition size (m : t) : nat := length (entries m).

End Map.

Arguments mk {V}.
Arguments entries {V}.
Arguments new {V}.
Arguments find {V}.
Arguments put {V}.
Arguments get {V}.
Arguments set {V}.
Arguments keys {V}.
Arguments size {V}.

(** The same function applied to every value, the keys staying in place. *)
Definition map {A B : Type} (f : A -> B) (m : t A) : t B :=
  mk (prod_map id f <$> entries m).

End PlatformMap.

#[global] Instance platform_map_lookup {V : Type} : Lookup Platform V (PlatformMap.t V) :=
  PlatformMap.get.

#[global] Instance platform_map_insert {V : Type} : Insert Platform V (PlatformMap.t V) :=
  PlatformMap.set.

#[global] Instance platform_map_empty {V : Type} : Empty (PlatformMap.t V) :=
  PlatformMap.new.

#[global] Instance platform_map_fmap : FMap PlatformMap.t := @PlatformMap.map.

(** * AdapterManager: cross-platform search *)

Module AdapterManager.

Section Manager.

Variables Query Result Error : Type.

(** A registered adapter, as far as [searchAll] uses it: [search(query)]
    as its settled outcome, the result or the error thrown. *)
Record PlatformAdapter := mkAdapter {
  search : Query -> Result + Error
}.

(** [getAdapter(platform)]. *)
Definition getAdapter (adapters : PlatformMap.t PlatformAdapter) (p : Platform)
    : option PlatformAdapter :=
  adapters !! p.

(** [getAvailablePlatforms()]: [Array.from(this.adapters.keys())]. *)
Definition getAvailablePlatforms (adapters : PlatformMap.t PlatformAdapter)
    : list Platform :=
  PlatformMap.keys adapters.

(** [platforms || this.getAvailablePlatforms()]; an array is truthy. *)
Definition targetPlatforms (adapters : PlatformMap.t PlatformAdapter)
    (platforms : option (list Platform)) : list Platform :=
  match platforms with
  | Some ps => ps
  | None => getAvailablePlatforms adapters
  end.

(** The body of one task once its [adapter.search] has settled: [try]
    and [catch] both end in [results.set(platform, _)]; without an adapter
    nothing is stored.  The task's own promise is always fulfilled. *)
Definition settle (adapters : PlatformMap.t PlatformAdapter) (query : Query)
    (results : PlatformMap.t (Result + Error)) (p : Platform)
    : PlatformMap.t (Result + Error) :=
  match getAdapter adapters p with
  | Some adapter => <[p := search adapter query]> results
  | None => results
  end.

(** Tasks settle in the order [schedule], a list of positions in the
    target list. *)
Fixpoint play (adapters : PlatformMap.t PlatformAdapter) (query : Query)
    (targets : list Platform) (results : PlatformMap.t (Result + Error))
    (schedule : list nat) : PlatformMap.t (Result + Error) :=
  match schedule with
  | [] => results
  | i :: schedule =>
    match targets !! i with
    | Some p => play adapters query targets (settle adapters query results p) schedule
    | None => play adapters query targets results schedule
    end
  end.

(** [searchAll(query, platforms?)]: [Promise.allSettled] waits for every
    task, then the map is returned. *)
Definition searchAll (adapters : PlatformMap.t PlatformAdapter) (query : Query)
    (platforms : option (list Platform)) (schedule : list nat)
    : PlatformMap.t (Result + Error) :=
  play adapters query (targetPlatforms adapters platforms) ∅ schedule.

End Manager.

Arguments mkAdapter {Query Result Error}.
Arguments search {Query Result Error}.
Arguments getAdapter {Query Result Error}.
Arguments getAvailablePlatforms {Query Result Error}.
Arguments targetPlatforms {Query Result Error}.
Arguments settle {Query Result Error}.
Arguments play {Query Result Error}.
Arguments searchAll {Query Result Error}.

(** Sample registry: three platforms, registered in the order NETEASE,
    QQ, KUGOU; the second one always fails. *)
Definition sample_adapters : PlatformMap.t (PlatformAdapter string string string) :=
  <[KUGOU := mkAdapter (fun q => inl ("kugou:" +:+ q))]>
  (<[QQ := mkAdapter (fun q => inr "qq is down")]>
  (<[NETEASE := mkAdapter (fun q => inl ("netease:" +:+ q))]> ∅)).

End AdapterManager.

(** * Further operations of the same classes *)

(** ** JavaScript numbers with their special values *)

Module JSNumber.

(** A JavaScript number as [calculateRetryDelay] meets it: one of the
    special values, or a finite value.  Finite values are kept exact:
    the rounding of a finite result to the nearest double is not
    modelled; the special values and the overflow to an infinity are. *)
Inductive t := NaN | NegInfinity | Finite (q : Q) | Infinity.

(** Doubles end below [2^1024]: a result of that size is an infinity. *)
Definition huge : Q := inject_Z (2 ^ 1024).

Definition range (q : Q) : t :=
  if Qle_bool huge q then Infinity
  else if Qle_bool q (- huge) then NegInfinity
  else Finite q.

(** The sign of a number other than [NaN]. *)
Definition sign (a : t) : Z :=
  match a with
  | NaN => 0
  | NegInfinity => -1
  | Finite q => match (q ?= 0)%Q with Lt => -1 | Eq => 0 | Gt => 1 end
  | Infinity => 1
  end.

(** [a * b]: an infinity times zero is [NaN]. *)
Definition mul (a b : t) : t :=
  match a, b with
  | NaN, _ | _, NaN => NaN
  | Finite x, Finite y => range (x * y)
  | _, _ =>
    match sign a * sign b with
    | Z0 => NaN
    | Zpos _ => Infinity
    | Zneg _ => NegInfinity
    end
  end.

(** [a + b]: opposite infinities add up to [NaN]. *)
Definition add (a b : t) : t :=
  match a, b with
  | NaN, _ | _, NaN => NaN
  | Finite x, Finite y => range (x + y)
  | Infinity, NegInfinity | NegInfinity, Infinity => NaN
  | Infinity, _ | _, Infinity => Infinity
  | NegInfinity, _ | _, NegInfinity => NegInfinity
  end.

(** [Math.min(a, b)]: [NaN] if either argument is. *)
Definition min (a b : t) : t :=
  match a, b with
  | NaN, _ | _, NaN => NaN
  | NegInfinity, _ | _, NegInfinity => NegInfinity
  | Infinity, c | c, Infinity => c
  | Finite x, Finite y => if Qle_bool x y then Finite x else Finite y
  end.

(** [Math.pow(2, n)] for an integer [n]: exact where a double can hold
    it, an infinity from [2^1024] on, zero below [2^-1074]. *)
Definition pow2 (n : Z) : t :=
  if 1024 <=? n then Infinity
  else if n <? -1074 then Finite 0
  else if 0 <=? n then Finite (inject_Z (2 ^ n))
  else Finite (/ inject_Z (2 ^ (- n))).

End JSNumber.

(** ** HttpClient: back-off delay *)

Module HttpClientDelay.

Import HttpClient.

(** [calculateRetryDelay(retryCount)]; [random] is the value drawn by
    [Math.random()]. *)
Definition calculateRetryDelay (config : HttpConfig) (retryCount : Z) (random : Q)
    : JSNumber.t :=
  let baseDelay := JSNumber.Finite (inject_Z (retryDelay config)) in
  let exponentialDelay := JSNumber.mul baseDelay (JSNumber.pow2 retryCount) in
  let jitter := JSNumber.mul (JSNumber.Finite random) (JSNumber.Finite 1000) in
  JSNumber.min (JSNumber.add exponentialDelay jitter) (JSNumber.Finite 30000).

(** The error of the attempt that ended a call, if that attempt failed. *)
Definition last_error {Data : Type} (r : CallResult Data) : option AxiosError :=
  match last (trace r) with
  | Some (Rejected e _ _) => Some e
  | _ => None
  end.

(** A failure of a kind that [shouldRetry] retries while retries remain. *)
Definition retryable_kind (e : AxiosError) : Prop :=
  (code e = Some "ECONNRESET" \/ code e = Some "ETIMEDOUT" \/
   code e = Some "ECONNREFUSED" \/ code e = Some "ENOTFOUND") \/
  exists s, status e = Some s /\ (500 <= s \/ s = 429).

End HttpClientDelay.

(** ** BasePlatformAdapter: cache keys and error classification *)

Module AdapterKeys.

Import HttpClient.

(** [isRetryableError(error)]. *)
Definition isRetryableError (error : AxiosError) : bool :=
  if code_is error "ECONNRESET" || code_is error "ETIMEDOUT" ||
     code_is error "ECONNREFUSED" then true
  else if status_ge error 500 then true
  else if status_is error 429 then true
  else false.

(** [generateCacheKey(type, identifier, ...params)]:
    [[this.platform, type, identifier, ...params].join(':')]. *)
Definition generateCacheKey (platform : Platform) (type identifier : string)
    (params : list string) : string :=
  String.concat ":" (platform_name platform :: type :: identifier :: params).

(** A string without the separator. *)
Fixpoint colon_free (s : string) : bool :=
  match s with
  | EmptyString => true
  | String a s => negb (Ascii.eqb a (Ascii.ascii_of_nat 58)) && colon_free s
  end.

(** The keys [warmupCache] writes for an item. *)
Definition warmupSearchKey (platform : Platform) (item : string) : string :=
  generateCacheKey platform "search" item [].

Definition warmupSongKey (platform : Platform) (item : string) : string :=
  generateCacheKey platform "song" item [].

(** The keys the adapters' [search] and [getSong] read and write: the
    keyword with the limit (and, for two adapters, the offset) as decimal
    strings; the song id with the quality. *)
Definition searchKey (platform : Platform) (keyword : string) (paging : list string)
    : string :=
  generateCacheKey platform "search" keyword paging.

Definition songKey (platform : Platform) (songId quality : string) : string :=
  generateCacheKey platform "song" songId [quality].

End AdapterKeys.

(** ** MemoryCache: the whole public interface *)

Module MemoryCacheApi.

Import MemoryCache.

Section Api.

Variable T : Type.

(** Everything that changes a cache: the three operations, [clear()],
    the periodic [cleanupExpired()] and [resetStats()]. *)
Inductive Action :=
| ActOp (op : Op T)
| ActClear
| ActSweep (now : Z)
| ActResetStats.

Definition exec (config : CacheConfig) (c : MemoryCache.t T) (a : Action)
    : MemoryCache.t T :=
  match a with
  | ActOp op => apply config c op
  | ActClear => clear c
  | ActSweep now => cleanupExpired now c
  | ActResetStats => resetStats c
  end.

Definition execs (config : CacheConfig) (c : MemoryCache.t T) (actions : list Action)
    : MemoryCache.t T :=
  foldl (exec config) c actions.

Definition is_get (op : Op T) : bool :=
  match op with OpGet _ _ => true | _ => false end.

(** The number of [get] calls among [ops]. *)
Definition gets (ops : list (Op T)) : Z :=
  Z.of_nat (length (filter (fun op => is_get op = true) ops)).

(** The value a [get] of [k] at [now] returns, without its side effects. *)
Definition peek (k : string) (now : Z) (c : MemoryCache.t T) : option T :=
  (get k now c).2.

End Api.

Arguments ActOp {T}.
Arguments ActClear {T}.
Arguments ActSweep {T}.
Arguments ActResetStats {T}.
Arguments exec {T}.
Arguments execs {T}.
Arguments is_get {T}.
Arguments gets {T}.
Arguments peek {T}.

End MemoryCacheApi.

(** ** CacheManager: batched reads *)

Module CacheManagerApi.

Import CacheManager.

Section Api.

Variable T : Type.

(** The L1 loop of [mget]: [result] collects the hits; the [i]-th read
    sees the clock at [clock i].  (The misses go to [l2Keys], which is
    only used by the L2 branch.) *)
Fixpoint mget_l1 (keys : list string) (clock : nat -> Z) (i : nat)
    (c : MemoryCache.t T) (result : list (string * T))
    : MemoryCache.t T * list (string * T) :=
  match keys with
  | [] => (c, result)
  | k :: keys =>
    let r := MemoryCache.get k (clock i) c in
    match r.2 with
    | Some value => mget_l1 keys clock (S i) r.1 (JSMap.set k value result)
    | None => mget_l1 keys clock (S i) r.1 result
    end
  end.

(** [mget(keys)]. *)
Definition mget (keys : list string) (clock : nat -> Z) (m : CacheManager.t T)
    : CacheManager.t T * list (string * T) :=
  if enableL1 (config m)
  then let r := mget_l1 keys clock 0 (l1Cache m) [] in (mk (config m) r.1, r.2)
  else (m, []).

End Api.

Arguments mget_l1 {T}.
Arguments mget {T}.

End CacheManagerApi.

(** ** AdapterManager: registry, single-platform dispatch, cache clearing *)

Module AdapterManagerApi.

Section Registry.

Variables AdapterConfig Adapter : Type.

(** One of the four blocks of [initializeAdapters]: a configured platform
    whose constructor returns is registered; one whose constructor throws
    ([None]) is only logged. *)
Definition register (platforms : Platform -> option AdapterConfig)
    (construct : Platform -> AdapterConfig -> option Adapter)
    (adapters : PlatformMap.t Adapter) (p : Platform) : PlatformMap.t Adapter :=
  match platforms p with
  | Some config =>
    match construct p config with
    | Some adapter => <[p := adapter]> adapters
    | None => adapters
    end
  | None => adapters
  end.

(** [initializeAdapters()]: NETEASE, KUWO, QQ, KUGOU, in that order. *)
Definition initializeAdapters (platforms : Platform -> option AdapterConfig)
    (construct : Platform -> AdapterConfig -> option Adapter)
    : PlatformMap.t Adapter :=
  foldl (register platforms construct) ∅ [NETEASE; KUWO; QQ; KUGOU].

(** [destroy()], as far as the registry goes: [this.adapters.clear()]. *)
Definition destroy (adapters : PlatformMap.t Adapter) : PlatformMap.t Adapter := ∅.

End Registry.

Arguments register {AdapterConfig Adapter}.
Arguments initializeAdapters {AdapterConfig Adapter}.
Arguments destroy {Adapter}.

Section Dispatch.

Variables Adapter Result Error : Type.

(** How a dispatched operation fails: the platform has no adapter
    ([new Error("Platform ... not available")]), or the adapter threw. *)
Inductive Failure :=
| NotAvailable (p : Platform)
| Thrown (e : Error).

(** The common body of [search], [getSong] and [getLyric]: [call] is the
    adapter method with its arguments applied, as its settled outcome, and
    [elapsed] is [Date.now() - startTime]. *)
Definition dispatch (operation : string) (adapters : PlatformMap.t Adapter)
    (m : Metrics.PerformanceMetrics) (p : Platform)
    (call : Adapter -> Result + Error) (elapsed : Z)
    : Metrics.PerformanceMetrics * (Result + Failure) :=
  match adapters !! p with
  | None => (m, inr (NotAvailable p))
  | Some adapter =>
    match call adapter with
    | inl result => (Metrics.updateMetrics m operation elapsed true, inl result)
    | inr error => (Metrics.updateMetrics m operation elapsed false, inr (Thrown error))
    end
  end.

(** A dispatched call: the platform, the adapter method and the time taken. *)
Record Call := mkCall {
  c_platform : Platform;
  c_call : Adapter -> Result + Error;
  c_elapsed : Z
}.

(** Calls made one after the other; the metrics are all that is kept. *)
Definition dispatchAll (operation : string) (adapters : PlatformMap.t Adapter)
    (m : Metrics.PerformanceMetrics) (calls : list Call) : Metrics.PerformanceMetrics :=
  foldl (fun m c => (dispatch operation adapters m (c_platform c) (c_call c)
                              (c_elapsed c)).1) m calls.

Definition succeeds (adapters : PlatformMap.t Adapter) (c : Call) : Prop :=
  exists adapter result,
    adapters !! c_platform c = Some adapter /\ c_call c adapter = inl result.

End Dispatch.

Arguments NotAvailable {Error}.
Arguments Thrown {Error}.
Arguments dispatch {Adapter Result Error}.
Arguments mkCall {Adapter Result Error}.
Arguments c_platform {Adapter Result Error}.
Arguments c_call {Adapter Result Error}.
Arguments c_elapsed {Adapter Result Error}.
Arguments dispatchAll {Adapter Result Error}.
Arguments succeeds {Adapter Result Error}.

Section Clear.

Variable T : Type.

(** [clearCache(platform?, pattern?)]; a platform name is never empty, so
    [if (platform)] tests whether one was given. *)
Definition clearCache (platform : option Platform) (pattern : option string)
    (adapters : PlatformMap.t (BasePlatformAdapter.t T))
    : PlatformMap.t (BasePlatformAdapter.t T) :=
  match platform with
  | Some p =>
    match adapters !! p with
    | Some adapter => <[p := BasePlatformAdapter.clearCache pattern adapter]> adapters
    | None => adapters
    end
  | None => BasePlatformAdapter.clearCache pattern <$> adapters
  end.

End Clear.

Arguments clearCache {T}.

End AdapterManagerApi.

(** ** The batch operations without a condition on the gate *)

Module BatchClaim.

Section Claim.

Variables Item Value Error : Type.
Variable perform : Item -> Value + Error.

(** A batch that always settles with index-aligned results: whatever the
    requests and whatever the gate, some order of settlement lets
    [batchRequest] return, and what it returns is the list of the
    requests' outcomes in input order. *)
Definition always_settles_aligned : Prop :=
  forall (requests : list Item) (maxConcurrency : option Z),
    exists schedule,
      Batch.batchRequest perform requests maxConcurrency schedule
      = Some ((fun request => Some (perform request)) <$> requests).

End Claim.

Arguments always_settles_aligned {Item Value Error}.

End BatchClaim.

(** ** The adapters' [getLyric]: a read-through lookup

    The four adapters' [getLyric] share one shape: look the key
    [platform:lyric:songId] up in the cache and return a hit; otherwise
    run the request and the parsing inside [try], store the result and
    return it; anything thrown is caught and an empty lyric is returned. *)

Module AdapterLyrics.

Section Lyrics.

(** [LyricData], and what the [try] block throws. *)
Variables LyricData Error : Type.

(** [getFromCache(key)]; [cacheManager.get] does not throw. *)
Definition getFromCache (key : string) (now : Z) (m : CacheManager.t LyricData)
    : CacheManager.t LyricData * option LyricData :=
  CacheManager.get key now m.

(** [setToCache(key, value, ttl?)]; [cacheManager.set] does not throw. *)
Definition setToCache (key : string) (value : LyricData) (ttl' : option Z) (now : Z)
    (m : CacheManager.t LyricData) : CacheManager.t LyricData :=
  CacheManager.set key value ttl' now m.

(** [getLyric(songId)].  [fetch] is the body of the [try] block up to the
    built [LyricData]: its value, or the error it throws.  [now] is the
    clock at the lookup and [now'] the clock at the write. *)
Definition getLyric (platform : Platform) (emptyLyric : LyricData)
    (fetch : string -> LyricData + Error) (songId : string) (now now' : Z)
    (m : CacheManager.t LyricData) : CacheManager.t LyricData * LyricData :=
  let cacheKey := AdapterKeys.generateCacheKey platform "lyric" songId [] in
  let r := getFromCache cacheKey now m in
  match r.2 with
  | Some cached => (r.1, cached)
  | None =>
    match fetch songId with
    | inl lyricData => (setToCache cacheKey lyricData None now' r.1, lyricData)
    | inr _ => (r.1, emptyLyric)
    end
  end.

End Lyrics.

Arguments getFromCache {LyricData}.
Arguments setToCache {LyricData}.
Arguments getLyric {LyricData Error}.

End AdapterLyrics.

(** * Properties of HttpClient *)

Module HttpClientFacts.

Import HttpClient.

Section Facts.

Context {Data : Type}.


Lemma code_is_spec e s : code_is e s = true ↔ code e = Some s.
Proof.
  unfold code_is. destruct (code e) as [c|]; [|split; discriminate].
  rewrite String.eqb_eq. split; [intros ->; done | intros [= ->]; done].
Qed.

Lemma transient_code_spec e :
  transient_code e = true ↔
  code e = Some "ECONNRESET" ∨ code e = Some "ETIMEDOUT" ∨
  code e = Some "ECONNREFUSED" ∨ code e = Some "ENOTFOUND".
Proof.
  unfold transient_code. rewrite !orb_true_iff, !code_is_spec. tauto.
Qed.

Lemma shouldRetry_spec config e k :
  shouldRetry config e k = true ↔ retry_condition config e k.
Proof.
  unfold retry_condition. rewrite <- transient_code_spec.
  unfold shouldRetry, status_ge, status_is.
  destruct (Z.leb_spec (retries config) k) as [Hk|Hk].
  { split; [discriminate | intros [? _]; lia]. }
  destruct (transient_code e) eqn:Ht.
  { split; auto. }
  destruct (status e) as [s|] eqn:Hs.
  - destruct (Z.leb_spec 500 s) as [H5|H5].
    + split; [intros _|reflexivity]. split; [lia|]. right. exists s. auto.
    + destruct (Z.eqb_spec s 429) as [H4|H4].
      * split; [intros _|reflexivity]. split; [lia|]. right. exists s. auto.
      * split; [discriminate|]. intros [_ [?|(s' & [= <-] & ?)]]; [discriminate|lia].
  - split; [discriminate|]. intros [_ [?|(s' & ? & ?)]]; discriminate.
Qed.

Lemma shouldRetry_bound config e k :
  shouldRetry config e k = true → k < retries config.
Proof. intros H. apply shouldRetry_spec in H. apply H. Qed.

(** Enough fuel always yields a result. *)
Lemma requestWithRetry_total fuel config (endpoint : Z → Reply Data) k c :
  (Z.to_nat (retries config - k) < fuel)%nat →
  is_Some (requestWithRetry fuel config endpoint k c).
Proof.
  revert k c. induction fuel as [|fuel IH]; intros k c Hfuel; [lia|].
  simpl. destruct (endpoint k) as [d s n|e s n]; simpl; [eauto|].
  destruct (shouldRetry config e k) eqn:Hr; [|eauto].
  apply shouldRetry_bound in Hr.
  destruct (IH (k + 1) (onRejected c s n)) as [r Hrq]; [lia|].
  rewrite Hrq. eauto.
Qed.

Lemma request_total config (endpoint : Z → Reply Data) c :
  is_Some (request config endpoint c).
Proof. apply requestWithRetry_total. unfold depth. lia. Qed.

Lemma count_rejected_cons (r : Reply Data) t :
  count_rejected (r :: t) =
  (if is_rejected r then 1 else 0) + count_rejected t.
Proof.
  unfold count_rejected. destruct (is_rejected r) eqn:Hr.
  - rewrite filter_cons_True by done. simpl length. lia.
  - rewrite filter_cons_False by (rewrite Hr; done). lia.
Qed.

Lemma count_fulfilled_cons (r : Reply Data) t :
  count_fulfilled (r :: t) =
  (if is_rejected r then 0 else 1) + count_fulfilled t.
Proof.
  unfold count_fulfilled, is_fulfilled. destruct (is_rejected r) eqn:Hr.
  - rewrite filter_cons_False by (rewrite Hr; done). lia.
  - rewrite filter_cons_True by (rewrite Hr; done). simpl length. lia.
Qed.

Lemma client_request_counters c (reply : Reply Data) :
  let c' := (client_request c reply).1 in
  requestCount c' = requestCount c + (if is_rejected reply then 0 else 1) ∧
  errorCount c' = errorCount c + (if is_rejected reply then 1 else 0) ∧
  totalResponseTime c' = totalResponseTime c + elapsed reply.
Proof.
  destruct reply as [d s n|e s n]; simpl;
    unfold updateMetrics, onRejected; destruct (truthy_number s); simpl; lia.
Qed.

(** The counters after a call, in terms of the attempts it made. *)
Lemma requestWithRetry_counters fuel config (endpoint : Z → Reply Data) k c r :
  requestWithRetry fuel config endpoint k c = Some r →
  requestCount (counters r) = requestCount c + count_fulfilled (trace r) ∧
  errorCount (counters r) = errorCount c + count_rejected (trace r) ∧
  totalResponseTime (counters r)
    = totalResponseTime c + total_elapsed (trace r).
Proof.
  revert k c r. induction fuel as [|fuel IH]; intros k c r; [discriminate|].
  simpl. pose proof (client_request_counters c (endpoint k)) as Hc.
  destruct (client_request c (endpoint k)) as [c' [d|e]] eqn:Hreq.
  - intros [= <-]. simpl in *.
    rewrite count_fulfilled_cons, count_rejected_cons.
    unfold count_fulfilled, count_rejected. simpl. lia.
  - destruct (shouldRetry config e k).
    + destruct (requestWithRetry fuel config endpoint (k + 1) c') as [r'|] eqn:Hrec;
        [|discriminate].
      intros [= <-]. simpl in *. apply IH in Hrec.
      rewrite count_fulfilled_cons, count_rejected_cons. lia.
    + intros [= <-]. simpl in *.
      rewrite count_fulfilled_cons, count_rejected_cons.
      unfold count_fulfilled, count_rejected. simpl. lia.
Qed.

(** The replies consumed are those to attempts [k], [k+1], ..., and an
    attempt is followed by another exactly when it is [retried]. *)
Lemma requestWithRetry_trace fuel config (endpoint : Z → Reply Data) k c r :
  requestWithRetry fuel config endpoint k c = Some r →
  trace r = map (λ i, endpoint (k + Z.of_nat i)) (seq 0%nat (attempts r)) ∧
  (0 < attempts r)%nat ∧
  ∀ i, (i < attempts r)%nat →
    (retried config (endpoint (k + Z.of_nat i)) (k + Z.of_nat i) = true
     ↔ (S i < attempts r)%nat).
Proof.
  revert k c r. induction fuel as [|fuel IH]; intros k c r; [discriminate|].
  simpl. destruct (endpoint k) as [d s n|e s n] eqn:Hk; simpl.
  - intros [= <-]. unfold attempts. simpl. rewrite Z.add_0_r, Hk.
    split; [done|]. split; [lia|]. intros i Hi. assert (i = 0%nat) as -> by lia.
    rewrite Z.add_0_r, Hk. simpl. split; [discriminate|lia].
  - destruct (shouldRetry config e k) eqn:Hr.
    + destruct (requestWithRetry fuel config endpoint (k + 1) (onRejected c s n))
        as [r'|] eqn:Hrec; [|discriminate].
      intros [= <-]. apply IH in Hrec as (Ht & Hpos & Hall).
      unfold attempts in *. simpl. split; [|split; [lia|]].
      * rewrite Z.add_0_r, Hk. f_equal. rewrite Ht at 1.
        rewrite <- seq_shift, map_map. apply map_ext. intros i. f_equal. lia.
      * intros [|i] Hi.
        -- rewrite Z.add_0_r, Hk. simpl. rewrite Hr. split; [lia|done].
        -- replace (k + Z.of_nat (S i)) with (k + 1 + Z.of_nat i) by lia.
           rewrite Hall by lia. lia.
    + intros [= <-]. unfold attempts. simpl. rewrite Z.add_0_r, Hk.
      split; [done|]. split; [lia|]. intros i Hi. assert (i = 0%nat) as -> by lia.
      rewrite Z.add_0_r, Hk. simpl. rewrite Hr. split; [discriminate|lia].
Qed.

(** A call ends with an error exactly when its last attempt was rejected. *)
Lemma requestWithRetry_outcome fuel config (endpoint : Z → Reply Data) k c r :
  requestWithRetry fuel config endpoint k c = Some r →
  match outcome r with
  | inl _ => count_fulfilled (trace r) = 1
  | inr _ => count_fulfilled (trace r) = 0
  end.
Proof.
  revert k c r. induction fuel as [|fuel IH]; intros k c r; [discriminate|].
  simpl. destruct (endpoint k) as [d s n|e s n] eqn:Hk; simpl.
  - intros [= <-]. simpl. rewrite count_fulfilled_cons. reflexivity.
  - destruct (shouldRetry config e k) eqn:Hr.
    + destruct (requestWithRetry fuel config endpoint (k + 1) (onRejected c s n))
        as [r'|] eqn:Hrec; [|discriminate].
      intros [= <-]. apply IH in Hrec. simpl.
      rewrite count_fulfilled_cons. simpl. destruct (outcome r'); lia.
    + intros [= <-]. simpl. rewrite count_fulfilled_cons. reflexivity.
Qed.

(** A call that ends with a value read it from a fulfilled attempt. *)
Lemma requestWithRetry_fulfilled fuel config (endpoint : Z → Reply Data) k c r d :
  requestWithRetry fuel config endpoint k c = Some r →
  outcome r = inl d →
  ∃ i s n, (i < attempts r)%nat ∧ endpoint (k + Z.of_nat i) = Fulfilled d s n.
Proof.
  revert k c r. induction fuel as [|fuel IH]; intros k c r; [discriminate|].
  simpl. destruct (endpoint k) as [d' s n|e s n] eqn:Hk; simpl.
  - intros [= <-]. simpl. intros [= ->]. exists 0%nat, s, n.
    unfold attempts. simpl. rewrite Z.add_0_r. split; [lia|done].
  - destruct (shouldRetry config e k) eqn:Hr.
    + destruct (requestWithRetry fuel config endpoint (k + 1) (onRejected c s n))
        as [r'|] eqn:Hrec; [|discriminate].
      intros [= <-]. simpl. intros Ho.
      destruct (IH _ _ _ Hrec Ho) as (i & s' & n' & Hi & He).
      exists (S i), s', n'. unfold attempts in *. simpl. split; [lia|].
      rewrite <- He. f_equal. lia.
    + intros [= <-]. simpl. discriminate.
Qed.

(** The policy as a property of whole calls. *)
Lemma request_policy config (endpoint : Z → Reply Data) c :
  ∃ r, request config endpoint c = Some r ∧
    trace r = replies endpoint (attempts r) ∧
    (0 < attempts r)%nat ∧
    ∀ i, (i < attempts r)%nat →
      ((S i < attempts r)%nat ↔
       ∃ e s n, endpoint (Z.of_nat i) = Rejected e s n ∧
                retry_condition config e (Z.of_nat i)).
Proof.
  destruct (request_total config endpoint c) as [r Hr]. exists r.
  split; [done|]. apply requestWithRetry_trace in Hr as (Ht & Hpos & Hall).
  split; [exact Ht|]. split; [done|]. intros i Hi.
  rewrite <- (Hall i Hi), Z.add_0_l. unfold retried.
  destruct (endpoint (Z.of_nat i)) as [d s n|e s n].
  - split; [discriminate | intros (? & ? & ? & ? & _); discriminate].
  - rewrite shouldRetry_spec. split.
    + intros H. eauto.
    + intros (e' & s' & n' & [= <- <- <-] & H). exact H.
Qed.

(** C3:
    a failed attempt is followed by a retry exactly when fewer than
    [retries] retries have been made and the failure is one of
    ECONNRESET, ETIMEDOUT, ECONNREFUSED, ENOTFOUND, or carries a status of
    at least 500 or the status 429; with [retries = 3] an endpoint that
    always answers 500 is tried exactly 4 times and the call ends with an
    error; a 404 answer is never retried, whatever [retries] is. *)
Theorem C3_retry_policy :
  (∀ config e k, shouldRetry config e k = true ↔ retry_condition config e k) ∧
  (∀ config (endpoint : Z → Reply Data) c, ∃ r,
      request config endpoint c = Some r ∧
      trace r = replies endpoint (attempts r) ∧
      ∀ i, (i < attempts r)%nat →
        ((S i < attempts r)%nat ↔
         ∃ e s n, endpoint (Z.of_nat i) = Rejected e s n ∧
                  retry_condition config e (Z.of_nat i))) ∧
  (∀ config (endpoint : Z → Reply Data) c,
      retries config = 3 →
      (∀ k, ∃ e s n, endpoint k = Rejected e s n ∧ status e = Some 500) →
      ∃ r err, request config endpoint c = Some r ∧
               attempts r = 4%nat ∧ outcome r = inr err) ∧
  (∀ config (endpoint : Z → Reply Data) c e s n,
      endpoint 0 = Rejected e s n →
      status e = Some 404 → transient_code e = false →
      ∃ r err, request config endpoint c = Some r ∧
               attempts r = 1%nat ∧ outcome r = inr err).
Proof.
  split; [exact shouldRetry_spec|]. split; [|split].
  - intros config endpoint c.
    destruct (request_policy config endpoint c) as (r & Hr & Ht & _ & Hall).
    eauto.
  - intros config endpoint c H3 H500.
    destruct (request_policy config endpoint c) as (r & Hr & Ht & Hpos & Hall).
    assert (Hcond : ∀ i : nat, (∃ e s n, endpoint (Z.of_nat i) = Rejected e s n ∧
                retry_condition config e (Z.of_nat i)) ↔ (i < 3)%nat).
    { intros i. destruct (H500 (Z.of_nat i)) as (e & s & n & He & Hs). split.
      - intros (e' & s' & n' & He' & Hk & _). lia.
      - intros Hi. exists e, s, n. split; [done|]. split; [lia|].
        right. exists 500. split; [done|lia]. }
    assert (attempts r = 4%nat) as Hn.
    { destruct (decide (attempts r < 4)%nat) as [Hlt|Hge].
      - pose proof (Hall (attempts r - 1)%nat ltac:(lia)) as H.
        rewrite Hcond in H. lia.
      - destruct (decide (attempts r = 4%nat)) as [|Hne]; [done|].
        pose proof (Hall 3%nat ltac:(lia)) as H. rewrite Hcond in H. lia. }
    destruct (outcome r) as [d|err] eqn:Ho; [|eauto].
    destruct (requestWithRetry_fulfilled _ _ _ _ _ _ _ Hr Ho) as (i & s & n & _ & He).
    destruct (H500 (0 + Z.of_nat i)) as (e' & s' & n' & He' & _). congruence.
  - intros config endpoint c e s n He Hs Ht.
    destruct (request_policy config endpoint c) as (r & Hr & _ & Hpos & Hall).
    assert (attempts r = 1%nat) as Hn.
    { destruct (decide (attempts r = 1%nat)) as [|Hne]; [done|].
      pose proof (Hall 0%nat ltac:(lia)) as H. change (Z.of_nat 0) with 0 in H.
      destruct H as [H _]. destruct H as (e' & s' & n' & He' & _ & Hc); [lia|].
      rewrite He in He'. injection He' as <- <- <-.
      destruct Hc as [Hc|(s0 & Hs0 & Hc)].
      - apply transient_code_spec in Hc. congruence.
      - rewrite Hs in Hs0. injection Hs0 as <-. lia. }
    destruct (outcome r) as [d|err] eqn:Ho; [|eauto].
    destruct (requestWithRetry_fulfilled _ _ _ _ _ _ _ Hr Ho) as (i & s' & n' & Hi & He').
    assert (i = 0%nat) as -> by lia. change (0 + Z.of_nat 0) with 0 in He'.
    congruence.
Qed.


End Facts.

(** The call that fails twice and then succeeds, evaluated. *)
Lemma fails_twice_run :
  request config3 fails_twice initial
  = Some (mkCallResult (mkCounters 1 2 110) (inl "ok")
            [fails_twice 0; fails_twice 1; fails_twice 2]).
Proof. reflexivity. Qed.



Lemma C3_retry_policy_witness :
  (∃ r err, request config3 always500 initial = Some r ∧
            attempts r = 4%nat ∧ outcome r = inr err) ∧
  (∃ r err, request config3 always404 initial = Some r ∧
            attempts r = 1%nat ∧ outcome r = inr err).
Proof.
  destruct (@C3_retry_policy string) as (_ & _ & H500 & H404). split.
  - apply H500; [reflexivity|]. intros k. eexists _, _, _. split; reflexivity.
  - eapply H404; reflexivity.
Defined.

End HttpClientFacts.

(** * Properties of the insertion-ordered map *)

Module JSMapFacts.

Import JSMap.

Section Facts.

Context {V : Type}.
Implicit Types (m : list (string * V)) (k : string) (v : V).

Lemma eqb_refl' k : String.eqb k k = true.
Proof. apply String.eqb_refl. Qed.

Lemma eqb_false k k' : k ≠ k' → String.eqb k k' = false.
Proof. intros H. apply String.eqb_neq. exact H. Qed.

Lemma get_set_eq k v m : get k (set k v m) = Some v.
Proof.
  induction m as [|[k' v'] m IH]; simpl.
  - by rewrite eqb_refl'.
  - destruct (String.eqb k' k) eqn:E; simpl.
    + by rewrite eqb_refl'.
    + by rewrite E.
Qed.

Lemma get_set_ne k k' v m : k ≠ k' → get k' (set k v m) = get k' m.
Proof.
  intros Hne. induction m as [|[k0 v0] m IH]; simpl.
  - by rewrite eqb_false.
  - destruct (String.eqb k0 k) eqn:E; simpl.
    + apply String.eqb_eq in E as ->. by rewrite eqb_false.
    + by rewrite IH.
Qed.

Lemma get_delete_ne k k' m : k ≠ k' → get k' (delete k m) = get k' m.
Proof.
  intros Hne. induction m as [|[k0 v0] m IH]; simpl; [done|].
  destruct (String.eqb k0 k) eqn:E; simpl.
  - apply String.eqb_eq in E as ->. by rewrite eqb_false.
  - by rewrite IH.
Qed.

Lemma get_Some_elem k v m : get k m = Some v → (k, v) ∈ m.
Proof.
  induction m as [|[k0 v0] m IH]; simpl; [done|].
  destruct (String.eqb k0 k) eqn:E.
  - apply String.eqb_eq in E as ->. intros [= ->]. left.
  - intros H. right. auto.
Qed.

Lemma get_None_keys k m : get k m = None ↔ k ∉ keys m.
Proof.
  unfold keys. induction m as [|[k0 v0] m IH]; simpl.
  - split; [intros _; apply not_elem_of_nil | done].
  - rewrite not_elem_of_cons. destruct (String.eqb k0 k) eqn:E.
    + apply String.eqb_eq in E as ->. split; [done | intros [? _]; done].
    + apply String.eqb_neq in E. rewrite IH. split; [auto | intros [_ ?]; done].
Qed.

Lemma get_is_Some_keys k m : is_Some (get k m) ↔ k ∈ keys m.
Proof.
  rewrite <- not_eq_None_Some, get_None_keys.
  destruct (decide (k ∈ keys m)); tauto.
Qed.

Lemma has_keys k m : has k m = true ↔ k ∈ keys m.
Proof.
  rewrite <- get_is_Some_keys. unfold has.
  destruct (get k m); split; eauto; try discriminate. intros [? ?]; discriminate.
Qed.

Lemma elem_get k v m : NoDup (keys m) → (k, v) ∈ m → get k m = Some v.
Proof.
  unfold keys. induction m as [|[k0 v0] m IH]; simpl.
  - intros _ H. by apply elem_of_nil in H.
  - intros Hnd H. apply NoDup_cons in Hnd as [Hk0 Hnd].
    apply elem_of_cons in H as [[= -> ->]|H].
    + by rewrite eqb_refl'.
    + destruct (String.eqb k0 k) eqn:E; [|auto].
      apply String.eqb_eq in E as ->. exfalso. apply Hk0.
      apply list_elem_of_fmap. exists (k, v). auto.
Qed.

Lemma keys_set_in k v m : k ∈ keys m → keys (set k v m) = keys m.
Proof.
  unfold keys. induction m as [|[k0 v0] m IH]; simpl.
  - intros H. by apply elem_of_nil in H.
  - intros H. destruct (String.eqb k0 k) eqn:E; simpl.
    + apply String.eqb_eq in E as ->. done.
    + apply String.eqb_neq in E. apply elem_of_cons in H as [->|H]; [done|].
      by rewrite IH.
Qed.

Lemma keys_set_notin k v m : k ∉ keys m → keys (set k v m) = keys m ++ [k].
Proof.
  unfold keys. induction m as [|[k0 v0] m IH]; simpl; [done|].
  intros H. apply not_elem_of_cons in H as [Hne H].
  rewrite eqb_false by done. simpl. by rewrite IH.
Qed.

Lemma set_notin k v m : k ∉ keys m → set k v m = m ++ [(k, v)].
Proof.
  unfold keys. induction m as [|[k0 v0] m IH]; simpl; [done|].
  intros H. apply not_elem_of_cons in H as [Hne H].
  rewrite eqb_false by done. by rewrite IH.
Qed.

Lemma elem_keys_set k k' v m : k' ∈ keys (set k v m) ↔ k' = k ∨ k' ∈ keys m.
Proof.
  destruct (decide (k ∈ keys m)) as [Hin|Hnin].
  - rewrite keys_set_in by done. split; [auto | intros [->|?]; done].
  - rewrite keys_set_notin by done. rewrite elem_of_app, list_elem_of_singleton. tauto.
Qed.

Lemma length_set k v m :
  length (set k v m) = if has k m then length m else S (length m).
Proof.
  unfold has. induction m as [|[k0 v0] m IH]; simpl; [done|].
  destruct (String.eqb k0 k) eqn:E; simpl; [done|].
  rewrite IH. by destruct (get k m).
Qed.

Lemma length_delete k m :
  length (delete k m) = if has k m then pred (length m) else length m.
Proof.
  unfold has. induction m as [|[k0 v0] m IH]; simpl; [done|].
  destruct (String.eqb k0 k) eqn:E; simpl; [done|].
  rewrite IH. destruct (get k m) eqn:G; [|done].
  destruct m; simpl in *; [discriminate|done].
Qed.

Lemma delete_sublist k m : sublist (delete k m) m.
Proof.
  induction m as [|[k0 v0] m IH]; simpl; [done|].
  destruct (String.eqb k0 k).
  - by apply sublist_cons.
  - by apply sublist_skip.
Qed.

Lemma keys_delete_sublist k m : sublist (keys (delete k m)) (keys m).
Proof. unfold keys. apply (fmap_sublist fst), delete_sublist. Qed.

Lemma NoDup_keys_delete k m : NoDup (keys m) → NoDup (keys (delete k m)).
Proof. intros H. eapply sublist_NoDup; [done | apply keys_delete_sublist]. Qed.

Lemma NoDup_keys_set k v m : NoDup (keys m) → NoDup (keys (set k v m)).
Proof.
  intros H. destruct (decide (k ∈ keys m)) as [Hin|Hnin].
  - by rewrite keys_set_in.
  - rewrite keys_set_notin by done. apply NoDup_app. split; [done|].
    split; [|apply NoDup_singleton].
    intros x Hx Hx'. apply list_elem_of_singleton in Hx' as ->. done.
Qed.

Lemma elem_keys_delete k k' m :
  NoDup (keys m) → (k' ∈ keys (delete k m) ↔ k' ≠ k ∧ k' ∈ keys m).
Proof.
  unfold keys. induction m as [|[k0 v0] m IH]; simpl.
  - intros _. split; [intros H; by apply elem_of_nil in H | intros [_ H]; done].
  - intros Hnd. apply NoDup_cons in Hnd as [Hk0 Hnd].
    destruct (String.eqb k0 k) eqn:E; simpl.
    + apply String.eqb_eq in E as ->. rewrite elem_of_cons. split.
      * intros H. split; [intros ->; done | auto].
      * intros [Hne [?|?]]; done.
    + apply String.eqb_neq in E. rewrite !elem_of_cons, IH by done. split.
      * intros [->|[? ?]]; auto.
      * intros [Hne [->|?]]; auto.
Qed.

Lemma get_delete_eq k m : NoDup (keys m) → get k (delete k m) = None.
Proof.
  intros H. apply get_None_keys. rewrite elem_keys_delete by done.
  intros [? _]; done.
Qed.

(** Deleting the same key from two maps with the same keys. *)
Lemma keys_delete_eq {W : Type} k m (m' : list (string * W)) :
  keys m = keys m' → keys (delete k m) = keys (delete k m').
Proof.
  unfold keys. revert m'. induction m as [|[k0 v0] m IH]; intros [|[k1 v1] m']; simpl;
    try discriminate; [done|].
  intros [= -> H]. destruct (String.eqb k1 k); simpl; [done|].
  f_equal. by apply IH.
Qed.

Lemma keys_set_eq {W : Type} k v (w : W) m (m' : list (string * W)) :
  keys m = keys m' → keys (set k v m) = keys (set k w m').
Proof.
  unfold keys. revert m'. induction m as [|[k0 v0] m IH]; intros [|[k1 v1] m']; simpl;
    try discriminate; [done|].
  intros [= -> H]. destruct (String.eqb k1 k); simpl; [by f_equal|].
  f_equal. by apply IH.
Qed.

End Facts.

End JSMapFacts.

(** * Properties of MemoryCache *)

Module MemoryCacheFacts.

Import MemoryCache JSMapFacts.

Section Facts.

Context {T : Type}.
Implicit Types (c : t T) (k : string) (cfg : CacheConfig).

(** ** The least recently used key *)

Lemma lru_fold (order : list (string * Z)) k0 o0 :
  ∃ k o, foldl lru_step (Some k0, Some o0) order = (Some k, Some o) ∧
    ((k, o) = (k0, o0) ∨ (k, o) ∈ order) ∧
    o ≤ o0 ∧ ∀ k' o', (k', o') ∈ order → o ≤ o'.
Proof.
  revert k0 o0. induction order as [|[k1 o1] order IH]; intros k0 o0; simpl.
  - exists k0, o0. split; [done|]. split; [by left|]. split; [lia|].
    intros k' o' H. by apply elem_of_nil in H.
  - unfold lru_step at 2. simpl. destruct (Z.ltb_spec o1 o0) as [Hlt|Hge].
    + destruct (IH k1 o1) as (k & o & Hf & Hin & Hle & Hall).
      exists k, o. split; [done|]. split.
      { right. destruct Hin as [->|Hin]; [left | by right]. }
      split; [lia|]. intros k' o' H. apply elem_of_cons in H as [[= -> ->]|H]; [lia|eauto].
    + destruct (IH k0 o0) as (k & o & Hf & Hin & Hle & Hall).
      exists k, o. split; [done|]. split.
      { destruct Hin as [Hin|Hin]; [by left | right; by right]. }
      split; [lia|]. intros k' o' H. apply elem_of_cons in H as [[= -> ->]|H]; [lia|eauto].
Qed.

Lemma lruKey_nil : lruKey [] = None.
Proof. reflexivity. Qed.

(** On a non-empty map the loop ends on a key whose access is oldest. *)
Lemma lruKey_oldest (order : list (string * Z)) :
  order ≠ [] →
  ∃ k o, lruKey order = Some k ∧ (k, o) ∈ order ∧
    ∀ k' o', (k', o') ∈ order → o ≤ o'.
Proof.
  destruct order as [|[k0 o0] order]; [done|]. intros _.
  unfold lruKey. simpl. unfold lru_step at 2. simpl.
  destruct (lru_fold order k0 o0) as (k & o & Hf & Hin & Hle & Hall).
  exists k, o. rewrite Hf. split; [done|]. split.
  - destruct Hin as [->|Hin]; [left | by right].
  - intros k' o' H. apply elem_of_cons in H as [[= -> ->]|H]; [lia|eauto].
Qed.

(** When the first binding is at least as old as all others, it is chosen. *)
Lemma lruKey_head k0 o0 (order : list (string * Z)) :
  Forall (λ e, o0 ≤ e.2) order → lruKey ((k0, o0) :: order) = Some k0.
Proof.
  unfold lruKey. simpl. unfold lru_step at 2. simpl.
  induction order as [|[k1 o1] order IH]; simpl; [done|].
  intros H. apply Forall_cons in H as [H1 H]. simpl in H1.
  unfold lru_step at 2. simpl. destruct (Z.ltb_spec o1 o0); [lia|]. auto.
Qed.

Lemma lruKey_in_keys (order : list (string * Z)) k :
  lruKey order = Some k → k ∈ JSMap.keys order.
Proof.
  intros H. destruct order as [|e order]; [discriminate|].
  destruct (lruKey_oldest (e :: order)) as (k' & o & Hk & Hin & _); [done|].
  rewrite H in Hk. injection Hk as <-.
  unfold JSMap.keys. apply list_elem_of_fmap. by exists (k, o).
Qed.

(** ** The representation invariant *)

Lemma WF_new : WF (new (T := T)).
Proof.
  unfold WF, new. simpl. split; [done|]. split; [apply NoDup_nil_2|].
  split; [apply Forall_nil_2 | apply NoDup_nil_2].
Qed.

Lemma values_delete_sublist k (m : list (string * Z)) :
  sublist (JSMap.delete k m).*2 m.*2.
Proof. apply (fmap_sublist snd), delete_sublist. Qed.

Lemma WF_delete k c : WF c → WF (delete k c).1.
Proof.
  intros (Hk & Hnd & Hle & Hno). unfold WF, delete. simpl.
  split; [by apply keys_delete_eq|]. split; [by apply NoDup_keys_delete|]. split.
  - rewrite Forall_forall in Hle |- *. intros e He. apply Hle.
    eapply sublist_subseteq; [apply delete_sublist | done].
  - eapply sublist_NoDup; [exact Hno | apply values_delete_sublist].
Qed.

Lemma elem_of_set {V : Type} k (v : V) m e :
  e ∈ JSMap.set k v m → e = (k, v) ∨ e ∈ m.
Proof.
  induction m as [|[k0 v0] m IH]; simpl.
  - intros H. apply list_elem_of_singleton in H. by left.
  - destruct (String.eqb k0 k).
    + intros H. apply elem_of_cons in H as [->|H]; [by left | right; by right].
    + intros H. apply elem_of_cons in H as [->|H]; [right; left|].
      destruct (IH H) as [->|?]; [by left | right; by right].
Qed.

Lemma elem_of_set_self {V : Type} k (v : V) m : (k, v) ∈ JSMap.set k v m.
Proof. apply get_Some_elem, get_set_eq. Qed.

Lemma NoDup_values_set k (o : Z) (m : list (string * Z)) :
  NoDup m.*2 → o ∉ m.*2 → NoDup (JSMap.set k o m).*2.
Proof.
  induction m as [|[k0 o0] m IH]; simpl.
  - intros _ _. apply NoDup_singleton.
  - intros Hnd Ho. apply NoDup_cons in Hnd as [Ho0 Hnd].
    apply not_elem_of_cons in Ho as [Hne Ho].
    destruct (String.eqb k0 k); simpl.
    + apply NoDup_cons. split; done.
    + apply NoDup_cons. split; [|auto].
      intros Hin. apply list_elem_of_fmap in Hin as ([k1 o1] & -> & Hin).
      apply elem_of_set in Hin as [[= -> ->]|Hin]; [done|].
      apply Ho0. apply list_elem_of_fmap. by exists (k1, o1).
Qed.

(** Touching [k]: its access number becomes the incremented counter. *)
Lemma WF_touch (cache' : list (string * CacheItem T)) c k h m :
  WF c →
  JSMap.keys cache' = JSMap.keys (JSMap.set k (accessCounter c + 1) (accessOrder c)) →
  WF (mk cache' (JSMap.set k (accessCounter c + 1) (accessOrder c)) h m
         (accessCounter c + 1)).
Proof.
  intros (Hk & Hnd & Hle & Hno) Hk'. unfold WF. simpl.
  split; [done|]. split.
  { rewrite Hk'. apply NoDup_keys_set. by rewrite <- Hk. }
  split.
  - apply Forall_forall. intros e He. apply elem_of_set in He as [->|He]; simpl; [lia|].
    rewrite Forall_forall in Hle. specialize (Hle _ He). lia.
  - apply NoDup_values_set; [done|]. intros Hin.
    apply list_elem_of_fmap in Hin as ([k1 o1] & Ho & Hin). simpl in Ho. subst o1.
    rewrite Forall_forall in Hle. specialize (Hle _ Hin). simpl in Hle. lia.
Qed.

Lemma WF_miss c : WF c → WF (miss c).
Proof. done. Qed.

Lemma WF_get k now c : WF c → WF (get k now c).1.
Proof.
  intros Hwf. unfold get. destruct (JSMap.get k (cache c)) as [item|] eqn:Hg; simpl.
  - destruct (isExpired now item); simpl.
    + apply WF_miss, WF_delete, Hwf.
    + apply WF_touch; [done|]. apply keys_set_eq, Hwf.
  - by apply WF_miss.
Qed.

Lemma WF_evictLeastUsed c : WF c → WF (evictLeastUsed c).
Proof.
  intros Hwf. unfold evictLeastUsed. destruct (lruKey (accessOrder c)); [|done].
  destruct (truthy_string (Some s)); [|done]. by apply WF_delete.
Qed.

Lemma WF_set cfg k v ttl' now c : WF c → WF (set cfg k v ttl' now c).
Proof.
  intros Hwf. unfold set.
  set (c' := if maxSize cfg <=? JSMap.size (cache c) then evictLeastUsed c else c).
  assert (WF c') as Hwf'.
  { unfold c'. destruct (maxSize cfg <=? JSMap.size (cache c)); [|done].
    by apply WF_evictLeastUsed. }
  apply WF_touch; [done|]. apply keys_set_eq, Hwf'.
Qed.

Lemma WF_apply cfg c op : WF c → WF (apply cfg c op).
Proof.
  intros Hwf. destruct op; simpl.
  - by apply WF_get.
  - by apply WF_set.
  - by apply WF_delete.
Qed.

Lemma run_app cfg c ops ops' :
  run cfg c (ops ++ ops') = run cfg (run cfg c ops) ops'.
Proof. unfold run. apply foldl_app. Qed.

Lemma WF_run cfg c ops : WF c → WF (run cfg c ops).
Proof.
  revert c. induction ops as [|op ops IH]; intros c Hwf; [done|].
  apply IH. by apply WF_apply.
Qed.

Lemma evictions_app cfg c ops ops' :
  evictions cfg c (ops ++ ops')
  = evictions cfg c ops ++ evictions cfg (run cfg c ops) ops'.
Proof.
  revert c. induction ops as [|op ops IH]; intros c; [done|].
  simpl. rewrite IH. by rewrite app_assoc.
Qed.

(** ** Eviction *)

Lemma truthy_string_Some k : truthy_string (Some k) = true ↔ k ≠ "".
Proof.
  simpl. rewrite negb_true_iff. split.
  - intros H. by apply String.eqb_neq.
  - intros H. by apply String.eqb_neq.
Qed.

Lemma size_pos_nonempty {V : Type} (m : list (string * V)) :
  1 ≤ JSMap.size m → m ≠ [].
Proof. destruct m; [unfold JSMap.size; simpl; lia | done]. Qed.

Lemma keys_nonempty {V W : Type} (m : list (string * V)) (m' : list (string * W)) :
  JSMap.keys m = JSMap.keys m' → m ≠ [] → m' ≠ [].
Proof. destruct m, m'; simpl; done. Qed.

(** On a non-empty cache without the empty key, [evictLeastUsed] deletes
    the key whose last access is the oldest. *)
Lemma evictLeastUsed_spec c :
  WF c → Forall (λ k, k ≠ "") (JSMap.keys (cache c)) → cache c ≠ [] →
  ∃ victim, lruKey (accessOrder c) = Some victim ∧ oldest c victim ∧
    victim ∈ JSMap.keys (cache c) ∧ victim ≠ "" ∧
    evictLeastUsed c = (delete victim c).1.
Proof.
  intros Hwf Hne Hsize. pose proof Hwf as (Hk & _).
  destruct (lruKey_oldest (accessOrder c)) as (k & o & Hl & Hin & Hmin).
  { eapply keys_nonempty; [exact Hk | done]. }
  assert (k ∈ JSMap.keys (cache c)) as Hkin.
  { rewrite Hk. by apply lruKey_in_keys. }
  assert (k ≠ "") as Hk0.
  { rewrite Forall_forall in Hne. by apply Hne. }
  exists k. split; [done|]. split; [by exists o|]. split; [done|]. split; [done|].
  unfold evictLeastUsed. rewrite Hl.
  by rewrite (proj2 (truthy_string_Some k) Hk0).
Qed.

Lemma evicted_in_keys cfg c k :
  WF c → evicted cfg c = Some k → k ∈ JSMap.keys (cache c).
Proof.
  intros (Hk & _) H. unfold evicted in H.
  destruct (maxSize cfg <=? JSMap.size (cache c)); [|discriminate].
  destruct (lruKey (accessOrder c)) as [k'|] eqn:Hl; [|discriminate].
  destruct (truthy_string (Some k')); [|discriminate]. injection H as ->.
  rewrite Hk. by apply lruKey_in_keys.
Qed.

(** [set] is: drop the evicted key, if any, then store the new item. *)
Lemma set_evicted cfg k v ttl' now c :
  cache (set cfg k v ttl' now c)
  = JSMap.set k (mkCacheItem k v (number_or ttl' (ttl cfg)) now 1 now)
      (match evicted cfg c with
       | Some victim => JSMap.delete victim (cache c)
       | None => cache c
       end).
Proof.
  unfold set, evicted, evictLeastUsed.
  destruct (maxSize cfg <=? JSMap.size (cache c)); [|done].
  destruct (lruKey (accessOrder c)) as [k'|]; [|done].
  by destruct (truthy_string (Some k')).
Qed.

Lemma size_delete_le k c : stats_size (delete k c).1 ≤ stats_size c.
Proof.
  unfold stats_size, JSMap.size, delete. simpl. rewrite length_delete.
  destruct (JSMap.has k (cache c)); lia.
Qed.

Lemma size_get_le k now c : stats_size (get k now c).1 ≤ stats_size c.
Proof.
  unfold get. destruct (JSMap.get k (cache c)) as [item|] eqn:Hg; simpl; [|done].
  destruct (isExpired now item); simpl.
  - apply (size_delete_le k c).
  - unfold stats_size, JSMap.size. simpl. rewrite length_set.
    unfold JSMap.has. rewrite Hg. lia.
Qed.

Lemma size_set_le cfg k v ttl' now c :
  1 ≤ maxSize cfg → WF c → Forall (λ k, k ≠ "") (JSMap.keys (cache c)) →
  stats_size c ≤ maxSize cfg →
  stats_size (set cfg k v ttl' now c) ≤ maxSize cfg.
Proof.
  intros H1 Hwf Hne Hsz. unfold stats_size, JSMap.size in *.
  rewrite set_evicted, length_set. unfold evicted.
  destruct (Z.leb_spec (maxSize cfg) (JSMap.size (cache c))) as [Hfull|Hroom].
  - destruct (evictLeastUsed_spec c Hwf Hne) as (victim & Hl & _ & Hin & Hv0 & _).
    { apply size_pos_nonempty. lia. }
    rewrite Hl, (proj2 (truthy_string_Some victim) Hv0), length_delete.
    rewrite (proj2 (has_keys victim (cache c)) Hin).
    destruct (JSMap.has k _); destruct (cache c); simpl in *; lia.
  - unfold JSMap.size in Hroom. destruct (JSMap.has k _); lia.
Qed.

Lemma keys_ok_delete k c :
  Forall (λ k, k ≠ "") (JSMap.keys (cache c)) →
  Forall (λ k, k ≠ "") (JSMap.keys (cache (delete k c).1)).
Proof.
  rewrite !Forall_forall. intros H x Hx. apply H.
  eapply sublist_subseteq; [apply keys_delete_sublist | exact Hx].
Qed.

Lemma keys_ok_apply cfg c op :
  op_key op ≠ "" →
  Forall (λ k, k ≠ "") (JSMap.keys (cache c)) →
  Forall (λ k, k ≠ "") (JSMap.keys (cache (apply cfg c op))).
Proof.
  intros Hop Hc. destruct op as [k now|k v ttl' now|k]; unfold apply, op_key in *.
  - unfold get. destruct (JSMap.get k (cache c)) as [item|] eqn:Hg; simpl; [|done].
    destruct (isExpired now item); simpl.
    + by apply (keys_ok_delete k c).
    + rewrite keys_set_in; [done|]. apply get_is_Some_keys. by rewrite Hg.
  - rewrite set_evicted. rewrite Forall_forall in Hc |- *. intros x Hx.
    apply elem_keys_set in Hx as [->|Hx]; [done|]. apply Hc.
    destruct (evicted cfg c); [|done].
    eapply sublist_subseteq; [apply keys_delete_sublist | exact Hx].
  - by apply (keys_ok_delete k c).
Qed.

Lemma keys_ok_run cfg ops c :
  Forall (λ op, op_key op ≠ "") ops →
  Forall (λ k, k ≠ "") (JSMap.keys (cache c)) →
  Forall (λ k, k ≠ "") (JSMap.keys (cache (run cfg c ops))).
Proof.
  revert c. induction ops as [|op ops IH]; intros c Hops Hc; [done|].
  apply Forall_cons in Hops as [Hop Hops]. simpl. apply IH; [done|].
  by apply keys_ok_apply.
Qed.

(** The entry count of a cache of capacity at least one never exceeds it. *)
Lemma size_run_le cfg ops c :
  1 ≤ maxSize cfg → WF c → Forall (λ k, k ≠ "") (JSMap.keys (cache c)) →
  Forall (λ op, op_key op ≠ "") ops →
  stats_size c ≤ maxSize cfg →
  stats_size (run cfg c ops) ≤ maxSize cfg.
Proof.
  intros H1. revert c. induction ops as [|op ops IH]; intros c Hwf Hne Hops Hsz; [done|].
  apply Forall_cons in Hops as [Hop Hops]. simpl.
  apply IH; [by apply WF_apply | by apply keys_ok_apply | done |].
  destruct op as [k now|k v ttl' now|k]; unfold apply.
  - pose proof (size_get_le k now c). lia.
  - by apply size_set_le.
  - pose proof (size_delete_le k c). lia.
Qed.

(** A write into a full cache removes exactly the least recently used key. *)
Lemma set_at_capacity cfg k v ttl' now c :
  1 ≤ maxSize cfg → WF c → Forall (λ k, k ≠ "") (JSMap.keys (cache c)) →
  maxSize cfg ≤ stats_size c →
  ∃ victim, evicted cfg c = Some victim ∧ oldest c victim ∧
    cache (set cfg k v ttl' now c)
    = JSMap.set k (mkCacheItem k v (number_or ttl' (ttl cfg)) now 1 now)
        (JSMap.delete victim (cache c)) ∧
    S (length (JSMap.delete victim (cache c))) = length (cache c) ∧
    JSMap.get victim (JSMap.delete victim (cache c)) = None ∧
    ∀ k', k' ≠ victim →
      JSMap.get k' (JSMap.delete victim (cache c)) = JSMap.get k' (cache c).
Proof.
  intros H1 Hwf Hne Hfull. unfold stats_size in Hfull.
  destruct (evictLeastUsed_spec c Hwf Hne) as (victim & Hl & Hold & Hin & Hv0 & _).
  { apply size_pos_nonempty. lia. }
  assert (evicted cfg c = Some victim) as Hev.
  { unfold evicted. rewrite (proj2 (Z.leb_le _ _) Hfull), Hl.
    by rewrite (proj2 (truthy_string_Some victim) Hv0). }
  exists victim. split; [done|]. split; [done|].
  split; [by rewrite set_evicted, Hev|]. split.
  - rewrite length_delete, (proj2 (has_keys victim (cache c)) Hin).
    destruct (cache c); [|done]. unfold JSMap.size in Hfull. simpl in Hfull. lia.
  - split; [apply get_delete_eq, Hwf|]. intros k' Hk'. by apply get_delete_ne.
Qed.

(** ** Writes with no reads in between *)

Lemma set_room cfg k v ttl' now c :
  JSMap.size (cache c) < maxSize cfg →
  evicted cfg c = None ∧
  set cfg k v ttl' now c
  = mk (JSMap.set k (mkCacheItem k v (number_or ttl' (ttl cfg)) now 1 now) (cache c))
       (JSMap.set k (accessCounter c + 1) (accessOrder c))
       (hits c) (misses c) (accessCounter c + 1).
Proof.
  intros H. unfold evicted, set.
  destruct (Z.leb_spec (maxSize cfg) (JSMap.size (cache c))); [lia|done].
Qed.

Lemma inserts_app (es es' : list (Entry T)) :
  inserts (es ++ es') = inserts es ++ inserts es'.
Proof. unfold inserts. apply map_app. Qed.

Lemma run_insert_one cfg c (e : Entry T) :
  run cfg c (inserts [e]) = set cfg (e_key e) (e_value e) (e_ttl e) (e_now e) c.
Proof. reflexivity. Qed.

Lemma evictions_insert_one cfg c (e : Entry T) :
  evictions cfg c (inserts [e])
  = match evicted cfg c with Some k => [k] | None => [] end.
Proof. simpl. apply app_nil_r. Qed.

Lemma length_keys {V : Type} (m : list (string * V)) :
  length (JSMap.keys m) = length m.
Proof. unfold JSMap.keys. apply length_map. Qed.

(** Filling an empty cache up to its capacity: nothing is evicted and the
    [i]-th key written carries the access number [i + 1]. *)
Lemma fill cfg (es : list (Entry T)) :
  NoDup (map e_key es) → Z.of_nat (length es) ≤ maxSize cfg →
  JSMap.keys (cache (run cfg new (inserts es))) = map e_key es ∧
  accessOrder (run cfg new (inserts es))
    = imap (λ i e, (e_key e, Z.of_nat i + 1)) es ∧
  accessCounter (run cfg new (inserts es)) = Z.of_nat (length es) ∧
  evictions cfg new (inserts es) = [].
Proof.
  induction es as [|e es IH] using rev_ind; [done|].
  rewrite map_app, length_app. simpl. intros Hnd Hlen.
  apply NoDup_app in Hnd as (Hnd & Hfresh & _).
  destruct IH as (Hkeys & Hord & Hcnt & Hev); [done | lia |].
  rewrite inserts_app, run_app, evictions_app, Hev.
  rewrite run_insert_one, evictions_insert_one.
  set (c := run cfg new (inserts es)) in *.
  assert (WF c) as Hwf by apply WF_run, WF_new.
  assert (JSMap.size (cache c) < maxSize cfg) as Hroom.
  { unfold JSMap.size. rewrite <- length_keys, Hkeys, length_map. lia. }
  destruct (set_room cfg (e_key e) (e_value e) (e_ttl e) (e_now e) c Hroom) as [Hnone Hset].
  assert (e_key e ∉ JSMap.keys (cache c)) as Hnew.
  { rewrite Hkeys. intros Hin. apply (Hfresh _ Hin). left. }
  rewrite Hset, Hnone. simpl.
  split; [by rewrite keys_set_notin, Hkeys|]. split; [|split; [lia|done]].
  rewrite set_notin by (by rewrite <- (proj1 Hwf)).
  rewrite imap_app, Hord, Hcnt. simpl. do 3 f_equal. lia.
Qed.

Lemma keys_delete_head {V : Type} k ks (m : list (string * V)) :
  JSMap.keys m = k :: ks → JSMap.keys (JSMap.delete k m) = ks.
Proof.
  destruct m as [|[k0 v0] m]; [discriminate|]. simpl. intros [= -> <-].
  by rewrite eqb_refl'.
Qed.

(** One write more than the capacity, all keys distinct, no reads: the
    key written first, and only that key, is evicted. *)
Lemma overflow_evicts_first cfg e (es : list (Entry T)) last :
  NoDup (map e_key (e :: es ++ [last])) → e_key e ≠ "" →
  Z.of_nat (length (e :: es)) = maxSize cfg →
  evictions cfg new (inserts (e :: es ++ [last])) = [e_key e] ∧
  JSMap.keys (cache (run cfg new (inserts (e :: es ++ [last]))))
    = map e_key (es ++ [last]).
Proof.
  intros Hnd He Hlen. rewrite app_comm_cons in Hnd |- *.
  rewrite map_app in Hnd. apply NoDup_app in Hnd as (Hnd & Hfresh & _).
  destruct (fill cfg (e :: es) Hnd ltac:(lia)) as (Hkeys & Hord & Hcnt & Hev).
  rewrite inserts_app, run_app, evictions_app, Hev.
  rewrite run_insert_one, evictions_insert_one.
  set (c := run cfg new (inserts (e :: es))) in *.
  assert (WF c) as Hwf by apply WF_run, WF_new.
  assert (evicted cfg c = Some (e_key e)) as Hvictim.
  { unfold evicted. rewrite (proj2 (Z.leb_le _ _)).
    2:{ unfold JSMap.size. rewrite <- length_keys, Hkeys, length_map. lia. }
    rewrite Hord. simpl imap. rewrite lruKey_head.
    - by rewrite (proj2 (truthy_string_Some _) He).
    - apply Forall_forall. intros x Hx.
      apply elem_of_lookup_imap in Hx as (i & y & -> & _). simpl. lia. }
  rewrite Hvictim. split; [done|].
  rewrite set_evicted, Hvictim.
  simpl in Hkeys. rewrite keys_set_notin.
  - by rewrite (keys_delete_head _ _ _ Hkeys), map_app.
  - rewrite (keys_delete_head _ _ _ Hkeys). intros Hin.
    apply (Hfresh (e_key last)); [by right | left].
Qed.

(** ** A key kept most recently used *)

Lemma newest_counter c k :
  WF c → (k, accessCounter c) ∈ accessOrder c → newest c k.
Proof.
  intros (_ & _ & Hle & _) Hin. exists (accessCounter c). split; [done|].
  intros k' o' He. rewrite Forall_forall in Hle. apply (Hle _ He).
Qed.

(** Both a hit and a write make their key the most recently used one. *)
Lemma get_hit_newest k now c v :
  WF c → (get k now c).2 = Some v → newest (get k now c).1 k.
Proof.
  intros Hwf. pose proof (WF_get k now c Hwf) as Hwf'. revert Hwf'.
  unfold get. destruct (JSMap.get k (cache c)) as [item|] eqn:Hg; simpl; [|done].
  destruct (isExpired now item); simpl; [done|]. intros Hwf' _.
  apply newest_counter; [done|]. simpl. apply elem_of_set_self.
Qed.

Lemma set_newest cfg k v ttl' now c :
  WF c → newest (set cfg k v ttl' now c) k.
Proof.
  intros Hwf. apply newest_counter; [by apply WF_set|]. apply elem_of_set_self.
Qed.

Lemma get_newest_or_absent k now c :
  WF c →
  newest (get k now c).1 k ∨ k ∉ JSMap.keys (cache (get k now c).1).
Proof.
  intros Hwf. destruct (get k now c).2 as [v|] eqn:Hr.
  - left. by eapply get_hit_newest.
  - right. revert Hr. unfold get.
    destruct (JSMap.get k (cache c)) as [item|] eqn:Hg; simpl.
    + destruct (isExpired now item); simpl; [|done]. intros _.
      rewrite elem_keys_delete by apply Hwf. intros [? _]; done.
    + intros _. by apply get_None_keys.
Qed.

Lemma same_values_short (m : list (string * Z)) (o : Z) :
  NoDup m.*2 → (∀ e, e ∈ m → e.2 = o) → (length m ≤ 1)%nat.
Proof.
  destruct m as [|[k1 o1] [|[k2 o2] m]]; simpl; [lia | lia |].
  intros Hnd Hall. exfalso. apply NoDup_cons in Hnd as [Hnot _]. apply Hnot.
  pose proof (Hall (k1, o1) ltac:(left)) as H1.
  pose proof (Hall (k2, o2) ltac:(right; left)) as H2.
  simpl in H1, H2. subst o1 o2. left.
Qed.

(** The most recently used key of a cache of capacity two or more is not
    the one a write evicts. *)
Lemma newest_not_evicted cfg c k :
  2 ≤ maxSize cfg → WF c → newest c k → evicted cfg c ≠ Some k.
Proof.
  intros H2 Hwf Hnew Hev. pose proof Hwf as (Hk & Hnd & Hle & Hno).
  unfold evicted in Hev.
  destruct (Z.leb_spec (maxSize cfg) (JSMap.size (cache c))) as [Hfull|]; [|discriminate].
  destruct (lruKey (accessOrder c)) as [k'|] eqn:Hl; [|discriminate].
  destruct (truthy_string (Some k')); [|discriminate]. injection Hev as ->.
  destruct (lruKey_oldest (accessOrder c)) as (k' & o & Hl' & Hin & Hmin).
  { intros Hnil. destruct Hnew as (? & Hnew & _). rewrite Hnil in Hnew.
    by apply elem_of_nil in Hnew. }
  rewrite Hl in Hl'. injection Hl' as <-. destruct Hnew as (o' & Hin' & Hmax).
  assert (o' = o) as ->.
  { rewrite Hk in Hnd. apply (elem_get _ _ _ Hnd) in Hin, Hin'. congruence. }
  assert (length (accessOrder c) ≤ 1)%nat as Hshort.
  { apply (same_values_short _ o); [done|]. intros [k' o'] He. simpl.
    specialize (Hmin _ _ He). specialize (Hmax _ _ He). lia. }
  unfold JSMap.size in Hfull. rewrite <- length_keys, Hk, length_keys in Hfull. lia.
Qed.

Lemma absent_not_evicted cfg c k :
  WF c → k ∉ JSMap.keys (cache c) → evicted cfg c ≠ Some k.
Proof. intros Hwf Hk Hev. apply Hk. by eapply evicted_in_keys. Qed.

(** Writes that each follow a read of [hot] never evict [hot]. *)
Lemma hot_inserts_keep cfg hot (es : list (Z * Entry T)) c :
  2 ≤ maxSize cfg → WF c → hot ∉ evictions cfg c (hot_inserts hot es).
Proof.
  intros H2. revert c. induction es as [|[now e] es IH]; intros c Hwf.
  - apply not_elem_of_nil.
  - simpl. set (c1 := (get hot now c).1).
    assert (WF c1) as Hwf1 by by apply WF_get.
    assert (evicted cfg c1 ≠ Some hot) as Hev.
    { destruct (get_newest_or_absent hot now c Hwf) as [Hnew|Habs].
      - by apply newest_not_evicted.
      - by apply absent_not_evicted. }
    rewrite not_elem_of_app. split.
    + destruct (evicted cfg c1) as [k|]; [|apply not_elem_of_nil].
      rewrite list_elem_of_singleton. congruence.
    + apply IH. by apply WF_set.
Qed.

Lemma absent_apply cfg c op k :
  WF c → is_set_of k op = false → k ∉ JSMap.keys (cache c) →
  k ∉ JSMap.keys (cache (apply cfg c op)).
Proof.
  intros Hwf Hop Hk. destruct op as [k' now|k' v ttl' now|k']; unfold apply.
  - unfold get. destruct (JSMap.get k' (cache c)) as [item|] eqn:Hg; simpl; [|done].
    destruct (isExpired now item); simpl.
    + rewrite elem_keys_delete by apply Hwf. tauto.
    + rewrite keys_set_in; [done|]. apply get_is_Some_keys. by rewrite Hg.
  - simpl in Hop. apply String.eqb_neq in Hop.
    rewrite set_evicted, elem_keys_set. intros [->|Hin]; [done|]. apply Hk.
    destruct (evicted cfg c); [|done].
    eapply sublist_subseteq; [apply keys_delete_sublist | exact Hin].
  - simpl. rewrite elem_keys_delete by apply Hwf. tauto.
Qed.

(** While [k] is not written it is neither stored nor evicted. *)
Lemma absent_run cfg ops c k :
  WF c → Forall (λ op, is_set_of k op = false) ops → k ∉ JSMap.keys (cache c) →
  (k ∉ evictions cfg c ops) ∧ (k ∉ JSMap.keys (cache (run cfg c ops))).
Proof.
  revert c. induction ops as [|op ops IH]; intros c Hwf Hops Hk.
  - split; [apply not_elem_of_nil | done].
  - apply Forall_cons in Hops as [Hop Hops].
    destruct (IH (apply cfg c op)) as [Hev Hkeys];
      [by apply WF_apply | done | by apply absent_apply |].
    split; [|done]. simpl. rewrite not_elem_of_app. split; [|done].
    destruct op; try apply not_elem_of_nil.
    pose proof (absent_not_evicted cfg c k Hwf Hk) as Hne.
    destruct (evicted cfg c) as [k'|]; [|apply not_elem_of_nil].
    rewrite list_elem_of_singleton. congruence.
Qed.

(** C4 (amended):
    for a cache of capacity [maxSize >= 1] driven with non-empty keys, the
    entry count never exceeds the capacity; a write into a full cache
    removes exactly one entry, the one whose last access is the oldest,
    where a hit and a write both make their key the most recently used;
    writing [maxSize + 1] distinct keys with no reads evicts exactly the
    key written first; and, when the capacity is at least two, a key that
    is read before every later write is never evicted. *)
Theorem C4_lru_eviction cfg :
  1 ≤ maxSize cfg →
  (∀ ops, Forall (λ op, op_key op ≠ "") ops →
     stats_size (run (T := T) cfg new ops) ≤ maxSize cfg) ∧
  (∀ ops k v ttl' now, Forall (λ op, op_key op ≠ "") ops →
     maxSize cfg ≤ stats_size (run (T := T) cfg new ops) →
     ∃ victim,
       evicted cfg (run cfg new ops) = Some victim ∧
       oldest (run cfg new ops) victim ∧
       cache (set cfg k v ttl' now (run cfg new ops))
       = JSMap.set k (mkCacheItem k v (number_or ttl' (ttl cfg)) now 1 now)
           (JSMap.delete victim (cache (run cfg new ops))) ∧
       S (length (JSMap.delete victim (cache (run cfg new ops))))
       = length (cache (run cfg new ops))) ∧
  (∀ ops k v ttl' now w,
     newest (set (T := T) cfg k v ttl' now (run cfg new ops)) k ∧
     ((get k now (run (T := T) cfg new ops)).2 = Some w →
      newest (get k now (run cfg new ops)).1 k)) ∧
  (∀ es : list (Entry T),
     NoDup (map e_key es) → Forall (λ e, e_key e ≠ "") es →
     Z.of_nat (length es) = maxSize cfg + 1 →
     ∃ first rest, es = first :: rest ∧
       evictions cfg new (inserts es) = [e_key first] ∧
       JSMap.keys (cache (run cfg new (inserts es))) = map e_key rest) ∧
  (2 ≤ maxSize cfg → hot_key_kept T cfg).
Proof.
  intros H1. split; [|split; [|split; [|split]]].
  - intros ops Hops.
    apply size_run_le; [done | apply WF_new | apply Forall_nil_2 | done |].
    unfold stats_size, JSMap.size. simpl. lia.
  - intros ops k v ttl' now Hops Hfull.
    assert (WF (run (T := T) cfg new ops)) as Hwf by apply WF_run, WF_new.
    assert (Forall (λ k, k ≠ "") (JSMap.keys (cache (run (T := T) cfg new ops)))) as Hne.
    { apply keys_ok_run; [done | apply Forall_nil_2]. }
    destruct (set_at_capacity cfg k v ttl' now _ H1 Hwf Hne Hfull)
      as (victim & Hev & Hold & Hset & Hlen & _).
    by exists victim.
  - intros ops k v ttl' now w.
    assert (WF (run (T := T) cfg new ops)) as Hwf by apply WF_run, WF_new.
    split; [by apply set_newest | by apply get_hit_newest].
  - intros es Hnd Hne Hlen.
    destruct es as [|first rest]; [simpl in Hlen; lia|].
    destruct rest as [|last rest _] using rev_ind; [simpl in Hlen; lia|].
    exists first, (rest ++ [last]). split; [done|].
    apply overflow_evicts_first; [done | |].
    + apply Forall_cons in Hne as [Hne _]. done.
    + simpl in Hlen. rewrite length_app in Hlen. simpl in *. lia.
  - intros H2 pre hot post Hpre.
    assert (WF (new (T := T))) as Hwf0 by apply WF_new.
    destruct (absent_run cfg pre new (e_key hot) Hwf0 Hpre) as [Hev Hkeys].
    { apply not_elem_of_nil. }
    rewrite evictions_app, not_elem_of_app. split; [done|].
    assert (WF (run cfg new pre)) as Hwf by by apply WF_run.
    rewrite evictions_app, not_elem_of_app. split.
    + change [insert hot] with (inserts [hot]). rewrite evictions_insert_one.
      pose proof (absent_not_evicted cfg _ _ Hwf Hkeys) as Hne.
      destruct (evicted cfg (run cfg new pre)) as [k'|]; [|apply not_elem_of_nil].
      rewrite list_elem_of_singleton. congruence.
    + apply hot_inserts_keep; [done|]. by apply WF_run.
Qed.

(** ** Expiry *)

Lemma isExpired_spec now (item : CacheItem T) :
  isExpired now item = true ↔ item_ttl item < now - createdAt item.
Proof. unfold isExpired. apply Z.ltb_lt. Qed.

Lemma isExpired_later now0 now (item : CacheItem T) :
  now0 ≤ now → isExpired now0 item = true → isExpired now item = true.
Proof. rewrite !isExpired_spec. lia. Qed.

Lemma get_None_spec k now c item :
  JSMap.get k (cache c) = Some item →
  (get k now c).2 = None ↔ isExpired now item = true.
Proof.
  intros Hg. unfold get. rewrite Hg. destruct (isExpired now item); simpl.
  - done.
  - split; discriminate.
Qed.

Lemma get_absent k now c :
  JSMap.get k (cache c) = None → (get k now c).2 = None.
Proof. intros Hg. unfold get. by rewrite Hg. Qed.

Lemma sweep_keeps ks k c :
  k ∉ ks →
  JSMap.get k (cache (foldl (λ c k, (delete k c).1) c ks)) = JSMap.get k (cache c).
Proof.
  revert c. induction ks as [|k0 ks IH]; intros c Hk; [done|].
  apply not_elem_of_cons in Hk as [Hne Hk]. simpl. rewrite IH by done.
  simpl. by apply get_delete_ne.
Qed.

Lemma sweep_absent ks k c :
  JSMap.get k (cache c) = None →
  JSMap.get k (cache (foldl (λ c k, (delete k c).1) c ks)) = None.
Proof.
  revert c. induction ks as [|k0 ks IH]; intros c Hk; [done|].
  simpl. apply IH. simpl. apply get_None_keys. apply get_None_keys in Hk.
  intros Hin. apply Hk.
  eapply sublist_subseteq; [apply keys_delete_sublist | exact Hin].
Qed.

Lemma sweep_removes ks k c :
  WF c → k ∈ ks →
  JSMap.get k (cache (foldl (λ c k, (delete k c).1) c ks)) = None.
Proof.
  revert c. induction ks as [|k0 ks IH]; intros c Hwf Hk.
  - by apply elem_of_nil in Hk.
  - simpl. destruct (decide (k = k0)) as [->|Hne].
    + apply sweep_absent. simpl. apply get_delete_eq, Hwf.
    + apply elem_of_cons in Hk as [?|Hk]; [done|].
      apply IH; [by apply WF_delete | done].
Qed.

(** An entry that the sweep left in place is the entry that was there;
    one that it removed had expired. *)
Lemma get_after_sweep k swept now c item :
  WF c → JSMap.get k (cache c) = Some item → swept ≤ now →
  (get k now (cleanupExpired swept c)).2 = None ↔ isExpired now item = true.
Proof.
  intros Hwf Hg Hle. unfold cleanupExpired.
  set (ks := map fst (filter (λ e, isExpired swept e.2 = true) (cache c))).
  destruct (isExpired swept item) eqn:Hexp.
  - assert (k ∈ ks) as Hin.
    { unfold ks. apply list_elem_of_fmap. exists (k, item). split; [done|].
      apply list_elem_of_filter. split; [done|]. by apply get_Some_elem. }
    split; [intros _; by eapply isExpired_later|]. intros _.
    apply get_absent. by apply sweep_removes.
  - assert (k ∉ ks) as Hnin.
    { unfold ks. intros Hin. apply list_elem_of_fmap in Hin as ([k' item'] & Hk & Hin).
      simpl in Hk. subst k'. apply list_elem_of_filter in Hin as [Hexp' Hin]. simpl in Hexp'.
      apply (elem_get _ _ _ (proj1 (proj2 Hwf))) in Hin. congruence. }
    apply get_None_spec. rewrite sweep_keeps by done. done.
Qed.

(** Nothing but a write of [k] turns an expired or absent [k] into a
    live entry. *)
Lemma expired_apply cfg c op k now0 :
  is_set_of k op = false →
  (∀ item, (k, item) ∈ cache c → isExpired now0 item = true) →
  ∀ item, (k, item) ∈ cache (apply cfg c op) → isExpired now0 item = true.
Proof.
  intros Hop Hc item. destruct op as [k' now|k' v ttl' now|k']; unfold apply.
  - unfold get. destruct (JSMap.get k' (cache c)) as [it|] eqn:Hg; simpl; [|apply Hc].
    destruct (isExpired now it); simpl.
    + intros Hin. apply Hc. eapply sublist_subseteq; [apply delete_sublist | exact Hin].
    + intros Hin. apply elem_of_set in Hin as [[= <- ->]|Hin]; [|by apply Hc].
      apply get_Some_elem in Hg. apply Hc in Hg. exact Hg.
  - simpl in Hop. apply String.eqb_neq in Hop. rewrite set_evicted.
    intros Hin. apply elem_of_set in Hin as [[= <- _]|Hin]; [done|]. apply Hc.
    destruct (evicted cfg c); [|done].
    eapply sublist_subseteq; [apply delete_sublist | exact Hin].
  - simpl. intros Hin. apply Hc.
    eapply sublist_subseteq; [apply delete_sublist | exact Hin].
Qed.

Lemma expired_run cfg ops c k now0 :
  Forall (λ op, is_set_of k op = false) ops →
  (∀ item, (k, item) ∈ cache c → isExpired now0 item = true) →
  ∀ item, (k, item) ∈ cache (run cfg c ops) → isExpired now0 item = true.
Proof.
  revert c. induction ops as [|op ops IH]; intros c Hops Hc; [done|].
  apply Forall_cons in Hops as [Hop Hops]. simpl. apply IH; [done|].
  by apply expired_apply.
Qed.

(** C5:
    an entry written with a ttl of 100 ms is returned by a read 50 ms later
    and is absent for a read 150 ms later; in general a stored entry is
    absent for [get] and [has] exactly when [now - createdAt > ttl],
    whether or not a sweep has removed it in the meantime; and an entry
    that has expired stays absent until its key is written again. *)
Theorem C5_ttl_expiry cfg :
  (∀ (c : t T) k v t0,
     (get k (t0 + 50) (set cfg k v (Some 100) t0 c)).2 = Some v ∧
     (get k (t0 + 150) (set cfg k v (Some 100) t0 c)).2 = None ∧
     (get k (t0 + 150) (get k (t0 + 50) (set cfg k v (Some 100) t0 c)).1).2 = None) ∧
  (∀ (c : t T) k item now,
     WF c → JSMap.get k (cache c) = Some item →
     ((get k now c).2 = None ↔ item_ttl item < now - createdAt item) ∧
     (has k now c = false ↔ item_ttl item < now - createdAt item) ∧
     (∀ swept, swept ≤ now →
        ((get k now (cleanupExpired swept c)).2 = None
         ↔ item_ttl item < now - createdAt item))) ∧
  (∀ (c : t T) k now0 ops now,
     (∀ item, (k, item) ∈ cache c → item_ttl item < now0 - createdAt item) →
     Forall (λ op, is_set_of k op = false) ops →
     now0 ≤ now →
     (get k now (run cfg c ops)).2 = None ∧ has k now (run cfg c ops) = false).
Proof.
  split; [|split].
  - intros c k v t0.
    set (c1 := set cfg k v (Some 100) t0 c).
    set (item := mkCacheItem k v 100 t0 1 t0).
    assert (JSMap.get k (cache c1) = Some item) as Hg.
    { unfold c1. rewrite set_evicted. apply get_set_eq. }
    assert (isExpired (t0 + 50) item = false) as H50.
    { unfold isExpired. simpl. apply Z.ltb_ge. lia. }
    assert (isExpired (t0 + 150) item = true) as H150.
    { apply isExpired_spec. simpl. lia. }
    split; [|split].
    + unfold get. by rewrite Hg, H50.
    + by apply (get_None_spec k (t0 + 150) c1 item).
    + unfold get at 2. rewrite Hg, H50. simpl.
      eapply get_None_spec; [simpl; apply get_set_eq|]. exact H150.
  - intros c k item now Hwf Hg. rewrite <- isExpired_spec. split; [|split].
    + by apply get_None_spec.
    + unfold has. rewrite Hg. by rewrite negb_false_iff.
    + intros swept Hle. rewrite <- isExpired_spec. by apply get_after_sweep.
  - intros c k now0 ops now Hc Hops Hle.
    assert (∀ item, (k, item) ∈ cache (run cfg c ops) → isExpired now item = true) as H.
    { intros item Hin. apply (isExpired_later now0); [done|].
      eapply expired_run; [exact Hops | | exact Hin].
      intros it Hit. apply isExpired_spec. by apply Hc. }
    destruct (JSMap.get k (cache (run cfg c ops))) as [item|] eqn:Hg.
    + pose proof (H _ (get_Some_elem _ _ _ Hg)) as Hexp. split.
      * by apply (get_None_spec k now _ item).
      * unfold has. by rewrite Hg, Hexp.
    + split; [by apply get_absent|]. unfold has. by rewrite Hg.
Qed.

End Facts.

Lemma C4_lru_eviction_witness :
  ∃ first rest, [entryA; entryB; entryC] = first :: rest ∧
    evictions cacheConfig2 new (inserts [entryA; entryB; entryC]) = [e_key first] ∧
    JSMap.keys (cache (run cacheConfig2 new (inserts [entryA; entryB; entryC])))
    = map e_key rest.
Proof.
  assert (1 ≤ maxSize cacheConfig2) as H1 by (simpl; lia).
  destruct (C4_lru_eviction (T := Z) cacheConfig2 H1) as (_ & _ & _ & H & _).
  apply H.
  - refine (bool_decide_unpack _ _). vm_compute. exact I.
  - refine (bool_decide_unpack _ _). vm_compute. exact I.
  - reflexivity.
Defined.

(** C4 as stated fails for capacity one: the key that was just read is
    the only entry, so the next write evicts it. *)
Lemma C4_counterexample : ¬ hot_key_kept Z cacheConfig1.
Proof.
  intros H.
  specialize (H [] (mkEntry "K" 1 None 0) [(10, mkEntry "B" 2 None 20)]
                (Forall_nil_2 _)).
  apply H. vm_compute. left.
Qed.

(** The empty key is never chosen by [evictLeastUsed]: [if (lruKey)] reads
    it as "no key", and the cache outgrows its capacity. *)
Lemma empty_key_outgrows_capacity :
  stats_size (run cacheConfig1 new [OpSet "" 1 None 0; OpSet "a" 2 None 5]) = 2.
Proof. reflexivity. Qed.

Lemma C5_ttl_expiry_witness :
  (get "k" 50 (set cacheConfig2 "k" 7 (Some 100) 0 new)).2 = Some 7 ∧
  (get "k" 300
     (run cacheConfig2 (set cacheConfig2 "k" 7 (Some 100) 0 new)
        [OpGet "x" 200; OpSet "x" 8 None 210; OpDelete "y"])).2 = None.
Proof.
  destruct (C5_ttl_expiry (T := Z) cacheConfig2) as (H1 & _ & H3). split.
  - apply (H1 new "k" 7 0).
  - apply (H3 _ "k" 150).
    + intros item Hin. vm_compute in Hin.
      apply list_elem_of_singleton in Hin. injection Hin as ->. simpl. lia.
    + refine (bool_decide_unpack _ _). vm_compute. exact I.
    + lia.
Defined.

End MemoryCacheFacts.

(** * Properties of CacheManager and of the adapter's cache maintenance *)

Module CacheManagerFacts.

Import CacheManager JSMapFacts MemoryCacheFacts.

Section Facts.

Context {T : Type}.

Lemma commonTtl_keep (items : list (WarmupItem T)) m acc :
  truthy_number acc = true → (foldl warmup_step (m, acc) items).2 = acc.
Proof.
  revert m. induction items as [|item items IH]; intros m Hacc; [done|].
  simpl. unfold warmup_step at 2. simpl. rewrite Hacc. simpl. by apply IH.
Qed.

Lemma number_or_truthy a d :
  truthy_number a = true → number_or a d = default d a.
Proof.
  destruct a as [n|]; simpl; [|done]. by destruct (n =? 0).
Qed.

Lemma number_or_falsy a d : truthy_number a = false → number_or a d = d.
Proof.
  destruct a as [n|]; simpl; [|done]. by destruct (n =? 0).
Qed.

Lemma commonTtl_fold cfg (items : list (WarmupItem T)) m acc :
  truthy_number acc = false →
  number_or (foldl warmup_step (m, acc) items).2 (ttl cfg) = shared_ttl cfg items.
Proof.
  unfold shared_ttl. revert m acc.
  induction items as [|item items IH]; intros m acc Hacc; simpl.
  - by apply number_or_falsy.
  - unfold warmup_step at 2. simpl. rewrite Hacc. simpl.
    destruct (truthy_number (w_ttl item)) eqn:Hitem.
    + rewrite commonTtl_keep by done. by apply number_or_truthy.
    + by apply IH.
Qed.

(** The ttl that [warmup] hands to [mset] resolves to the shared ttl. *)
Lemma commonTtl_shared cfg (items : list (WarmupItem T)) :
  number_or (commonTtl items) (ttl cfg) = shared_ttl cfg items.
Proof. by apply commonTtl_fold. Qed.

Lemma itemMap_fold_keys (items : list (WarmupItem T)) p k :
  k ∈ JSMap.keys (foldl warmup_step p items).1
  ↔ k ∈ JSMap.keys p.1 ∨ k ∈ map w_key items.
Proof.
  revert p. induction items as [|item items IH]; intros p; simpl.
  - split; [by left | intros [?|H]; [done | by apply elem_of_nil in H]].
  - rewrite IH. unfold warmup_step. simpl. rewrite elem_keys_set, elem_of_cons. tauto.
Qed.

Lemma itemMap_keys (items : list (WarmupItem T)) k :
  k ∈ JSMap.keys (itemMap items) ↔ k ∈ map w_key items.
Proof.
  unfold itemMap. rewrite itemMap_fold_keys. simpl. split; [|by right].
  intros [H|?]; [by apply elem_of_nil in H | done].
Qed.

(** A write leaves the ttl of the other stored entries alone. *)
Lemma set_ttl_of cfg k k' v ttl' now (c : MemoryCache.t T) :
  MemoryCache.WF c →
  k' = k ∨ (∀ it, JSMap.get k (MemoryCache.cache c) = Some it →
              MemoryCache.item_ttl it = number_or ttl' (ttl cfg)) →
  ∀ it, JSMap.get k (MemoryCache.cache (MemoryCache.set cfg k' v ttl' now c)) = Some it →
        MemoryCache.item_ttl it = number_or ttl' (ttl cfg).
Proof.
  intros Hwf Hk it. rewrite set_evicted.
  destruct (decide (k' = k)) as [->|Hne].
  - rewrite get_set_eq. by intros [= <-].
  - destruct Hk as [?|Hk]; [done|]. rewrite get_set_ne by done.
    destruct (MemoryCache.evicted cfg c) as [victim|]; [|apply Hk].
    destruct (decide (victim = k)) as [->|Hv].
    + rewrite get_delete_eq by apply Hwf. discriminate.
    + rewrite get_delete_ne by done. apply Hk.
Qed.

Lemma WF_mset_l1 cfg (items : list (string * T)) ttl' clock i c :
  MemoryCache.WF c → MemoryCache.WF (mset_l1 cfg items ttl' clock i c).
Proof.
  revert i c. induction items as [|[k v] items IH]; intros i c Hwf; [done|].
  simpl. apply IH. by apply WF_set.
Qed.

(** After [mset], every stored entry whose key was in the batch carries
    the ttl the batch was written with. *)
Lemma mset_l1_ttl cfg (items : list (string * T)) ttl' clock i c k :
  MemoryCache.WF c →
  k ∈ JSMap.keys items ∨
    (∀ it, JSMap.get k (MemoryCache.cache c) = Some it →
           MemoryCache.item_ttl it = number_or ttl' (ttl cfg)) →
  ∀ it, JSMap.get k (MemoryCache.cache (mset_l1 cfg items ttl' clock i c)) = Some it →
        MemoryCache.item_ttl it = number_or ttl' (ttl cfg).
Proof.
  revert i c. induction items as [|[k' v] items IH]; intros i c Hwf Hk.
  - destruct Hk as [Hk|Hk]; [by apply elem_of_nil in Hk | exact Hk].
  - simpl. apply IH; [by apply WF_set|].
    destruct (decide (k ∈ JSMap.keys items)) as [Hin|Hnin]; [by left|]. right.
    apply set_ttl_of; [done|]. destruct Hk as [Hk|Hk]; [|by right].
    simpl in Hk. apply elem_of_cons in Hk as [->|?]; [by left | done].
Qed.

(** C9:
    [warmup] writes every entry with one shared ttl, the ttl of the first
    item in list order that sets one, or the cache default when no item
    does; the ttl of any other item is not used. *)
Theorem C9_warmup_shared_ttl (items : list (WarmupItem T)) clock (m : t T) :
  enableL1 (config m) = true →
  MemoryCache.WF (l1Cache m) →
  warmup items clock m
  = mk (config m)
       (mset_l1 (config m) (itemMap items) (commonTtl items) clock 0 (l1Cache m)) ∧
  number_or (commonTtl items) (ttl (config m)) = shared_ttl (config m) items ∧
  ∀ item it,
    item ∈ items →
    JSMap.get (w_key item) (MemoryCache.cache (l1Cache (warmup items clock m))) = Some it →
    MemoryCache.item_ttl it = shared_ttl (config m) items.
Proof.
  intros Hl1 Hwf. unfold warmup, mset. rewrite Hl1. split; [done|].
  split; [apply commonTtl_shared|]. intros item it Hin. simpl.
  rewrite <- commonTtl_shared. apply mset_l1_ttl; [done|]. left.
  apply itemMap_keys. apply list_elem_of_fmap. by exists item.
Qed.

End Facts.

Lemma C9_warmup_shared_ttl_witness :
  MemoryCache.item_ttl <$>
    JSMap.get "c" (MemoryCache.cache
                     (l1Cache (warmup warmupItems (λ i, Z.of_nat i) (new cacheConfig2))))
  = Some 500.
Proof.
  assert (enableL1 (config (new (T := Z) cacheConfig2)) = true) as Hl1 by reflexivity.
  destruct (C9_warmup_shared_ttl warmupItems (λ i, Z.of_nat i) (new cacheConfig2)
              Hl1 WF_new) as (_ & _ & H).
  destruct (JSMap.get "c" _) as [it|] eqn:Hg; [|vm_compute in Hg; discriminate Hg].
  simpl. f_equal.
  apply (H (mkWarmupItem "c" 3 (Some 900)) it); [|exact Hg].
  right. right. left.
Defined.

Section Adapter.

Context {T : Type}.

Import BasePlatformAdapter.

(** C10:
    [clearCache] with a non-empty pattern leaves the cache manager, and so
    every cached entry, as it was; called without a pattern it empties the
    L1 tier (when that tier is enabled). *)
Theorem C10_clearCache_pattern_noop :
  (∀ (pattern : string) (a : BasePlatformAdapter.t T),
     pattern ≠ "" → cacheManager (clearCache (Some pattern) a) = cacheManager a) ∧
  (∀ a : BasePlatformAdapter.t T,
     enableL1 (config (cacheManager a)) = true →
     MemoryCache.cache (l1Cache (cacheManager (clearCache None a))) = [] ∧
     MemoryCache.accessOrder (l1Cache (cacheManager (clearCache None a))) = []).
Proof.
  split.
  - intros pattern a Hp. unfold clearCache.
    by rewrite (proj2 (truthy_string_Some pattern) Hp).
  - intros a Hl1. unfold clearCache. simpl. unfold clear. by rewrite Hl1.
Qed.

(** An empty pattern is falsy and is treated as no pattern at all. *)
Lemma clearCache_empty_pattern (a : BasePlatformAdapter.t T) :
  clearCache (Some "") a = clearCache None a.
Proof. reflexivity. Qed.

End Adapter.

Lemma C10_clearCache_pattern_noop_witness :
  let a := BasePlatformAdapter.mk NETEASE
             (set "netease:search:x" 1 None 0 (new cacheConfig2)) [] in
  BasePlatformAdapter.cacheManager
    (BasePlatformAdapter.clearCache (Some "netease:*") a)
  = BasePlatformAdapter.cacheManager a ∧
  MemoryCache.cache
    (l1Cache (BasePlatformAdapter.cacheManager (BasePlatformAdapter.clearCache None a)))
  = [].
Proof.
  destruct (C10_clearCache_pattern_noop (T := Z)) as [H1 H2]. split.
  - apply H1. discriminate.
  - apply H2. reflexivity.
Defined.

End CacheManagerFacts.

(** * Properties of Semaphore *)

Module SemaphoreFacts.

Import Semaphore.

Section Facts.

Context {Waiter : Type}.
Implicit Types (g : Gate Waiter) (s : Semaphore.t Waiter) (w : Waiter).

Lemma gate_inv_init n : 0 ≤ n → gate_inv n (init (Waiter := Waiter) n).
Proof. intros Hn. unfold gate_inv, init, new. simpl. repeat split; (done || lia). Qed.

Lemma gate_inv_acquire n g w : gate_inv n g → gate_inv n (do_acquire g w).
Proof.
  intros (Hp & Ho & Hsum & Hq). unfold gate_inv, do_acquire, acquire.
  destruct (Z.ltb_spec 0 (permits (sem g))) as [Hfree|Hnone]; simpl.
  - repeat split; try lia. intros Hne. specialize (Hq Hne). lia.
  - repeat split; try lia.
Qed.

Lemma gate_inv_release n g : 0 < outstanding g → gate_inv n g → gate_inv n (do_release g).
Proof.
  intros Hout (Hp & Ho & Hsum & Hq). unfold gate_inv, do_release, release.
  destruct (waitQueue (sem g)) as [|w q] eqn:Hwq; simpl.
  - repeat split; try lia. done.
  - assert (permits (sem g) = 0) as H0 by (by apply Hq).
    repeat split; try lia.
Qed.

Lemma gate_inv_reachable n g : 0 ≤ n → reachable n g → gate_inv n g.
Proof.
  intros Hn Hr. induction Hr as [|g g' Hr IH Hstep].
  - by apply gate_inv_init.
  - inversion Hstep; subst.
    + by apply gate_inv_acquire.
    + by apply gate_inv_release.
Qed.

(** C6:
    for a semaphore built with a positive number [n] of permits and any
    interleaving of [acquire] and [release], the permits handed out and not
    yet returned never exceed [n]; a [release] made while callers wait
    resumes the caller at the head of the queue and leaves the free
    permits unchanged, and a caller that arrives while others wait is
    queued behind them. *)
Theorem C6_gate_capacity_fifo n g :
  0 < n → reachable n g →
  outstanding g ≤ n ∧
  (∀ w q, waitQueue (sem g) = w :: q →
     (release (sem g)).2 = Some w ∧
     waitQueue (release (sem g)).1 = q ∧
     permits (release (sem g)).1 = permits (sem g) ∧
     outstanding (do_release g) = outstanding g) ∧
  (∀ w, waitQueue (sem g) ≠ [] →
     acquire (sem g) w = (mk (permits (sem g)) (waitQueue (sem g) ++ [w]), false)).
Proof.
  intros Hn Hr. destruct (gate_inv_reachable n g ltac:(lia) Hr) as (Hp & Ho & Hsum & Hq).
  split; [lia|]. split.
  - intros w q Hwq. unfold do_release, release. rewrite Hwq. simpl.
    repeat split; lia.
  - intros w Hne. unfold acquire. rewrite (Hq Hne). done.
Qed.

End Facts.

Lemma C6_gate_capacity_fifo_witness :
  outstanding crowded ≤ 2 ∧ (release (sem crowded)).2 = Some "c".
Proof.
  assert (0 < 2) as H2 by lia.
  assert (reachable 2 crowded) as Hr.
  { unfold crowded. repeat (eapply reachable_step; [|apply step_acquire]).
    apply reachable_init. }
  destruct (C6_gate_capacity_fifo 2 crowded H2 Hr) as (Hcap & Hfifo & _).
  split; [exact Hcap|]. apply (Hfifo "c" []). reflexivity.
Defined.

End SemaphoreFacts.

(** * Properties of the batch operations *)

Module BatchFacts.

Import Batch.

Lemma array_set_lookup_eq {A : Type} (a : list (option A)) i v :
  array_set a i v !! i = Some (Some v).
Proof.
  revert a. induction i as [|i IH]; intros [|x a]; simpl; auto.
Qed.

Lemma array_set_lookup_ne {A : Type} (a : list (option A)) i j v x :
  i ≠ j → a !! j = Some x → array_set a i v !! j = Some x.
Proof.
  revert a j. induction i as [|i IH]; intros [|y a] [|j] Hne; simpl; try done.
  apply IH. lia.
Qed.

Lemma array_set_length {A : Type} (a : list (option A)) i v :
  length (array_set a i v) = max (length a) (S i).
Proof.
  revert a. induction i as [|i IH]; intros [|x a]; simpl; try done.
  - lia.
  - rewrite IH. simpl. lia.
  - by rewrite IH.
Qed.

Lemma filter_ne_absent (l : list nat) i :
  i ∉ l → filter (λ j, j ≠ i) l = l.
Proof.
  induction l as [|x l IH]; intros Hi; [done|].
  apply not_elem_of_cons in Hi as [Hne Hi].
  rewrite filter_cons_True by done. by rewrite IH.
Qed.

Lemma filter_ne_perm (l : list nat) i :
  NoDup l → i ∈ l → l ≡ₚ i :: filter (λ j, j ≠ i) l.
Proof.
  induction l as [|x l IH]; intros Hnd Hin.
  - by apply elem_of_nil in Hin.
  - apply NoDup_cons in Hnd as [Hx Hnd]. destruct (decide (x = i)) as [->|Hne].
    + rewrite filter_cons_False by (intros H; by apply H).
      by rewrite filter_ne_absent.
    + apply elem_of_cons in Hin as [->|Hin]; [done|].
      rewrite filter_cons_True by done. rewrite (IH Hnd Hin) at 1. apply Permutation_swap.
Qed.

Section Facts.

Context {Item Value Error : Type}.
Variable perform : Item → Value + Error.
Implicit Types (items : list Item) (s : State Value Error).

Lemma start_S N n : start N (S n) = spawn (start (Value := Value) (Error := Error) N n) n.
Proof. unfold start. rewrite seq_S, foldl_app. done. Qed.

(** When [map] has returned, the tasks are running or queued in index
    order and nothing has been stored. *)
Lemma start_shape N n s :
  s = start N n →
  running s ++ Semaphore.waitQueue (sem s) = seq 0 n ∧
  results s = [] ∧ settled s = 0%nat ∧ successCount s = 0 ∧ errorCount s = 0 ∧
  (Semaphore.waitQueue (sem s) ≠ [] → Semaphore.permits (sem s) ≤ 0) ∧
  (0 < N →
   0 ≤ Semaphore.permits (sem s) ∧
   Semaphore.permits (sem s) + Z.of_nat (length (running s)) = N).
Proof.
  intros ->. induction n as [|n IH].
  - unfold start. simpl. repeat split; (done || lia).
  - rewrite start_S, seq_S. destruct IH as (Hseq & Hres & Hset & Hsc & Hec & Hq & Hp).
    rewrite <- Hseq. set (s := start N n) in *. unfold spawn, Semaphore.acquire.
    destruct (Z.ltb_spec 0 (Semaphore.permits (sem s))) as [Hfree|Hnone]; cbn [fst snd].
    + assert (Semaphore.waitQueue (sem s) = []) as Hnil.
      { destruct (Semaphore.waitQueue (sem s)) eqn:E; [done|].
        assert (Semaphore.permits (sem s) ≤ 0) by (apply Hq; done). lia. }
      cbn [running sem results settled successCount errorCount
           Semaphore.waitQueue Semaphore.permits].
      rewrite Hnil, !app_nil_r. cbn [plus].
      repeat split; try done.
      * destruct (Hp H). lia.
      * destruct (Hp H). rewrite length_app. simpl. lia.
    + cbn [running sem results settled successCount errorCount
           Semaphore.waitQueue Semaphore.permits].
      rewrite app_assoc. cbn [plus]. repeat split; try done.
      * destruct (Hp H). lia.
      * destruct (Hp H). lia.
Qed.

Lemma batch_inv_start N items :
  batch_inv perform N items (start N (length items)) [].
Proof.
  destruct (start_shape N (length items) _ eq_refl)
    as (Hseq & Hres & Hset & Hsc & Hec & Hq & Hp).
  unfold batch_inv. simpl. rewrite Hseq, Hres, Hset, Hsc, Hec. simpl.
  split; [done|]. split; [intros i Hi; by apply elem_of_nil in Hi|].
  split; [lia|]. split; [done|]. split; [done|]. split; done.
Qed.

(** One settlement keeps the invariant and adds its index to the settled ones. *)
Lemma batch_inv_finish N items s completed i s' :
  batch_inv perform N items s completed →
  finish perform items s i = Some s' →
  batch_inv perform N items s' (i :: completed).
Proof.
  intros (Hperm & Hres & Hlen & Hset & Hcnt & Hq & Hp). unfold finish.
  case_bool_decide as Hrun; [|discriminate].
  destruct (items !! i) as [item|] eqn:Hitem; [|discriminate].
  intros [= <-]. unfold batch_inv. simpl.
  assert (NoDup (completed ++ running s ++ Semaphore.waitQueue (sem s))) as Hnd.
  { rewrite Hperm. apply NoDup_seq. }
  apply NoDup_app in Hnd as (Hnd_c & Hdisj & Hnd_rw).
  apply NoDup_app in Hnd_rw as (Hnd_r & Hdisj' & Hnd_w).
  assert (i ∉ completed) as Hfresh.
  { intros Hin. apply (Hdisj i Hin). apply elem_of_app. by left. }
  pose proof (filter_ne_perm (running s) i Hnd_r Hrun) as Hfilter.
  split; [|split; [|split; [|split; [|split; [|split]]]]].
  - rewrite <- Hperm. unfold Semaphore.release.
    destruct (Semaphore.waitQueue (sem s)) as [|w q]; simpl.
    + rewrite !app_nil_r. rewrite Hfilter at 2. by rewrite Permutation_middle.
    + rewrite Hfilter at 2. rewrite <- !app_assoc. simpl.
      rewrite <- !Permutation_middle. done.
  - intros j Hj. apply elem_of_cons in Hj as [->|Hj].
    + exists item. split; [done|]. apply array_set_lookup_eq.
    + destruct (Hres j Hj) as (item' & Hi' & Hr'). exists item'. split; [done|].
      apply array_set_lookup_ne; [|done]. intros ->. done.
  - rewrite array_set_length. apply lookup_lt_Some in Hitem. lia.
  - by rewrite Hset.
  - destruct (perform item); lia.
  - unfold Semaphore.release.
    destruct (Semaphore.waitQueue (sem s)) as [|w q] eqn:Hwq; simpl; [done|].
    intros _. assert (Semaphore.permits (sem s) ≤ 0) by (apply Hq; done). lia.
  - intros HN. destruct (Hp HN) as [Hp0 Hsum].
    assert (length (running s) = S (length (filter (λ j, j ≠ i) (running s)))) as Hl.
    { by rewrite Hfilter at 1. }
    unfold Semaphore.release.
    destruct (Semaphore.waitQueue (sem s)) as [|w q] eqn:Hwq; simpl.
    + rewrite app_nil_r. lia.
    + rewrite length_app. simpl. lia.
Qed.

Lemma batch_inv_play N items schedule s completed s' :
  batch_inv perform N items s completed →
  play perform items s schedule = Some s' →
  batch_inv perform N items s' (rev schedule ++ completed).
Proof.
  revert s completed. induction schedule as [|i schedule IH]; intros s completed Hinv; simpl.
  - by intros [= <-].
  - destruct (finish perform items s i) as [s1|] eqn:Hf; [|discriminate].
    intros Hplay. rewrite <- app_assoc. simpl.
    eapply IH; [|exact Hplay]. by eapply batch_inv_finish.
Qed.

(** Once every task has settled, each slot holds the outcome of its own item. *)
Lemma batch_inv_complete N items s completed :
  batch_inv perform N items s completed →
  settled s = length items →
  completed ≡ₚ seq 0 (length items) ∧
  results s = (λ item, Some (perform item)) <$> items ∧
  successCount s + errorCount s = Z.of_nat (length items).
Proof.
  intros (Hperm & Hres & Hlen & Hset & Hcnt & _) Hall.
  assert (running s ++ Semaphore.waitQueue (sem s) = []) as Hnil.
  { apply nil_length_inv. apply Permutation_length in Hperm.
    rewrite length_app, length_seq in Hperm. lia. }
  rewrite Hnil, app_nil_r in Hperm. split; [done|]. split; [|lia].
  apply list_eq. intros i. rewrite list_lookup_fmap.
  destruct (items !! i) as [item|] eqn:Hitem; simpl.
  - destruct (Hres i) as (item' & Hi' & Hr').
    { rewrite Hperm. apply elem_of_seq. apply lookup_lt_Some in Hitem. lia. }
    congruence.
  - apply lookup_ge_None. apply lookup_ge_None in Hitem. lia.
Qed.

Lemma batch_spec N items schedule resp :
  batch perform N items schedule = Some resp →
  schedule ≡ₚ seq 0 (length items) ∧
  r_results resp = (λ item, Some (perform item)) <$> items ∧
  length (r_results resp) = length items ∧
  r_successCount resp + r_errorCount resp = Z.of_nat (length items).
Proof.
  unfold batch.
  destruct (play perform items (start N (length items)) schedule) as [s|] eqn:Hplay;
    [|discriminate].
  case_bool_decide as Hall; [|discriminate]. intros [= <-]. simpl.
  pose proof (batch_inv_play N items schedule _ [] s (batch_inv_start N items) Hplay) as Hinv.
  rewrite app_nil_r in Hinv.
  destruct (batch_inv_complete N items s _ Hinv Hall) as (Hperm & Hres & Hcnt).
  split; [rewrite <- Hperm; apply Permutation_rev|]. split; [done|]. split; [|done].
  by rewrite Hres, length_fmap.
Qed.

(** With a positive gate the batch cannot get stuck: while a task is
    unsettled some task is running, and any running task may settle. *)
Lemma batch_progress N items schedule s :
  0 < N →
  play perform items (start N (length items)) schedule = Some s →
  (settled s = length schedule) ∧
  ((settled s < length items)%nat →
   ∃ i, i ∈ running s ∧ is_Some (finish perform items s i)) ∧
  (settled s = length items →
   is_Some (batch perform N items schedule)).
Proof.
  intros HN Hplay.
  pose proof (batch_inv_play N items schedule _ [] s (batch_inv_start N items) Hplay) as Hinv.
  rewrite app_nil_r in Hinv. pose proof Hinv as (Hperm & _ & _ & Hset & _ & Hq & Hp).
  split; [by rewrite Hset, length_rev|]. split.
  - intros Hlt. destruct (running s) as [|i r] eqn:Hrun.
    + exfalso. destruct (Hp HN) as [_ Hsum]. simpl in Hsum.
      assert (Semaphore.waitQueue (sem s) = []) as Hnil.
      { destruct (Semaphore.waitQueue (sem s)) eqn:E; [done|].
        assert (Semaphore.permits (sem s) ≤ 0) by (apply Hq; done). lia. }
      rewrite Hnil in Hperm. simpl in Hperm. rewrite app_nil_r in Hperm.
      apply Permutation_length in Hperm. rewrite length_seq in Hperm. lia.
    + assert (i ∈ running s) as Hin by (rewrite Hrun; left).
      exists i. split; [left|]. unfold finish.
      rewrite bool_decide_eq_true_2 by done.
      assert (i < length items)%nat as Hi.
      { apply (elem_of_seq 0). rewrite <- Hperm.
        rewrite !elem_of_app. right. left. left. }
      destruct (lookup_lt_is_Some_2 items i Hi) as [item ->]. eauto.
  - intros Hall. unfold batch. rewrite Hplay. rewrite bool_decide_eq_true_2 by done. eauto.
Qed.

Lemma start_nonpositive N n :
  N ≤ 0 →
  running (start (Value := Value) (Error := Error) N n) = [] ∧
  settled (start (Value := Value) (Error := Error) N n) = 0%nat ∧
  Semaphore.permits (sem (start (Value := Value) (Error := Error) N n)) = N.
Proof.
  intros HN. induction n as [|n IH]; [done|].
  rewrite start_S. destruct IH as (Hrun & Hset & Hp).
  unfold spawn, Semaphore.acquire. rewrite Hp.
  destruct (Z.ltb_spec 0 N); [lia|]. simpl. done.
Qed.


(** Behind a gate without permits no task of a non-empty batch ever
    runs, so no order of settlement lets the batch return. *)
Lemma batch_stuck N items schedule :
  N ≤ 0 → items ≠ [] → batch perform N items schedule = None.
Proof.
  intros HN Hne. unfold batch.
  destruct (start_nonpositive N (length items) HN) as (Hrun & Hset & _).
  destruct schedule as [|i schedule]; simpl.
  - rewrite Hset. rewrite bool_decide_eq_false_2; [done|].
    destruct items; [done | simpl; lia].
  - unfold finish. rewrite Hrun.
    by rewrite bool_decide_eq_false_2 by apply not_elem_of_nil.
Qed.

Lemma play_app items s schedule rest :
  play perform items s (schedule ++ rest)
  = play perform items s schedule ≫= λ s', play perform items s' rest.
Proof.
  revert s. induction schedule as [|i schedule IH]; intros s; [done|].
  simpl. destruct (finish perform items s i) as [s1|]; [apply IH | done].
Qed.

Lemma finish_settled items s i s' :
  finish perform items s i = Some s' → settled s' = S (settled s).
Proof.
  unfold finish. case_bool_decide; [|discriminate].
  destruct (items !! i); [|discriminate]. by intros [= <-].
Qed.

Lemma play_settled_le N items schedule s :
  play perform items (start N (length items)) schedule = Some s →
  (settled s ≤ length items)%nat.
Proof.
  intros Hplay.
  pose proof (batch_inv_play N items schedule _ [] s (batch_inv_start N items) Hplay)
    as (Hperm & _ & _ & Hset & _).
  apply Permutation_length in Hperm. rewrite !length_app, length_seq in Hperm.
  rewrite length_app in Hset. lia.
Qed.

(** With a positive gate, however far a batch has got, the tasks that are
    left can settle, and the batch then returns the outcomes in input
    order. *)
Lemma batch_completes N items prefix s :
  0 < N →
  play perform items (start N (length items)) prefix = Some s →
  ∃ rest resp,
    batch perform N items (prefix ++ rest) = Some resp ∧
    r_results resp = (λ item, Some (perform item)) <$> items ∧
    r_successCount resp + r_errorCount resp = Z.of_nat (length items).
Proof.
  intros HN.
  assert (∀ n prefix s,
            play perform items (start N (length items)) prefix = Some s →
            (length items - settled s = n)%nat →
            ∃ rest, is_Some (batch perform N items (prefix ++ rest))) as Hrun.
  { clear prefix s. induction n as [|n IH]; intros prefix s Hplay Hn.
    - destruct (batch_progress N items prefix s HN Hplay) as (_ & _ & Hdone).
      pose proof (play_settled_le N items prefix s Hplay) as Hle.
      exists []. rewrite app_nil_r. apply Hdone. lia.
    - destruct (batch_progress N items prefix s HN Hplay) as (_ & Hstep & _).
      destruct Hstep as (i & _ & [s' Hf]); [lia|].
      assert (play perform items (start N (length items)) (prefix ++ [i]) = Some s')
        as Hplay' by (rewrite play_app, Hplay; simpl; by rewrite Hf).
      destruct (IH (prefix ++ [i]) s' Hplay') as [rest Hrest].
      { apply finish_settled in Hf. lia. }
      exists (i :: rest). by rewrite <- app_assoc in Hrest. }
  intros Hplay. destruct (Hrun _ prefix s Hplay eq_refl) as [rest [resp Hresp]].
  exists rest, resp. split; [done|].
  apply batch_spec in Hresp as (_ & Hres & _ & Hcnt). done.
Qed.

Lemma maxSockets_gate maxSockets : 0 ≤ maxSockets → 0 < number_or (Some maxSockets) 10.
Proof.
  intros H. simpl. destruct (Z.eqb_spec maxSockets 0); simpl; lia.
Qed.


End Facts.



End BatchFacts.

(** * Properties of [Map<Platform, V>] *)

Module PlatformMapFacts.

Import PlatformMap.

Section Facts.

Context {V : Type}.
Implicit Types (m : PlatformMap.t V) (p q : Platform) (v : V).

Lemma lookup_new p : (∅ : PlatformMap.t V) !! p = None.
Proof. reflexivity. Qed.

Lemma find_put_eq p v (l : list (Platform * V)) : find p (put p v l) = Some v.
Proof.
  induction l as [|[p' v'] l IH]; simpl.
  - by rewrite bool_decide_eq_true_2.
  - case_bool_decide as Hp; simpl.
    + by rewrite bool_decide_eq_true_2.
    + by rewrite bool_decide_eq_false_2.
Qed.

Lemma find_put_ne p q v (l : list (Platform * V)) :
  p ≠ q → find q (put p v l) = find q l.
Proof.
  intros Hne. induction l as [|[p' v'] l IH]; simpl.
  - by rewrite bool_decide_eq_false_2.
  - case_bool_decide as Hp; simpl.
    + subst p'. by rewrite !bool_decide_eq_false_2.
    + by rewrite IH.
Qed.

Lemma lookup_set_eq p v m : <[p := v]> m !! p = Some v.
Proof. apply find_put_eq. Qed.

Lemma lookup_set_ne p q v m : p ≠ q → <[p := v]> m !! q = m !! q.
Proof. apply find_put_ne. Qed.

Lemma lookup_map {B : Type} (f : V → B) m p : (f <$> m) !! p = f <$> m !! p.
Proof.
  destruct m as [l]. unfold fmap at 1, platform_map_fmap, PlatformMap.map.
  unfold lookup, platform_map_lookup, get. simpl.
  induction l as [|[p' v'] l IH]; [done|]. simpl.
  case_bool_decide; [done | apply IH].
Qed.

(** The keys are the platforms that have a binding. *)
Lemma elem_of_keys m p : p ∈ keys m ↔ is_Some (m !! p).
Proof.
  destruct m as [l]. unfold keys, lookup, platform_map_lookup, get. simpl.
  induction l as [|[p' v'] l IH]; simpl.
  - split; [intros H; by apply elem_of_nil in H | intros [? ?]; discriminate].
  - rewrite elem_of_cons. case_bool_decide as Hp.
    + split; [eauto | by left].
    + rewrite IH. split; [intros [?|?]; [congruence | done] | by right].
Qed.

Lemma keys_size m : length (keys m) = size m.
Proof. unfold keys, size. by rewrite length_fmap. Qed.

End Facts.

End PlatformMapFacts.

(** * Properties of the cross-platform search *)

Module AdapterManagerFacts.

Import AdapterManager PlatformMapFacts.

Section Facts.

Context {Query Result Error : Type}.
Implicit Types (adapters : PlatformMap.t (PlatformAdapter Query Result Error))
               (results : PlatformMap.t (Result + Error))
               (targets : list Platform) (p : Platform).

(** A settled task only writes the entry of its own platform. *)
Lemma settle_other adapters query results p p' :
  p ≠ p' → settle adapters query results p !! p' = results !! p'.
Proof.
  intros Hne. unfold settle, getAdapter. destruct (adapters !! p); [|done].
  by rewrite lookup_set_ne.
Qed.

Lemma settle_self adapters query results p :
  settle adapters query results p !! p
  = match adapters !! p with
    | Some adapter => Some (search adapter query)
    | None => results !! p
    end.
Proof.
  unfold settle, getAdapter. destruct (adapters !! p); [|done].
  by rewrite lookup_set_eq.
Qed.

Lemma play_unavailable adapters query targets results schedule p :
  adapters !! p = None →
  play adapters query targets results schedule !! p = results !! p.
Proof.
  intros Hp. revert results. induction schedule as [|i schedule IH]; intros results; [done|].
  simpl. destruct (targets !! i) as [p'|]; [|apply IH]. rewrite IH.
  destruct (decide (p' = p)) as [->|Hne].
  - by rewrite settle_self, Hp.
  - by apply settle_other.
Qed.

Lemma play_unscheduled adapters query targets results schedule p :
  (∀ i, i ∈ schedule → targets !! i ≠ Some p) →
  play adapters query targets results schedule !! p = results !! p.
Proof.
  revert results. induction schedule as [|i schedule IH]; intros results Hp; [done|].
  simpl. assert (∀ j, j ∈ schedule → targets !! j ≠ Some p) as Hp'.
  { intros j Hj. apply Hp. by right. }
  destruct (targets !! i) as [p'|] eqn:Hi; [|by apply IH]. rewrite IH by done.
  apply settle_other. intros ->. by apply (Hp i); [left|].
Qed.

Lemma play_available adapters query targets results schedule p adapter :
  adapters !! p = Some adapter →
  results !! p = Some (search adapter query) ∨
    (∃ i, i ∈ schedule ∧ targets !! i = Some p) →
  play adapters query targets results schedule !! p = Some (search adapter query).
Proof.
  intros Hp. revert results. induction schedule as [|i schedule IH]; intros results Hor.
  - destruct Hor as [?|(i & Hi & _)]; [done | by apply elem_of_nil in Hi].
  - simpl. destruct (targets !! i) as [p'|] eqn:Hi.
    + apply IH. destruct (decide (p' = p)) as [->|Hne].
      * left. by rewrite settle_self, Hp.
      * rewrite settle_other by done.
        destruct Hor as [?|(j & Hj & Hjp)]; [by left|]. right.
        apply elem_of_cons in Hj as [->|Hj]; [congruence | eauto].
    + apply IH. destruct Hor as [?|(j & Hj & Hjp)]; [by left|]. right.
      apply elem_of_cons in Hj as [->|Hj]; [congruence | eauto].
Qed.

(** Once every task of the target list has settled, the map binds
    exactly the targets that have an adapter, each to its own outcome. *)
Lemma play_complete adapters query targets schedule p :
  schedule ≡ₚ seq 0 (length targets) →
  play adapters query targets ∅ schedule !! p
  = if bool_decide (p ∈ targets)
    then (λ adapter, search adapter query) <$> adapters !! p
    else None.
Proof.
  intros Hperm. case_bool_decide as Hin.
  - destruct (adapters !! p) as [adapter|] eqn:Hp; simpl.
    + apply play_available; [done|]. right.
      apply list_elem_of_lookup in Hin as [i Hi]. exists i. split; [|done].
      rewrite Hperm. apply elem_of_seq. apply lookup_lt_Some in Hi. lia.
    + by rewrite play_unavailable.
  - rewrite play_unscheduled; [done|].
    intros i _ Hi. apply Hin. apply list_elem_of_lookup. eauto.
Qed.

(** C8:
    whatever the order in which the platforms answer, [searchAll] returns
    a map (it has no failing outcome).  Called with a list of platforms,
    the map binds every listed platform that has an adapter to that
    adapter's own outcome, its result or the error it threw, and nothing
    else; called without a list, it binds every registered platform to
    its adapter's own outcome.  No entry depends on what another
    platform's search did. *)
Theorem C8_searchAll_isolates_failures adapters query :
  (∀ platforms schedule p,
     schedule ≡ₚ seq 0 (length platforms) →
     searchAll adapters query (Some platforms) schedule !! p
     = if bool_decide (p ∈ platforms)
       then (λ adapter, search adapter query) <$> adapters !! p
       else None) ∧
  (∀ schedule p,
     schedule ≡ₚ seq 0 (PlatformMap.size adapters) →
     searchAll adapters query None schedule !! p
     = (λ adapter, search adapter query) <$> adapters !! p).
Proof.
  split.
  - intros platforms schedule p Hperm. unfold searchAll. simpl.
    by apply play_complete.
  - intros schedule p Hperm. unfold searchAll. simpl. unfold getAvailablePlatforms.
    rewrite play_complete by by rewrite keys_size.
    case_bool_decide as Hin; [done|].
    destruct (adapters !! p) as [adapter|] eqn:Hp; [|done].
    exfalso. apply Hin. apply elem_of_keys. by rewrite Hp.
Qed.

End Facts.

Lemma C8_searchAll_isolates_failures_witness :
  (let r := searchAll sample_adapters "hello" (Some [NETEASE; QQ; KUWO]) [2; 0; 1]%nat in
   r !! NETEASE = Some (inl "netease:hello") ∧
   r !! QQ = Some (inr "qq is down") ∧
   r !! KUGOU = None ∧
   r !! KUWO = None) ∧
  (let r := searchAll sample_adapters "hello" None [1; 2; 0]%nat in
   r !! NETEASE = Some (inl "netease:hello") ∧
   r !! QQ = Some (inr "qq is down") ∧
   r !! KUGOU = Some (inl "kugou:hello") ∧
   r !! KUWO = None).
Proof.
  destruct (C8_searchAll_isolates_failures sample_adapters "hello") as [Hlist Hall].
  assert ([2; 0; 1]%nat ≡ₚ seq 0 (length [NETEASE; QQ; KUWO])) as Hp1.
  { refine (bool_decide_unpack _ _). vm_compute. exact I. }
  assert ([1; 2; 0]%nat ≡ₚ seq 0 (PlatformMap.size sample_adapters)) as Hp2.
  { refine (bool_decide_unpack _ _). vm_compute. exact I. }
  split; cbv zeta.
  - split; [|split; [|split]]; rewrite (Hlist _ _ _ Hp1); reflexivity.
  - split; [|split; [|split]]; rewrite (Hall _ _ Hp2); reflexivity.
Defined.

End AdapterManagerFacts.

(** * Error rates *)

Module ErrorRateFacts.

Import HttpClient.

(** [requestCount] never decreases, for the client and for the manager. *)
Lemma client_request_requestCount {Data : Type} c (reply : Reply Data) :
  requestCount c ≤ requestCount (client_request c reply).1.
Proof.
  destruct reply as [d s n|e s n]; simpl; unfold updateMetrics, onRejected;
    destruct (truthy_number s); simpl; lia.
Qed.

Lemma request_requestCount {Data : Type} config (endpoint : Z → Reply Data) c r :
  request config endpoint c = Some r → requestCount c ≤ requestCount (counters r).
Proof.
  intros Hr. apply HttpClientFacts.requestWithRetry_counters in Hr as (Hrc & _).
  rewrite Hrc. unfold count_fulfilled. lia.
Qed.

Lemma updateMetrics_requestCount m operation responseTime success :
  Metrics.requestCount (Metrics.updateMetrics m operation responseTime success)
  = Metrics.requestCount m + 1.
Proof. unfold Metrics.updateMetrics. by destruct success. Qed.

(** C1 (the code at the failing inputs):
    a call whose first two attempts fail and whose third succeeds leaves
    the client with [errorRate = 2], and two failed operations in a row
    leave the manager with [errorRate = 3/2]: neither lies in [0,1]. *)
Theorem C1_errorRate_exceeds_one :
  (∃ r, request config3 fails_twice initial = Some r ∧
        requestCount (counters r) = 1 ∧ errorCount (counters r) = 2 ∧
        (errorRate (counters r) == 2)%Q ∧ ¬ (errorRate (counters r) <= 1)%Q) ∧
  (Metrics.errorRate
     (Metrics.updateAll (Metrics.initializeMetrics 0) Metrics.two_failures) == 3 # 2)%Q ∧
  ¬ (Metrics.errorRate
       (Metrics.updateAll (Metrics.initializeMetrics 0) Metrics.two_failures) <= 1)%Q.
Proof.
  split; [|split].
  - eexists. split; [apply HttpClientFacts.fails_twice_run|]. simpl.
    split; [done|]. split; [done|]. split; [reflexivity|].
    intros H. vm_compute in H. by apply H.
  - reflexivity.
  - intros H. vm_compute in H. by apply H.
Qed.

End ErrorRateFacts.

(** * Further properties of HttpClient *)

Module HttpClientMore.

Import HttpClient HttpClientDelay HttpClientFacts.

Section Facts.

Context {Data : Type}.

Lemma count_total (t : list (Reply Data)) :
  count_rejected t + count_fulfilled t = Z.of_nat (length t).
Proof.
  induction t as [|r t IH].
  - reflexivity.
  - rewrite count_rejected_cons, count_fulfilled_cons. simpl length.
    destruct (is_rejected r); lia.
Qed.

(** A failed call: its error is built from the rejection of its last
    attempt, which [shouldRetry] declined to retry. *)
Lemma requestWithRetry_failed fuel config (endpoint : Z → Reply Data) k c r err :
  requestWithRetry fuel config endpoint k c = Some r →
  outcome r = inr err →
  ∃ e s n, last (trace r) = Some (Rejected e s n) ∧
    err = createApiError config e ∧
    shouldRetry config e (k + Z.of_nat (attempts r) - 1) = false.
Proof.
  revert k c r. induction fuel as [|fuel IH]; intros k c r; [discriminate|].
  simpl. destruct (endpoint k) as [d s n|e s n] eqn:Hk; simpl.
  - intros [= <-]. simpl. discriminate.
  - destruct (shouldRetry config e k) eqn:Hr.
    + destruct (requestWithRetry fuel config endpoint (k + 1) (onRejected c s n))
        as [r'|] eqn:Hrec; [|discriminate].
      intros [= <-]. simpl. intros Ho.
      destruct (IH _ _ _ Hrec Ho) as (e' & s' & n' & Hlast & Herr & Hno).
      exists e', s', n'. split; [|split; [done|]].
      * destruct (trace r') as [|x t] eqn:Ht; [discriminate|].
        rewrite last_cons, Hlast. done.
      * unfold attempts in *. simpl length. rewrite <- Hno. f_equal. lia.
    + intros [= <-]. simpl. intros [= <-]. exists e, s, n.
      split; [done|]. split; [done|]. unfold attempts. simpl length.
      rewrite <- Hr. f_equal. lia.
Qed.

Lemma request_attempts config (endpoint : Z → Reply Data) c :
  ∃ r, request config endpoint c = Some r ∧
    (1 ≤ attempts r)%nat ∧
    Z.of_nat (attempts r) ≤ Z.max 0 (retries config) + 1.
Proof.
  destruct (request_policy config endpoint c) as (r & Hr & _ & Hpos & Hall).
  exists r. split; [done|]. split; [lia|].
  destruct (decide (attempts r = 1%nat)) as [->|Hne]; [lia|].
  pose proof (Hall (attempts r - 2)%nat ltac:(lia)) as [H _].
  destruct H as (e & s & n & _ & Hlt & _); [lia|]. lia.
Qed.

(** X1: a call always returns, after at least one and at most
    [retries + 1] attempts, whatever the endpoint answers; with
    [retries <= 0] it makes exactly one attempt. *)
Theorem attempts_bounded config (endpoint : Z → Reply Data) c :
  ∃ r, request config endpoint c = Some r ∧
    (1 ≤ attempts r)%nat ∧
    Z.of_nat (attempts r) ≤ Z.max 0 (retries config) + 1 ∧
    (retries config ≤ 0 → attempts r = 1%nat).
Proof.
  destruct (request_policy config endpoint c) as (r & Hr & _ & Hpos & Hall).
  exists r. split; [done|]. split; [lia|].
  assert (Z.of_nat (attempts r) ≤ Z.max 0 (retries config) + 1) as Hle.
  { destruct (decide (attempts r = 1%nat)) as [->|Hne]; [lia|].
    pose proof (Hall (attempts r - 2)%nat ltac:(lia)) as [H _].
    destruct H as (e & s & n & _ & Hlt & _); [lia|]. lia. }
  split; [exact Hle|]. lia.
Qed.

(** X2: if the first [k] attempts fail in a retryable way while retries remain
    and attempt [k] is answered, the call returns that answer after
    exactly [k + 1] attempts, having counted [k] errors and one request. *)
Theorem eventual_success config (endpoint : Z → Reply Data) c (k : nat) d s n :
  (∀ i, (i < k)%nat →
     ∃ e s n, endpoint (Z.of_nat i) = Rejected e s n ∧
              retry_condition config e (Z.of_nat i)) →
  endpoint (Z.of_nat k) = Fulfilled d s n →
  ∃ r, request config endpoint c = Some r ∧
    outcome r = inl d ∧ attempts r = S k ∧
    errorCount (counters r) = errorCount c + Z.of_nat k ∧
    requestCount (counters r) = requestCount c + 1.
Proof.
  intros Hfail Hok.
  destruct (request_policy config endpoint c) as (r & Hr & Ht & Hpos & Hall).
  exists r. split; [done|].
  assert (attempts r = S k) as Hn.
  { destruct (decide (attempts r ≤ k)%nat) as [Hle|Hgt].
    - pose proof (Hall (attempts r - 1)%nat ltac:(lia)) as [_ H].
      specialize (H (Hfail (attempts r - 1)%nat ltac:(lia))). lia.
    - destruct (decide (attempts r = S k)) as [|Hne]; [done|].
      pose proof (Hall k ltac:(lia)) as [H _].
      destruct H as (e & s' & n' & He & _); [lia|]. congruence. }
  assert (outcome r = inl d) as Ho.
  { destruct (outcome r) as [d'|err] eqn:Ho.
    - destruct (requestWithRetry_fulfilled _ _ _ _ _ _ _ Hr Ho) as (i & s' & n' & Hi & He).
      rewrite Z.add_0_l in He. destruct (decide (i = k)) as [->|Hne]; [congruence|].
      destruct (Hfail i ltac:(lia)) as (e & s'' & n'' & He' & _). congruence.
    - destruct (requestWithRetry_failed _ _ _ _ _ _ _ Hr Ho) as (e & s' & n' & Hlast & _).
      rewrite Ht, Hn in Hlast. unfold replies in Hlast.
      rewrite seq_S, map_app in Hlast. simpl in Hlast. rewrite last_snoc in Hlast.
      congruence. }
  split; [done|]. split; [done|].
  pose proof (requestWithRetry_outcome _ _ _ _ _ _ Hr) as Hcf. rewrite Ho in Hcf.
  destruct (requestWithRetry_counters _ _ _ _ _ _ Hr) as (Hrc & Hec & _).
  pose proof (count_total (trace r)) as Htot. unfold attempts in Hn. lia.
Qed.

(** X3: the error a failed call throws carries the status of the last
    rejection and [retryable = shouldRetry(lastError, 0)]; when the flag
    is set the call has used all its retries, i.e. made [retries + 1]
    attempts, and when it is clear although retries were configured the
    last failure was not of a retryable kind. *)
Theorem failure_flag config (endpoint : Z → Reply Data) c :
  ∃ r, request config endpoint c = Some r ∧
    ∀ err, outcome r = inr err →
      ∃ e, last_error r = Some e ∧
        api_status err = status e ∧
        retryable err = shouldRetry config e 0 ∧
        (retryable err = true → Z.of_nat (attempts r) = retries config + 1) ∧
        (retryable err = false → 0 < retries config → ¬ retryable_kind e).
Proof.
  destruct (request_attempts config endpoint c) as (r & Hr & Hpos & Hle).
  exists r. split; [done|]. intros err Ho.
  destruct (requestWithRetry_failed _ _ _ _ _ _ _ Hr Ho) as (e & s & n & Hlast & -> & Hno).
  exists e. unfold last_error. rewrite Hlast. split; [done|]. split; [done|].
  split; [done|]. simpl. split.
  - intros Hflag. apply shouldRetry_spec in Hflag as [H0 Hkind].
    destruct (Z.le_gt_cases (retries config) (0 + Z.of_nat (attempts r) - 1)) as [?|Hlt]; [lia|].
    assert (shouldRetry config e (0 + Z.of_nat (attempts r) - 1) = true) as Hyes.
    { apply shouldRetry_spec. split; [lia | done]. }
    congruence.
  - intros Hflag H0 Hkind.
    assert (shouldRetry config e 0 = true) as Hyes.
    { apply shouldRetry_spec. split; [lia | done]. }
    congruence.
Qed.

(** X4: failed attempts never reach [requestCount]: a fresh client whose call
    fails reports [requestCount = 0] and [errorRate = 0], although
    [errorCount] counts every attempt. *)
Theorem failed_call_rate_zero config (endpoint : Z → Reply Data) :
  ∃ r, request config endpoint initial = Some r ∧
    ∀ err, outcome r = inr err →
      requestCount (counters r) = 0 ∧
      errorCount (counters r) = Z.of_nat (attempts r) ∧
      errorRate (counters r) = 0%Q.
Proof.
  destruct (request_total config endpoint initial) as [r Hr].
  exists r. split; [done|]. intros err Ho.
  pose proof (requestWithRetry_outcome _ _ _ _ _ _ Hr) as Hcf. rewrite Ho in Hcf.
  destruct (requestWithRetry_counters _ _ _ _ _ _ Hr) as (Hrc & Hec & _).
  pose proof (count_total (trace r)) as Htot. simpl in Hrc, Hec.
  assert (requestCount (counters r) = 0) as H0 by lia.
  split; [done|]. split; [unfold attempts; lia|].
  unfold errorRate. by rewrite H0.
Qed.

End Facts.

Lemma eventual_success_witness :
  ∃ r, request config3 fails_twice initial = Some r ∧
       outcome r = inl "ok" ∧ attempts r = 3%nat.
Proof.
  destruct (eventual_success config3 fails_twice initial 2 "ok" (Some 5000) 5030)
    as (r & Hr & Ho & Hn & _).
  - intros i Hi. destruct i as [|[|i]]; [| |lia].
    + eexists _, _, _. split; [reflexivity|]. split; [reflexivity|].
      right. exists 500. split; [reflexivity | lia].
    + eexists _, _, _. split; [reflexivity|]. split; [reflexivity|].
      right. exists 500. split; [reflexivity | lia].
  - reflexivity.
  - exists r. split; [exact Hr|]. split; [exact Ho | exact Hn].
Defined.

Lemma huge_large : (30000 < JSNumber.huge)%Q.
Proof. reflexivity. Qed.

Lemma range_finite q :
  (0 <= q)%Q → (q < JSNumber.huge)%Q → JSNumber.range q = JSNumber.Finite q.
Proof.
  intros H0 Hlt. pose proof huge_large as Hh. unfold JSNumber.range.
  destruct (Qle_bool JSNumber.huge q) eqn:E1.
  { apply Qle_bool_iff in E1. lra. }
  destruct (Qle_bool q (- JSNumber.huge)) eqn:E2; [|done].
  apply Qle_bool_iff in E2. lra.
Qed.

Lemma range_infinite q : (JSNumber.huge <= q)%Q → JSNumber.range q = JSNumber.Infinity.
Proof.
  intros H. unfold JSNumber.range. by rewrite (proj2 (Qle_bool_iff _ _) H).
Qed.

Lemma min_30000 q :
  ∃ d, JSNumber.min (JSNumber.Finite q) (JSNumber.Finite 30000) = JSNumber.Finite d ∧
       (d <= 30000)%Q ∧ (q <= 30000 → d == q)%Q ∧ (30000 <= q → d == 30000)%Q.
Proof.
  simpl. destruct (Qle_bool q 30000) eqn:E.
  - apply Qle_bool_iff in E. exists q. split; [done|]. repeat split; intros; lra.
  - assert (¬ (q <= 30000)%Q) as E' by (rewrite <- Qle_bool_iff; congruence).
    exists 30000%Q. split; [done|]. repeat split; intros; lra.
Qed.

(** The delay as a number: unless the base is 0 and the power overflows,
    it is the exact sum capped at 30000. *)
Lemma delay_value config k random :
  0 ≤ retryDelay config → 0 ≤ k → (0 <= random)%Q → (random < 1)%Q →
  0 < retryDelay config ∨ k < 1024 →
  ∃ d, calculateRetryDelay config k random = JSNumber.Finite d ∧
       (d <= 30000)%Q ∧
       (inject_Z (retryDelay config * 2 ^ k) + random * 1000 <= 30000 →
        d == inject_Z (retryDelay config * 2 ^ k) + random * 1000)%Q ∧
       (30000 <= inject_Z (retryDelay config * 2 ^ k) + random * 1000 → d == 30000)%Q.
Proof.
  intros Hbase Hk Hr0 Hr1 Hor. pose proof huge_large as Hh.
  unfold calculateRetryDelay.
  assert (JSNumber.mul (JSNumber.Finite random) (JSNumber.Finite 1000)
          = JSNumber.Finite (random * 1000)) as ->.
  { simpl. apply range_finite; lra. }
  assert (0 <= inject_Z (retryDelay config * 2 ^ k))%Q as He0.
  { change 0%Q with (inject_Z 0). rewrite <- Zle_Qle.
    apply Z.mul_nonneg_nonneg; [done|]. apply Z.pow_nonneg. lia. }
  set (e := inject_Z (retryDelay config * 2 ^ k)) in *.
  set (j := (random * 1000)%Q) in *.
  assert (∀ big, (JSNumber.huge <= e)%Q →
            JSNumber.min (JSNumber.add JSNumber.Infinity (JSNumber.Finite j))
              (JSNumber.Finite 30000) = big →
            ∃ d, big = JSNumber.Finite d ∧ (d <= 30000)%Q ∧
                 (e + j <= 30000 → d == e + j)%Q ∧ (30000 <= e + j → d == 30000)%Q)
    as Hinf.
  { intros big Hbig <-. exists 30000%Q. split; [done|].
    assert (0 <= j)%Q by (unfold j; lra). repeat split; intros; lra. }
  destruct (Z.leb_spec 1024 k) as [Hover|Hfit].
  - (* the power is an infinity, the base is positive *)
    assert (0 < retryDelay config) as Hpos by lia.
    unfold JSNumber.pow2. rewrite (proj2 (Z.leb_le 1024 k) Hover).
    assert (JSNumber.mul (JSNumber.Finite (inject_Z (retryDelay config))) JSNumber.Infinity
            = JSNumber.Infinity) as ->.
    { unfold JSNumber.mul, JSNumber.sign.
      assert ((inject_Z (retryDelay config) ?= 0)%Q = Gt) as ->; [|done].
      apply Qgt_alt. change 0%Q with (inject_Z 0). rewrite <- Zlt_Qlt. done. }
    apply Hinf; [|done]. unfold e, JSNumber.huge. rewrite <- Zle_Qle.
    transitivity (1 * 2 ^ k); [|apply Z.mul_le_mono_nonneg_r; [apply Z.pow_nonneg|]; lia].
    rewrite Z.mul_1_l. apply Z.pow_le_mono_r; lia.
  - unfold JSNumber.pow2. rewrite (proj2 (Z.leb_gt 1024 k) Hfit).
    rewrite (proj2 (Z.ltb_ge k (-1074))) by lia.
    rewrite (proj2 (Z.leb_le 0 k) Hk).
    change (JSNumber.mul (JSNumber.Finite (inject_Z (retryDelay config)))
              (JSNumber.Finite (inject_Z (2 ^ k))))
      with (JSNumber.range (inject_Z (retryDelay config) * inject_Z (2 ^ k))).
    rewrite <- inject_Z_mult. fold e.
    destruct (Qlt_le_dec e JSNumber.huge) as [Hsmall|Hbig].
    + rewrite range_finite by done.
      change (JSNumber.add (JSNumber.Finite e) (JSNumber.Finite j))
        with (JSNumber.range (e + j)).
      assert (0 <= j)%Q by (unfold j; lra).
      destruct (Qlt_le_dec (e + j) JSNumber.huge) as [Hsum|Hsum].
      * rewrite range_finite by lra. apply min_30000.
      * rewrite range_infinite by done. exists 30000%Q. split; [done|].
        repeat split; intros; lra.
    + rewrite range_infinite by done. by apply Hinf.
Qed.

(** X5: for a non-negative base delay and retry count and a draw in
    [0,1), the back-off delay is [NaN] exactly when the base delay is 0
    and the retry count is 1024 or more (zero times an infinity);
    otherwise it is a number of at most 30000 ms, at least the exponential
    part capped at 30000 ms, and it does not decrease with the retry
    count.  Finite values are taken exactly, without rounding. *)
Theorem retry_delay_bounds config (k k' : Z) (random : Q) :
  0 ≤ retryDelay config → 0 ≤ k → k ≤ k' →
  (0 <= random)%Q → (random < 1)%Q →
  (calculateRetryDelay config k random = JSNumber.NaN
   ↔ retryDelay config = 0 ∧ 1024 ≤ k) ∧
  (0 < retryDelay config ∨ k' < 1024 →
   ∃ d d', calculateRetryDelay config k random = JSNumber.Finite d ∧
     calculateRetryDelay config k' random = JSNumber.Finite d' ∧
     (d <= 30000)%Q ∧
     (inject_Z (retryDelay config * 2 ^ k) <= 30000 →
      inject_Z (retryDelay config * 2 ^ k) <= d)%Q ∧
     (30000 <= inject_Z (retryDelay config * 2 ^ k) → d == 30000)%Q ∧
     (d <= d')%Q).
Proof.
  intros Hbase Hk Hkk Hr0 Hr1.
  assert (0 <= random * 1000)%Q as Hj by lra.
  split.
  - split.
    + intros Hnan.
      destruct (decide (0 < retryDelay config ∨ k < 1024)) as [Hor|Hnot]; [|lia].
      destruct (delay_value config k random Hbase Hk Hr0 Hr1 Hor) as (d & Hd & _).
      congruence.
    + intros [Hzero Hover]. unfold calculateRetryDelay, JSNumber.pow2.
      rewrite Hzero, (proj2 (Z.leb_le 1024 k) Hover). reflexivity.
  - intros Hor.
    assert (0 < retryDelay config ∨ k < 1024) as Hor0 by lia.
    destruct (delay_value config k random Hbase Hk Hr0 Hr1 Hor0) as (d & Hd & Hcap & Hlow & Hhigh).
    destruct (delay_value config k' random Hbase ltac:(lia) Hr0 Hr1 Hor)
      as (d' & Hd' & Hcap' & Hlow' & Hhigh').
    exists d, d'. split; [done|]. split; [done|]. split; [done|].
    assert (inject_Z (retryDelay config * 2 ^ k)
            <= inject_Z (retryDelay config * 2 ^ k'))%Q as Hmono.
    { rewrite <- Zle_Qle. apply Z.mul_le_mono_nonneg_l; [done|].
      apply Z.pow_le_mono_r; lia. }
    set (e := inject_Z (retryDelay config * 2 ^ k)) in *.
    set (e' := inject_Z (retryDelay config * 2 ^ k')) in *.
    set (j := (random * 1000)%Q) in *.
    destruct (Qlt_le_dec (e + j) 30000) as [Hs|Hs];
      destruct (Qlt_le_dec (e' + j) 30000) as [Hs'|Hs'].
    + assert (d == e + j)%Q by (apply Hlow; lra).
      assert (d' == e' + j)%Q by (apply Hlow'; lra).
      repeat split; intros; lra.
    + assert (d == e + j)%Q by (apply Hlow; lra).
      assert (d' == 30000)%Q by (apply Hhigh'; lra).
      repeat split; intros; lra.
    + lra.
    + assert (d == 30000)%Q by (apply Hhigh; lra).
      assert (d' == 30000)%Q by (apply Hhigh'; lra).
      repeat split; intros; lra.
Qed.

Lemma retry_delay_bounds_witness :
  ∃ d d', calculateRetryDelay config3 2 (1 # 2) = JSNumber.Finite d ∧
          calculateRetryDelay config3 5 (1 # 2) = JSNumber.Finite d' ∧
          (d <= 30000)%Q ∧ (d <= d')%Q.
Proof.
  assert (0 ≤ retryDelay config3) as H0 by (simpl; lia).
  assert (0 ≤ 2) as H1 by lia.
  assert (2 ≤ 5) as H2 by lia.
  assert (0 <= 1 # 2)%Q as H3 by (unfold Qle; simpl; lia).
  assert (1 # 2 < 1)%Q as H4 by reflexivity.
  destruct (retry_delay_bounds config3 2 5 (1 # 2) H0 H1 H2 H3 H4) as [_ Hbounds].
  destruct Hbounds as (d & d' & Hd & Hd' & Hcap & _ & _ & Hmono); [right; lia|].
  exists d, d'. split; [exact Hd|]. split; [exact Hd'|]. split; [exact Hcap | exact Hmono].
Defined.

End HttpClientMore.

(** * Cache keys and error classification *)

Module AdapterKeysFacts.

Import HttpClient HttpClientFacts AdapterKeys.

(** X6: [isRetryableError] and [shouldRetry] agree on every failure except a
    name-resolution failure (ENOTFOUND), which only the client retries. *)
Theorem isRetryableError_vs_shouldRetry config e k :
  shouldRetry config e k = true ↔
  k < retries config ∧ (isRetryableError e = true ∨ code e = Some "ENOTFOUND").
Proof.
  unfold shouldRetry, isRetryableError, transient_code.
  rewrite <- (code_is_spec e "ENOTFOUND").
  destruct (Z.leb_spec (retries config) k) as [Hk|Hk].
  { split; [discriminate | intros [? _]; lia]. }
  destruct (code_is e "ECONNRESET" || code_is e "ETIMEDOUT" || code_is e "ECONNREFUSED");
    simpl.
  { split; [intros _; split; [lia | by left] | done]. }
  destruct (code_is e "ENOTFOUND"); simpl.
  { split; [intros _; split; [lia | by right] | done]. }
  destruct (status_ge e 500); [split; [intros _; split; [lia | by left] | done]|].
  destruct (status_is e 429); [split; [intros _; split; [lia | by left] | done]|].
  split; [discriminate | intros [_ [?|?]]; discriminate].
Qed.

Lemma colon_free_app_colon a b : colon_free (a +:+ (":" +:+ b)) = false.
Proof.
  assert (colon_free (":" +:+ b) = false) as Hc by reflexivity.
  revert Hc. generalize (":" +:+ b). intros c Hc.
  induction a as [|x a IH]; [done|].
  change (negb (Ascii.eqb x (Ascii.ascii_of_nat 58)) && colon_free (a +:+ c) = false).
  rewrite IH. apply andb_false_r.
Qed.

(** Splitting at the first separator is unambiguous. *)
Lemma app_colon_inj a a' b b' :
  colon_free a = true → colon_free a' = true →
  a +:+ (":" +:+ b) = a' +:+ (":" +:+ b') → a = a' ∧ b = b'.
Proof.
  revert a'. induction a as [|x a IH]; intros [|x' a'] Ha Ha' Heq.
  - change (String (Ascii.ascii_of_nat 58) b = String (Ascii.ascii_of_nat 58) b') in Heq.
    by injection Heq as ->.
  - change (String (Ascii.ascii_of_nat 58) b = String x' (a' +:+ (":" +:+ b'))) in Heq.
    injection Heq as <- _. simpl in Ha'. discriminate.
  - change (String x (a +:+ (":" +:+ b)) = String (Ascii.ascii_of_nat 58) b') in Heq.
    injection Heq as -> _. simpl in Ha. discriminate.
  - change (String x (a +:+ (":" +:+ b)) = String x' (a' +:+ (":" +:+ b'))) in Heq.
    injection Heq as -> H. simpl in Ha, Ha'.
    apply andb_true_iff in Ha as [_ Ha]. apply andb_true_iff in Ha' as [_ Ha'].
    destruct (IH a' Ha Ha' H) as [-> ->]. done.
Qed.

Lemma concat_cons2 x y l :
  String.concat ":" (x :: y :: l) = x +:+ (":" +:+ String.concat ":" (y :: l)).
Proof. reflexivity. Qed.

Lemma concat_colon_free_inj (l l' : list string) :
  l ≠ [] → l' ≠ [] →
  Forall (λ s, colon_free s = true) l → Forall (λ s, colon_free s = true) l' →
  String.concat ":" l = String.concat ":" l' → l = l'.
Proof.
  revert l'. induction l as [|x l IH]; intros l' Hl Hl' Hf Hf' Heq; [done|].
  destruct l' as [|x' l']; [done|].
  apply Forall_cons in Hf as [Hx Hf]. apply Forall_cons in Hf' as [Hx' Hf'].
  destruct l as [|y l], l' as [|y' l'].
  - simpl in Heq. by subst.
  - rewrite concat_cons2 in Heq. change (String.concat ":" [x]) with x in Heq.
    subst x. by rewrite colon_free_app_colon in Hx.
  - rewrite concat_cons2 in Heq. change (String.concat ":" [x']) with x' in Heq.
    subst x'. by rewrite colon_free_app_colon in Hx'.
  - rewrite !concat_cons2 in Heq.
    destruct (app_colon_inj _ _ _ _ Hx Hx' Heq) as [-> Hrest].
    f_equal. by apply IH.
Qed.

Lemma platform_name_colon_free p : colon_free (platform_name p) = true.
Proof. by destruct p. Qed.

Lemma platform_name_inj p p' : platform_name p = platform_name p' → p = p'.
Proof. by destruct p, p'. Qed.

(** X7: cache keys built from components that do not contain a colon
    determine their components: two such keys are equal only if the
    platform, the type, the identifier and all parameters are equal. *)
Theorem generateCacheKey_injective p p' type type' identifier identifier' params params' :
  colon_free type = true → colon_free type' = true →
  colon_free identifier = true → colon_free identifier' = true →
  Forall (λ s, colon_free s = true) params →
  Forall (λ s, colon_free s = true) params' →
  generateCacheKey p type identifier params
  = generateCacheKey p' type' identifier' params' →
  p = p' ∧ type = type' ∧ identifier = identifier' ∧ params = params'.
Proof.
  intros Ht Ht' Hi Hi' Hp Hp' Heq. unfold generateCacheKey in Heq.
  apply concat_colon_free_inj in Heq; try done.
  - injection Heq as Hn -> -> ->. by apply platform_name_inj in Hn as ->.
  - repeat (apply Forall_cons; split; [done || apply platform_name_colon_free|]). done.
  - repeat (apply Forall_cons; split; [done || apply platform_name_colon_free|]). done.
Qed.

Lemma generateCacheKey_injective_witness :
  NETEASE = NETEASE ∧ "song" = "song" ∧ "1901371647" = "1901371647"
  ∧ ["standard"] = ["standard"].
Proof.
  apply (generateCacheKey_injective NETEASE NETEASE "song" "song"
           "1901371647" "1901371647" ["standard"] ["standard"]); try reflexivity.
  - apply Forall_cons. split; [reflexivity | apply Forall_nil_2].
  - apply Forall_cons. split; [reflexivity | apply Forall_nil_2].
Defined.

(** A colon in a component makes keys collide. *)
Lemma generateCacheKey_collision :
  generateCacheKey KUWO "search" "a:20" [] = generateCacheKey KUWO "search" "a" ["20"].
Proof. reflexivity. Qed.

(** X8: the keys [warmupCache] writes are never the keys [search] and
    [getSong] look up: for an item without a colon, the warmed key has two
    components after the platform, the looked-up keys at least three. *)
Theorem warmup_keys_never_read p p' item :
  colon_free item = true →
  (∀ keyword paging, paging ≠ [] → warmupSearchKey p item ≠ searchKey p' keyword paging) ∧
  (∀ songId quality, warmupSongKey p item ≠ songKey p' songId quality).
Proof.
  intros Hitem.
  assert (∀ type a rest, colon_free type = true → rest ≠ [] →
            generateCacheKey p type item [] ≠ generateCacheKey p' type a rest) as H.
  { intros type a rest Htype Hrest Heq. unfold generateCacheKey in Heq.
    destruct rest as [|b rest]; [done|].
    rewrite !concat_cons2 in Heq.
    apply app_colon_inj in Heq as [_ Heq]; try apply platform_name_colon_free.
    apply app_colon_inj in Heq as [_ Heq]; try done.
    change (String.concat ":" [item]) with item in Heq. rewrite Heq in Hitem.
    by rewrite colon_free_app_colon in Hitem. }
  split.
  - intros keyword paging Hp. by apply H.
  - intros songId quality. by apply H.
Qed.

Lemma warmup_keys_never_read_witness :
  warmupSearchKey KUWO "hello" ≠ searchKey KUWO "hello" ["20"] ∧
  warmupSongKey KUWO "12345" ≠ songKey KUWO "12345" "standard".
Proof.
  split.
  - assert (colon_free "hello" = true) as H by reflexivity.
    apply (proj1 (warmup_keys_never_read KUWO KUWO "hello" H)). discriminate.
  - assert (colon_free "12345" = true) as H by reflexivity.
    apply (proj2 (warmup_keys_never_read KUWO KUWO "12345" H)).
Defined.

End AdapterKeysFacts.

(** * Further properties of MemoryCache *)

Module MemoryCacheMore.

Import MemoryCache MemoryCacheApi JSMapFacts MemoryCacheFacts.

Section Facts.

Context {T : Type}.
Implicit Types (c : MemoryCache.t T) (k : string) (cfg : CacheConfig).

(** ** Statistics *)

Lemma get_counts k now c :
  (is_Some (get k now c).2 →
     hits (get k now c).1 = hits c + 1 ∧ misses (get k now c).1 = misses c) ∧
  ((get k now c).2 = None →
     hits (get k now c).1 = hits c ∧ misses (get k now c).1 = misses c + 1).
Proof.
  unfold get. destruct (JSMap.get k (cache c)) as [item|]; simpl.
  - destruct (isExpired now item); simpl.
    + split; [intros [? ?]; discriminate | done].
    + split; [done | discriminate].
  - split; [intros [? ?]; discriminate | done].
Qed.

Lemma set_stats cfg k v ttl' now c :
  hits (set cfg k v ttl' now c) = hits c ∧ misses (set cfg k v ttl' now c) = misses c.
Proof.
  unfold set, evictLeastUsed. destruct (maxSize cfg <=? JSMap.size (cache c)); [|done].
  destruct (lruKey (accessOrder c)) as [k'|]; [|done].
  by destruct (truthy_string (Some k')).
Qed.

Lemma sweep_stats ks c :
  hits (foldl (λ c k, (delete k c).1) c ks) = hits c ∧
  misses (foldl (λ c k, (delete k c).1) c ks) = misses c.
Proof.
  revert c. induction ks as [|k ks IH]; intros c; [done|].
  destruct (IH (delete k c).1) as [H1 H2]. split; [exact H1 | exact H2].
Qed.

Lemma gets_cons (op : Op T) ops :
  gets (op :: ops) = (if is_get op then 1 else 0) + gets ops.
Proof.
  unfold gets. destruct (is_get op) eqn:Hg.
  - rewrite filter_cons_True by done. simpl length. lia.
  - rewrite filter_cons_False by (rewrite Hg; done). lia.
Qed.

Lemma run_counts cfg ops c :
  hits (run cfg c ops) + misses (run cfg c ops) = hits c + misses c + gets ops ∧
  hits c ≤ hits (run cfg c ops) ∧ misses c ≤ misses (run cfg c ops).
Proof.
  revert c. induction ops as [|op ops IH]; intros c.
  - unfold gets. simpl. lia.
  - rewrite gets_cons. simpl. destruct (IH (apply cfg c op)) as (Hsum & Hh & Hm).
    destruct op as [k now|k v ttl' now|k]; unfold apply in *; simpl is_get.
    + destruct (get_counts k now c) as [Hhit Hmiss].
      destruct (get k now c).2 as [v|] eqn:Hr.
      * destruct Hhit as [H1 H2]; [eauto|]. lia.
      * destruct Hmiss as [H1 H2]; [done|]. lia.
    + destruct (set_stats cfg k v ttl' now c) as [H1 H2]. lia.
    + simpl in *. lia.
Qed.

(** X9: every [get] is counted exactly once, as a hit when it returns a value
    and as a miss otherwise, and nothing else is counted: after any
    sequence of operations on a new cache [hits + misses] is the number of
    [get] calls. *)
Theorem lookups_counted_once cfg ops k now :
  hits (run (T := T) cfg new ops) + misses (run (T := T) cfg new ops) = gets ops ∧
  (is_Some (get k now (run (T := T) cfg new ops)).2 →
     hits (get k now (run cfg new ops)).1 = hits (run cfg new ops) + 1 ∧
     misses (get k now (run cfg new ops)).1 = misses (run cfg new ops)) ∧
  ((get k now (run (T := T) cfg new ops)).2 = None →
     hits (get k now (run cfg new ops)).1 = hits (run cfg new ops) ∧
     misses (get k now (run cfg new ops)).1 = misses (run cfg new ops) + 1).
Proof.
  destruct (run_counts cfg ops (new (T := T))) as (Hsum & _ & _). simpl in Hsum.
  split; [lia|]. apply get_counts.
Qed.

Lemma exec_stats_nonneg cfg c (a : Action T) :
  0 ≤ hits c → 0 ≤ misses c → 0 ≤ hits (exec cfg c a) ∧ 0 ≤ misses (exec cfg c a).
Proof.
  intros Hh Hm. destruct a as [op| |now|]; simpl.
  - destruct (run_counts cfg [op] c) as (_ & H1 & H2). simpl in H1, H2. lia.
  - done.
  - unfold cleanupExpired. rewrite (proj1 (sweep_stats _ c)), (proj2 (sweep_stats _ c)). done.
  - done.
Qed.

Lemma execs_stats_nonneg cfg (actions : list (Action T)) c :
  0 ≤ hits c → 0 ≤ misses c →
  0 ≤ hits (execs cfg c actions) ∧ 0 ≤ misses (execs cfg c actions).
Proof.
  revert c. induction actions as [|a actions IH]; intros c Hh Hm; [done|].
  simpl. destruct (exec_stats_nonneg cfg c a Hh Hm). by apply IH.
Qed.

(** X10: in every state a cache can reach, by reads, writes, deletions,
    clearing, sweeping and resetting the statistics, the counters are
    non-negative and [hitRate] lies in [0,1]. *)
Theorem hitRate_in_unit_interval cfg (actions : list (Action T)) :
  0 ≤ hits (execs cfg new actions) ∧ 0 ≤ misses (execs cfg new actions) ∧
  (0 <= hitRate (execs cfg new actions))%Q ∧
  (hitRate (execs cfg new actions) <= 1)%Q.
Proof.
  destruct (execs_stats_nonneg cfg actions (new (T := T))) as [Hh Hm]; [done | done |].
  split; [done|]. split; [done|]. unfold hitRate.
  set (h := hits (execs cfg new actions)) in *.
  set (m := misses (execs cfg new actions)) in *.
  destruct (Z.ltb_spec 0 (h + m)) as [Hpos|Hzero]; [|split; lra].
  assert (0 < inject_Z (h + m))%Q as HposQ.
  { change 0%Q with (inject_Z 0). rewrite <- Zlt_Qlt. done. }
  assert (0 <= inject_Z h)%Q as HhQ.
  { change 0%Q with (inject_Z 0). rewrite <- Zle_Qle. done. }
  assert (inject_Z h <= inject_Z (h + m))%Q as Hle.
  { rewrite <- Zle_Qle. lia. }
  split.
  - apply Qle_shift_div_l; [done|]. lra.
  - apply Qle_shift_div_r; [done|]. lra.
Qed.

(** ** The representation invariant under the whole interface *)

Lemma WF_clear c : WF (clear c).
Proof.
  unfold WF, clear. simpl. split; [done|]. split; [apply NoDup_nil_2|].
  split; [apply Forall_nil_2 | apply NoDup_nil_2].
Qed.

Lemma WF_sweep_fold ks c : WF c → WF (foldl (λ c k, (delete k c).1) c ks).
Proof.
  revert c. induction ks as [|k ks IH]; intros c Hwf; [done|].
  simpl. apply IH. by apply WF_delete.
Qed.

Lemma WF_exec cfg c (a : Action T) : WF c → WF (exec cfg c a).
Proof.
  intros Hwf. destruct a as [op| |now|]; simpl.
  - by apply WF_apply.
  - apply WF_clear.
  - by apply WF_sweep_fold.
  - exact Hwf.
Qed.

Lemma WF_execs cfg (actions : list (Action T)) c : WF c → WF (execs cfg c actions).
Proof.
  revert c. induction actions as [|a actions IH]; intros c Hwf; [done|].
  simpl. apply IH. by apply WF_exec.
Qed.

(** X11: the entry map and the access-order index never diverge: in every
    reachable state they hold the same keys in the same order, each key
    once, so they have the same size, and a key has an access number
    exactly when it has an entry. *)
Theorem index_matches_store cfg (actions : list (Action T)) k :
  JSMap.keys (cache (execs cfg new actions))
  = JSMap.keys (accessOrder (execs cfg new actions)) ∧
  NoDup (JSMap.keys (cache (execs cfg new actions))) ∧
  JSMap.size (cache (execs cfg new actions))
  = JSMap.size (accessOrder (execs cfg new actions)) ∧
  (JSMap.has k (cache (execs cfg new actions))
   = JSMap.has k (accessOrder (execs cfg new actions))).
Proof.
  destruct (WF_execs cfg actions new WF_new) as (Hk & Hnd & _).
  split; [done|]. split; [done|]. split.
  - unfold JSMap.size. by rewrite <- !length_keys, Hk.
  - apply eq_true_iff_eq. by rewrite !has_keys, Hk.
Qed.

(** ** Round trips and frames *)

Lemma peek_unfold k now c :
  peek k now c = match JSMap.get k (cache c) with
                 | Some item => if isExpired now item then None else Some (value item)
                 | None => None
                 end.
Proof.
  unfold peek, get. destruct (JSMap.get k (cache c)) as [item|]; [|done].
  by destruct (isExpired now item).
Qed.

Lemma peek_set cfg k v ttl' t0 now c :
  peek k now (set cfg k v ttl' t0 c)
  = if number_or ttl' (ttl cfg) <? now - t0 then None else Some v.
Proof. rewrite peek_unfold, set_evicted, get_set_eq. reflexivity. Qed.

(** X12: a value written at [t0] is read back at [now] exactly when its
    ttl has not run out, the ttl being the one given or, when none or 0
    is given, the default of the cache; this holds whatever the cache
    held before, full or not. *)
Theorem set_get_roundtrip cfg k v ttl' t0 now c :
  (get k now (set cfg k v ttl' t0 c)).2
  = if number_or ttl' (ttl cfg) <? now - t0 then None else Some v.
Proof.
  change (get k now (set cfg k v ttl' t0 c)).2 with (peek k now (set cfg k v ttl' t0 c)).
  rewrite peek_unfold, set_evicted, get_set_eq. reflexivity.
Qed.

(** X13: [delete] reports whether the key was stored; afterwards the key is
    absent, and every other key reads as before. *)
Theorem delete_spec k c :
  WF c →
  ((delete k c).2 = true ↔ k ∈ JSMap.keys (cache c)) ∧
  (∀ now, (get k now (delete k c).1).2 = None ∧ has k now (delete k c).1 = false) ∧
  (∀ k' now, k' ≠ k → (get k' now (delete k c).1).2 = (get k' now c).2).
Proof.
  intros Hwf. split; [apply has_keys|]. split.
  - intros now. unfold get, has, delete. simpl.
    by rewrite get_delete_eq by apply Hwf.
  - intros k' now Hne.
    change ((get k' now (delete k c).1).2) with (peek k' now (delete k c).1).
    change ((get k' now c).2) with (peek k' now c).
    rewrite !peek_unfold. simpl. by rewrite get_delete_ne.
Qed.

(** X14: [has] answers what [get] would return, without touching the cache. *)
Theorem has_iff_get k now c :
  has k now c = true ↔ is_Some (get k now c).2.
Proof.
  change ((get k now c).2) with (peek k now c). rewrite peek_unfold. unfold has.
  destruct (JSMap.get k (cache c)) as [item|].
  - destruct (isExpired now item); simpl; split; eauto; try discriminate.
    intros [? ?]; discriminate.
  - split; [discriminate | intros [? ?]; discriminate].
Qed.

(** X15: a read of one key does not change what any other key reads, and a
    write changes at most two keys: the one written and the one evicted,
    which becomes absent. *)
Theorem reads_and_writes_are_local cfg k k' v ttl' t0 now now' c :
  k' ≠ k →
  (get k' now' (get k now c).1).2 = (get k' now' c).2 ∧
  (MemoryCache.evicted cfg c ≠ Some k' →
   (get k' now' (set cfg k v ttl' t0 c)).2 = (get k' now' c).2) ∧
  (WF c → MemoryCache.evicted cfg c = Some k' →
   (get k' now' (set cfg k v ttl' t0 c)).2 = None).
Proof.
  intros Hne.
  change (get k' now' (get k now c).1).2 with (peek k' now' (get k now c).1).
  change (get k' now' c).2 with (peek k' now' c).
  change (get k' now' (set cfg k v ttl' t0 c)).2 with (peek k' now' (set cfg k v ttl' t0 c)).
  rewrite !peek_unfold. split; [|split].
  - unfold get. destruct (JSMap.get k (cache c)) as [item|]; simpl; [|done].
    destruct (isExpired now item); simpl.
    + by rewrite get_delete_ne.
    + by rewrite get_set_ne.
  - intros Hev. rewrite set_evicted, get_set_ne by done.
    destruct (MemoryCache.evicted cfg c) as [victim|]; [|done].
    rewrite get_delete_ne; [done|]. congruence.
  - intros Hwf Hev. rewrite set_evicted, get_set_ne, Hev by done.
    by rewrite get_delete_eq by apply Hwf.
Qed.

(** X16: the entry count after a write.  With room, a new key adds one entry
    and a stored key none.  At capacity one entry is evicted first, even
    when the written key is already stored: unless that key is itself the
    least recently used one, the cache ends with one entry fewer. *)
Theorem set_size cfg k v ttl' now c :
  WF c →
  (MemoryCache.evicted cfg c = None → k ∉ JSMap.keys (cache c) →
   stats_size (set cfg k v ttl' now c) = stats_size c + 1) ∧
  (MemoryCache.evicted cfg c = None → k ∈ JSMap.keys (cache c) →
   stats_size (set cfg k v ttl' now c) = stats_size c) ∧
  (∀ victim, MemoryCache.evicted cfg c = Some victim → k ∉ JSMap.keys (cache c) →
   stats_size (set cfg k v ttl' now c) = stats_size c) ∧
  (∀ victim, MemoryCache.evicted cfg c = Some victim → victim ≠ k →
   k ∈ JSMap.keys (cache c) →
   stats_size (set cfg k v ttl' now c) = stats_size c - 1) ∧
  (MemoryCache.evicted cfg c = Some k →
   stats_size (set cfg k v ttl' now c) = stats_size c).
Proof.
  intros Hwf. unfold stats_size, JSMap.size. rewrite set_evicted, length_set.
  assert (∀ victim, MemoryCache.evicted cfg c = Some victim →
            length (JSMap.delete victim (cache c)) = pred (length (cache c)) ∧
            (0 < length (cache c))%nat) as Hdel.
  { intros victim Hev. apply (evicted_in_keys cfg c victim Hwf) in Hev.
    rewrite length_delete, (proj2 (has_keys victim (cache c)) Hev).
    split; [done|]. unfold JSMap.keys in Hev. destruct (cache c); [|simpl; lia].
    by apply elem_of_nil in Hev. }
  split; [|split; [|split; [|split]]].
  - intros -> Hk. destruct (JSMap.has k (cache c)) eqn:Hh; [|lia].
    by apply has_keys in Hh.
  - intros -> Hk. by rewrite (proj2 (has_keys k (cache c)) Hk).
  - intros victim Hev Hk. rewrite Hev. destruct (Hdel victim Hev) as [-> Hpos].
    destruct (JSMap.has k (JSMap.delete victim (cache c))) eqn:Hh; [|lia].
    apply has_keys in Hh. exfalso. apply Hk.
    eapply sublist_subseteq; [apply keys_delete_sublist | exact Hh].
  - intros victim Hev Hne Hk. rewrite Hev. destruct (Hdel victim Hev) as [-> Hpos].
    rewrite (proj2 (has_keys k (JSMap.delete victim (cache c)))); [lia|].
    apply elem_keys_delete; [apply Hwf | done].
  - intros Hev. rewrite Hev. destruct (Hdel k Hev) as [-> Hpos].
    destruct (JSMap.has k (JSMap.delete k (cache c))) eqn:Hh; [|lia].
    apply has_keys in Hh. apply elem_keys_delete in Hh as [? _]; [done | apply Hwf].
Qed.

(** ** Clearing and sweeping *)

Lemma same_store_apply cfg (c c' : MemoryCache.t T) op :
  cache c = cache c' → accessOrder c = accessOrder c' →
  accessCounter c = accessCounter c' →
  cache (apply cfg c op) = cache (apply cfg c' op) ∧
  accessOrder (apply cfg c op) = accessOrder (apply cfg c' op) ∧
  accessCounter (apply cfg c op) = accessCounter (apply cfg c' op).
Proof.
  intros Hc Ho Hn. destruct op as [k now|k v ttl' now|k]; unfold apply.
  - unfold get. rewrite <- Hc. destruct (JSMap.get k (cache c)) as [item|]; simpl; [|done].
    destruct (isExpired now item); simpl; by rewrite <- ?Hc, <- ?Ho, <- ?Hn.
  - unfold set, evictLeastUsed. rewrite <- Hc, <- Ho.
    destruct (maxSize cfg <=? JSMap.size (cache c)); simpl; [|by rewrite <- ?Hc, <- ?Ho, <- ?Hn].
    destruct (lruKey (accessOrder c)) as [k'|]; simpl; [|by rewrite <- ?Hc, <- ?Ho, <- ?Hn].
    destruct (String.eqb k' ""); simpl; by rewrite <- ?Hc, <- ?Ho, <- ?Hn.
  - simpl. by rewrite <- Hc, <- Ho.
Qed.

Lemma same_store_run cfg ops (c c' : MemoryCache.t T) :
  cache c = cache c' → accessOrder c = accessOrder c' →
  accessCounter c = accessCounter c' →
  cache (run cfg c ops) = cache (run cfg c' ops) ∧
  accessOrder (run cfg c ops) = accessOrder (run cfg c' ops).
Proof.
  revert c c'. induction ops as [|op ops IH]; intros c c' Hc Ho Hn; [done|].
  destruct (same_store_apply cfg c c' op Hc Ho Hn) as (Hc' & Ho' & Hn').
  simpl. by apply IH.
Qed.

(** X17: [clear] empties the cache but keeps the statistics; from then on the
    cache stores, evicts and answers exactly as a new one would. *)
Theorem clear_restarts cfg c ops k now :
  stats_size (clear c) = 0 ∧
  hits (clear c) = hits c ∧ misses (clear c) = misses c ∧
  (get k now (clear c)).2 = None ∧
  cache (run cfg (clear c) ops) = cache (run cfg new ops) ∧
  accessOrder (run cfg (clear c) ops) = accessOrder (run cfg new ops) ∧
  (get k now (run cfg (clear c) ops)).2 = (get k now (run cfg new ops)).2.
Proof.
  split; [done|]. split; [done|]. split; [done|]. split; [done|].
  destruct (same_store_run cfg ops (clear c) new) as [Hc Ho]; try done.
  split; [done|]. split; [done|].
  change (peek k now (run cfg (clear c) ops) = peek k now (run cfg new ops)).
  by rewrite !peek_unfold, Hc.
Qed.

Lemma sweep_sublist ks c :
  sublist (cache (foldl (λ c k, (delete k c).1) c ks)) (cache c).
Proof.
  revert c. induction ks as [|k ks IH]; intros c; [done|]. simpl.
  etrans; [apply IH|]. simpl. apply delete_sublist.
Qed.

(** X18: after a sweep no stored entry is expired; every entry that had not
    expired is still there, unchanged; the cache has not grown; and no
    reader at that or a later time can tell that the sweep has run. *)
Theorem sweep_spec now c :
  WF c →
  (∀ k item, JSMap.get k (cache (cleanupExpired now c)) = Some item →
     isExpired now item = false ∧ JSMap.get k (cache c) = Some item) ∧
  (∀ k item, JSMap.get k (cache c) = Some item → isExpired now item = false →
     JSMap.get k (cache (cleanupExpired now c)) = Some item) ∧
  stats_size (cleanupExpired now c) ≤ stats_size c ∧
  (∀ k now', now ≤ now' →
     (get k now' (cleanupExpired now c)).2 = (get k now' c).2).
Proof.
  intros Hwf. pose proof Hwf as (_ & Hnd & _).
  set (ks := map fst (filter (λ e, isExpired now e.2 = true) (cache c))).
  assert (∀ k item, JSMap.get k (cache c) = Some item →
            (k ∈ ks ↔ isExpired now item = true)) as Hks.
  { intros k item Hg. unfold ks. split.
    - intros Hin. apply list_elem_of_fmap in Hin as ([k' item'] & Hk & Hin).
      simpl in Hk. subst k'. apply list_elem_of_filter in Hin as [Hexp Hin].
      simpl in Hexp. apply (elem_get _ _ _ Hnd) in Hin. congruence.
    - intros Hexp. apply list_elem_of_fmap. exists (k, item). split; [done|].
      apply list_elem_of_filter. split; [done|]. by apply get_Some_elem. }
  assert (∀ k item, JSMap.get k (cache (cleanupExpired now c)) = Some item →
            isExpired now item = false ∧ JSMap.get k (cache c) = Some item) as Hkept.
  { intros k item Hg. unfold cleanupExpired in Hg. fold ks in Hg.
    assert (JSMap.get k (cache c) = Some item) as Hg0.
    { apply (elem_get _ _ _ Hnd). eapply sublist_subseteq; [apply (sweep_sublist ks)|].
      by apply get_Some_elem. }
    split; [|done]. destruct (isExpired now item) eqn:Hexp; [|done].
    apply (Hks k item Hg0) in Hexp.
    rewrite (sweep_removes ks k c Hwf Hexp) in Hg. discriminate. }
  assert (∀ k item, JSMap.get k (cache c) = Some item → isExpired now item = false →
            JSMap.get k (cache (cleanupExpired now c)) = Some item) as Hlive.
  { intros k item Hg Hexp. unfold cleanupExpired. fold ks.
    rewrite sweep_keeps; [done|]. rewrite (Hks k item Hg). congruence. }
  split; [done|]. split; [done|]. split.
  - unfold stats_size, JSMap.size, cleanupExpired. fold ks.
    apply inj_le, sublist_length, sweep_sublist.
  - intros k now' Hle.
    change (peek k now' (cleanupExpired now c) = peek k now' c). rewrite !peek_unfold.
    destruct (JSMap.get k (cache c)) as [item|] eqn:Hg.
    + destruct (isExpired now item) eqn:Hexp.
      * rewrite (isExpired_later now now' item Hle Hexp).
        destruct (JSMap.get k (cache (cleanupExpired now c))) as [item'|] eqn:Hg'; [|done].
        destruct (Hkept k item' Hg') as [_ Hg0]. rewrite Hg in Hg0.
        injection Hg0 as <-. by rewrite (isExpired_later now now' item Hle Hexp).
      * by rewrite (Hlive k item Hg Hexp).
    + destruct (JSMap.get k (cache (cleanupExpired now c))) as [item'|] eqn:Hg'; [|done].
      destruct (Hkept k item' Hg') as [_ Hg0]. congruence.
Qed.

End Facts.

Lemma delete_spec_witness :
  (delete "a" (run cacheConfig2 new (inserts [entryA; entryB]))).2 = true ∧
  (get "a" 7 (delete "a" (run cacheConfig2 new (inserts [entryA; entryB]))).1).2 = None ∧
  (get "b" 7 (delete "a" (run cacheConfig2 new (inserts [entryA; entryB]))).1).2 = Some 2.
Proof.
  assert (WF (run cacheConfig2 new (inserts [entryA; entryB]))) as Hwf
    by apply WF_run, WF_new.
  destruct (delete_spec "a" _ Hwf) as (Hret & Hgone & Hframe).
  split; [apply Hret; left|]. split; [apply (Hgone 7)|].
  rewrite (Hframe "b" 7) by discriminate. reflexivity.
Defined.

Lemma reads_and_writes_are_local_witness :
  (get "a" 9 (get "b" 7 (run cacheConfig2 new (inserts [entryA; entryB]))).1).2 = Some 1 ∧
  (get "a" 9 (set cacheConfig2 "c" 3 None 8 (run cacheConfig2 new (inserts [entryA; entryB])))).2
  = None.
Proof.
  assert ("a" ≠ "b") as Hab by discriminate.
  assert ("a" ≠ "c") as Hac by discriminate.
  assert (WF (run cacheConfig2 new (inserts [entryA; entryB]))) as Hwf
    by apply WF_run, WF_new.
  split.
  - rewrite (proj1 (reads_and_writes_are_local cacheConfig2 "b" "a" 0 None 0 7 9 _ Hab)).
    reflexivity.
  - apply (proj2 (proj2 (reads_and_writes_are_local cacheConfig2 "c" "a" 3 None 8 0 9 _ Hac)));
      [exact Hwf | reflexivity].
Defined.

Lemma set_size_witness :
  stats_size (set cacheConfig2 "b" 9 None 8 (run cacheConfig2 new (inserts [entryA; entryB])))
  = stats_size (run cacheConfig2 new (inserts [entryA; entryB])) - 1.
Proof.
  assert (WF (run cacheConfig2 new (inserts [entryA; entryB]))) as Hwf
    by apply WF_run, WF_new.
  destruct (set_size cacheConfig2 "b" 9 None 8 _ Hwf) as (_ & _ & _ & H & _).
  apply (H "a"); [reflexivity | discriminate |]. right. left.
Defined.

Lemma sweep_spec_witness :
  JSMap.keys (cache (cleanupExpired 300004
                       (run cacheConfig2 new (inserts [entryA; entryB])))) = ["b"] ∧
  (get "a" 300010 (cleanupExpired 300004
                     (run cacheConfig2 new (inserts [entryA; entryB])))).2
  = (get "a" 300010 (run cacheConfig2 new (inserts [entryA; entryB]))).2.
Proof.
  assert (WF (run cacheConfig2 new (inserts [entryA; entryB]))) as Hwf
    by apply WF_run, WF_new.
  destruct (sweep_spec 300004 _ Hwf) as (_ & _ & _ & H).
  split; [reflexivity|]. apply H. lia.
Defined.

End MemoryCacheMore.

(** * Further properties of CacheManager *)

Module CacheManagerMore.

Import CacheManager CacheManagerApi MemoryCacheApi JSMapFacts MemoryCacheFacts
       MemoryCacheMore.

Section Facts.

Context {T : Type}.

(** Reading one key does not change what a later read of any key at the
    same time returns. *)
Lemma peek_after_get k k' now t (c : MemoryCache.t T) :
  MemoryCache.WF c → (k' = k → t = now) →
  peek k now (MemoryCache.get k' t c).1 = peek k now c.
Proof.
  intros Hwf Ht. rewrite !peek_unfold. unfold MemoryCache.get.
  destruct (JSMap.get k' (MemoryCache.cache c)) as [item|] eqn:Hg; simpl; [|done].
  destruct (decide (k' = k)) as [->|Hne].
  - rewrite (Ht eq_refl), Hg.
    destruct (MemoryCache.isExpired now item) eqn:Hexp; simpl.
    + by rewrite get_delete_eq by apply Hwf.
    + rewrite get_set_eq. unfold MemoryCache.isExpired in *. simpl. by rewrite Hexp.
  - destruct (MemoryCache.isExpired t item); simpl.
    + by rewrite get_delete_ne.
    + by rewrite get_set_ne.
Qed.

Lemma mget_l1_lookup keys clock now i (c : MemoryCache.t T) result k :
  MemoryCache.WF c → (∀ j, clock j = now) →
  JSMap.get k (mget_l1 keys clock i c result).2
  = if bool_decide (k ∈ keys)
    then match peek k now c with
         | Some v => Some v
         | None => JSMap.get k result
         end
    else JSMap.get k result.
Proof.
  intros Hwf Hclock. revert i c result Hwf.
  induction keys as [|k0 keys IH]; intros i c result Hwf; [done|].
  simpl. rewrite Hclock.
  assert (MemoryCache.WF (MemoryCache.get k0 now c).1) as Hwf1 by by apply WF_get.
  assert (peek k now (MemoryCache.get k0 now c).1 = peek k now c) as Hpeek
    by by apply peek_after_get.
  change (MemoryCache.get k0 now c).2 with (peek k0 now c).
  destruct (decide (k = k0)) as [->|Hne].
  - rewrite (bool_decide_eq_true_2 (k0 ∈ k0 :: keys)) by left.
    destruct (peek k0 now c) as [v|] eqn:Hp; rewrite IH by done; rewrite Hpeek.
    + rewrite get_set_eq. by destruct (bool_decide (k0 ∈ keys)).
    + by destruct (bool_decide (k0 ∈ keys)).
  - assert (bool_decide (k ∈ k0 :: keys) = bool_decide (k ∈ keys)) as ->.
    { apply bool_decide_ext. rewrite elem_of_cons. tauto. }
    destruct (peek k0 now c) as [v|] eqn:Hp; rewrite IH by done; rewrite Hpeek.
    + by rewrite get_set_ne.
    + done.
Qed.

(** X19: [mget] returns, for each requested key, exactly what a single [get]
    of that key would have returned (all reads at the same clock
    reading), and has no binding for any other key; repeated keys and
    keys that expired are handled like single reads. *)
Theorem mget_agrees_with_get keys clock now (m : CacheManager.t T) k :
  enableL1 (config m) = true → MemoryCache.WF (l1Cache m) →
  (∀ j, clock j = now) →
  JSMap.get k (mget keys clock m).2
  = if bool_decide (k ∈ keys) then (get k now m).2 else None.
Proof.
  intros Hl1 Hwf Hclock. unfold mget, get. rewrite Hl1. simpl.
  rewrite (mget_l1_lookup keys clock now) by done. simpl.
  change (MemoryCache.get k now (l1Cache m)).2 with (peek k now (l1Cache m)).
  destruct (bool_decide (k ∈ keys)); [|done]. by destruct (peek k now (l1Cache m)).
Qed.

(** X20: through the manager, a value written at [t0] is read back at [now]
    exactly when the L1 tier is enabled and the ttl has not run out.  With
    the tier disabled, which is the case when [enableL1] is left out of
    the configuration, no operation stores anything and every read misses. *)
Theorem manager_roundtrip k v ttl' t0 now (m : CacheManager.t T) :
  (get k now (set k v ttl' t0 m)).2
  = (if enableL1 (config m)
     then if number_or ttl' (ttl (config m)) <? now - t0 then None else Some v
     else None) ∧
  (enableL1 (config m) = false →
   set k v ttl' t0 m = m ∧ delete k m = m ∧ clear m = m ∧
   (∀ items clock, mset items ttl' clock m = m) ∧
   (∀ items clock, warmup items clock m = m) ∧
   get k now m = (m, None) ∧
   (∀ keys clock, mget keys clock m = (m, []))).
Proof.
  split.
  - unfold get, set. destruct (enableL1 (config m)) eqn:Hl1; simpl; rewrite Hl1; [|done].
    simpl. apply peek_set.
  - intros Hl1. unfold set, delete, clear, mset, warmup, mset, get, mget.
    rewrite Hl1. done.
Qed.

End Facts.

Lemma mget_agrees_with_get_witness :
  JSMap.get "b" (mget ["a"; "b"; "zz"; "b"] (λ _, 7)
                   (mk cacheConfig2
                       (MemoryCache.run cacheConfig2 MemoryCache.new
                          (MemoryCache.inserts [MemoryCache.entryA; MemoryCache.entryB])))).2
  = Some 2.
Proof.
  rewrite (mget_agrees_with_get _ _ 7); [reflexivity | reflexivity | | reflexivity].
  apply WF_run, WF_new.
Defined.

Lemma manager_roundtrip_witness :
  set "k" 1 None 0 (new (mkCacheConfig 300000 10 false false))
  = new (T := Z) (mkCacheConfig 300000 10 false false).
Proof.
  apply (manager_roundtrip "k" 1 None 0 5 (new (mkCacheConfig 300000 10 false false))).
  reflexivity.
Defined.

End CacheManagerMore.

(** * Further properties of the gate and of the batch operations *)

Module SemaphoreMore.

Import Semaphore SemaphoreFacts.

(** X21: in a state the gate can reach, taking a free permit and giving
    it back restores the gate exactly. *)
Theorem acquire_release_roundtrip {Waiter : Type} n (g : Gate Waiter) w :
  0 ≤ n → reachable n g → 0 < permits (sem g) →
  do_release (do_acquire g w) = g.
Proof.
  intros Hn Hr Hfree. destruct (gate_inv_reachable n g Hn Hr) as (_ & _ & _ & Hq).
  assert (waitQueue (sem g) = []) as Hnil.
  { destruct (waitQueue (sem g)) eqn:E; [done|].
    assert (permits (sem g) = 0) by (apply Hq; done). lia. }
  destruct g as [[p q] o]. simpl in *. subst q.
  unfold do_acquire, do_release, acquire, release. simpl.
  destruct (Z.ltb_spec 0 p); [|lia]. simpl. f_equal; [f_equal|]; lia.
Qed.

Lemma acquire_release_roundtrip_witness :
  do_release (do_acquire (init 2) "a") = init 2.
Proof.
  apply (acquire_release_roundtrip 2); [lia | apply reachable_init | simpl; lia].
Defined.

End SemaphoreMore.

Module BatchMore.

Import Batch BatchFacts.

Section Facts.

Context {Item Value Error : Type}.
Variable perform : Item → Value + Error.

(** X22: with a positive gate, at no point of a batch are more operations in
    flight than the gate has permits. *)
Theorem batch_concurrency_ceiling N (items : list Item) schedule s :
  0 < N →
  play perform items (start N (length items)) schedule = Some s →
  Z.of_nat (length (running s)) ≤ N ∧
  (length (running s) + settled s ≤ length items)%nat.
Proof.
  intros HN Hplay.
  pose proof (batch_inv_play perform N items schedule _ [] s
                (batch_inv_start perform N items) Hplay) as Hinv.
  rewrite app_nil_r in Hinv. destruct Hinv as (Hperm & _ & _ & Hset & _ & _ & Hp).
  destruct (Hp HN) as [Hp0 Hsum]. split; [lia|].
  apply Permutation_length in Hperm. rewrite !length_app, length_seq in Hperm. lia.
Qed.

(** X23: the edges of the gate size.  An empty batch completes at once with an
    empty result, whatever the gate.  A non-empty batch behind a gate of
    zero or fewer permits never completes: every task waits for a permit
    that nobody holds.  [batchSearch] and [batchGetSongs] replace a gate
    of 0 by 10, but not a negative one. *)
Theorem batch_gate_edges :
  (∀ N, batch perform N [] [] = Some (mkBatchResponse [] 0 0)) ∧
  (∀ N (items : list Item) schedule,
     N ≤ 0 → items ≠ [] → batch perform N items schedule = None) ∧
  (∀ (requests : list Item) n schedule,
     n ≤ 0 → requests ≠ [] → batchRequest perform requests (Some n) schedule = None) ∧
  (∀ maxSockets (queries : list Item) schedule,
     maxSockets < 0 → queries ≠ [] →
     batchSearch perform maxSockets queries schedule = None ∧
     batchGetSongs perform maxSockets queries schedule = None) ∧
  (∀ (queries : list Item) schedule,
     batchSearch perform 0 queries schedule = batch perform 10 queries schedule).
Proof.
  assert (∀ N (items : list Item) schedule,
            N ≤ 0 → items ≠ [] → batch perform N items schedule = None) as Hstuck.
  { intros N items schedule HN Hne. unfold batch.
    destruct (start_nonpositive (Value := Value) (Error := Error) N (length items) HN)
      as (Hrun & Hset & _).
    destruct schedule as [|i schedule].
    - simpl. rewrite Hset. rewrite bool_decide_eq_false_2; [done|].
      destruct items; [done | simpl; lia].
    - simpl. unfold finish. rewrite Hrun.
      rewrite bool_decide_eq_false_2 by apply not_elem_of_nil. done. }
  split; [done|]. split; [done|]. split; [|split].
  - intros requests n schedule Hn Hne. unfold batchRequest. simpl.
    by rewrite Hstuck.
  - intros maxSockets queries schedule Hneg Hne. unfold batchSearch, batchGetSongs.
    assert (number_or (Some maxSockets) 10 = maxSockets) as ->.
    { simpl. destruct (Z.eqb_spec maxSockets 0); [lia | done]. }
    split; apply Hstuck; (lia || done).
  - done.
Qed.

End Facts.

Lemma batch_concurrency_ceiling_witness :
  ∃ s, play sample_perform ["a"; "b"; "c"] (start 2 3) [0]%nat = Some s ∧
       Z.of_nat (length (running s)) ≤ 2.
Proof.
  destruct (play sample_perform ["a"; "b"; "c"] (start 2 3) [0]%nat) as [s|] eqn:Hp;
    [|vm_compute in Hp; discriminate Hp].
  exists s. split; [reflexivity|].
  assert (0 < 2) as H2 by lia.
  apply (batch_concurrency_ceiling sample_perform 2 ["a"; "b"; "c"] [0]%nat s H2 Hp).
Defined.

Lemma batch_gate_edges_witness :
  batchRequest sample_perform ["a"; "b"] (Some 0) [0; 1]%nat = None.
Proof.
  destruct (batch_gate_edges sample_perform) as (_ & _ & H & _).
  apply H; [lia | discriminate].
Defined.

End BatchMore.

(** * Further properties of AdapterManager *)

Module AdapterManagerMore.

Import AdapterManagerApi PlatformMapFacts.

Section Registry.

Context {AdapterConfig Adapter : Type}.

Lemma register_lookup (platforms : Platform → option AdapterConfig)
    (construct : Platform → AdapterConfig → option Adapter)
    (adapters : PlatformMap.t Adapter) q p :
  register platforms construct adapters q !! p
  = if decide (q = p)
    then match platforms q ≫= construct q with
         | Some adapter => Some adapter
         | None => adapters !! p
         end
    else adapters !! p.
Proof.
  unfold register. destruct (decide (q = p)) as [->|Hne].
  - destruct (platforms p) as [config|]; simpl; [|done].
    destruct (construct p config); [|done]. by rewrite lookup_set_eq.
  - destruct (platforms q) as [config|]; simpl; [|done].
    destruct (construct q config); [|done]. by rewrite lookup_set_ne.
Qed.

(** X24: a platform is available exactly when it is configured and its
    constructor returned; whether the other platforms are configured, and
    whether their constructors throw, makes no difference.  After
    [destroy] no platform is available. *)
Theorem registry_lifecycle (platforms : Platform → option AdapterConfig)
    (construct : Platform → AdapterConfig → option Adapter) p :
  initializeAdapters platforms construct !! p = platforms p ≫= construct p ∧
  destroy (initializeAdapters platforms construct) !! p = None.
Proof.
  split; [|apply lookup_new].
  unfold initializeAdapters. simpl. rewrite !register_lookup, lookup_new.
  destruct p; simpl; by destruct (_ ≫= _).
Qed.

End Registry.

Section Dispatch.

Context {Adapter Result Error : Type}.
Implicit Types (adapters : PlatformMap.t Adapter) (m : Metrics.PerformanceMetrics)
               (calls : list (Call Adapter Result Error)).

Lemma dispatch_cases operation adapters m p (call : Adapter → Result + Error) elapsed :
  match adapters !! p with
  | None =>
    dispatch operation adapters m p call elapsed = (m, inr (NotAvailable p))
  | Some adapter =>
    Metrics.requestCount (dispatch operation adapters m p call elapsed).1
    = Metrics.requestCount m + 1 ∧
    (dispatch operation adapters m p call elapsed).2
    = match call adapter with
      | inl result => inl result
      | inr error => inr (Thrown error)
      end
  end.
Proof.
  unfold dispatch. destruct (adapters !! p) as [adapter|]; [|done].
  destruct (call adapter); simpl; split; try done.
Qed.

(** X25: a call for a platform without an adapter fails with "not available"
    and leaves the metrics untouched; a call that reaches an adapter
    returns the adapter's own outcome and is counted exactly once,
    whether it succeeds or throws.  So after any sequence of calls
    [requestCount] has grown by the number of calls that reached an
    adapter. *)
Theorem dispatch_counts_reached_calls operation adapters m calls :
  Metrics.requestCount (dispatchAll operation adapters m calls)
  = Metrics.requestCount m
    + Z.of_nat (length (filter (λ c, is_Some (adapters !! c_platform c)) calls)) ∧
  (∀ p (call : Adapter → Result + Error) elapsed,
     adapters !! p = None →
     dispatch operation adapters m p call elapsed = (m, inr (NotAvailable p))) ∧
  (∀ p (call : Adapter → Result + Error) elapsed adapter,
     adapters !! p = Some adapter →
     (dispatch operation adapters m p call elapsed).2
     = match call adapter with
       | inl result => inl result
       | inr error => inr (Thrown error)
       end).
Proof.
  split; [|split].
  - revert m. induction calls as [|c calls IH]; intros m; [simpl; lia|].
    simpl. rewrite IH.
    pose proof (dispatch_cases operation adapters m (c_platform c) (c_call c) (c_elapsed c))
      as Hc.
    destruct (adapters !! c_platform c) as [adapter|] eqn:Hp.
    + rewrite filter_cons_True by (rewrite Hp; eauto). destruct Hc as [-> _].
      simpl length. lia.
    + rewrite filter_cons_False by (rewrite Hp; intros [? ?]; discriminate).
      by rewrite Hc.
  - intros p call elapsed Hp.
    pose proof (dispatch_cases operation adapters m p call elapsed) as Hc.
    by rewrite Hp in Hc.
  - intros p call elapsed adapter Hp.
    pose proof (dispatch_cases operation adapters m p call elapsed) as Hc.
    rewrite Hp in Hc. apply Hc.
Qed.

(** X26: successful calls are counted and leave [errorRate] as it was:
    after any sequence of calls that all succeed, [requestCount] has
    grown by the number of calls and [errorRate] is the value it had
    before, so an error rate raised by an earlier failure is not lowered
    by the successes that follow it. *)
Theorem successes_keep_errorRate operation adapters m calls :
  Forall (succeeds adapters) calls →
  Metrics.requestCount (dispatchAll operation adapters m calls)
  = Metrics.requestCount m + Z.of_nat (length calls) ∧
  Metrics.errorRate (dispatchAll operation adapters m calls) = Metrics.errorRate m.
Proof.
  intros Hall. revert m. induction Hall as [|c calls Hc Hall IH]; intros m.
  - simpl. split; [lia | done].
  - destruct Hc as (adapter & result & Hp & Hcall).
    assert ((dispatch operation adapters m (c_platform c) (c_call c) (c_elapsed c)).1
            = Metrics.updateMetrics m operation (c_elapsed c) true) as Hstep.
    { unfold dispatch. by rewrite Hp, Hcall. }
    change (dispatchAll operation adapters m (c :: calls))
      with (dispatchAll operation adapters
              (dispatch operation adapters m (c_platform c) (c_call c) (c_elapsed c)).1
              calls).
    rewrite Hstep. destruct (IH (Metrics.updateMetrics m operation (c_elapsed c) true))
      as [Hcount Hrate].
    rewrite Hcount, Hrate. simpl. split; [lia | done].
Qed.

End Dispatch.

Section Clear.

Context {T : Type}.
Implicit Types (adapters : PlatformMap.t (BasePlatformAdapter.t T)).

(** X27: [clearCache] for one platform touches that platform's adapter only,
    and does nothing when the platform has no adapter; without a platform
    it is applied to every adapter.  In both cases a non-empty pattern
    leaves every cache as it was. *)
Theorem clearCache_scope adapters p p' pattern :
  (p' ≠ p → clearCache (Some p) pattern adapters !! p' = adapters !! p') ∧
  clearCache (Some p) pattern adapters !! p
    = BasePlatformAdapter.clearCache pattern <$> adapters !! p ∧
  clearCache None pattern adapters !! p
    = BasePlatformAdapter.clearCache pattern <$> adapters !! p ∧
  (∀ target s, pattern = Some s → s ≠ "" →
     BasePlatformAdapter.cacheManager <$> clearCache target pattern adapters !! p
     = BasePlatformAdapter.cacheManager <$> adapters !! p).
Proof.
  assert (clearCache (Some p) pattern adapters !! p
          = BasePlatformAdapter.clearCache pattern <$> adapters !! p) as Hsame.
  { unfold clearCache. destruct (adapters !! p) as [a|] eqn:Hp.
    - by rewrite lookup_set_eq.
    - by rewrite Hp. }
  assert (∀ q, q ≠ p → clearCache (Some q) pattern adapters !! p = adapters !! p) as Hother.
  { intros q Hq. unfold clearCache. destruct (adapters !! q) as [a|]; [|done].
    by rewrite lookup_set_ne. }
  split; [|split; [done|split]].
  - intros Hne. unfold clearCache. destruct (adapters !! p) as [a|]; [|done].
    by rewrite lookup_set_ne.
  - unfold clearCache. by rewrite lookup_map.
  - intros target s -> Hs.
    assert (BasePlatformAdapter.cacheManager <$>
              (BasePlatformAdapter.clearCache (Some s) <$> adapters !! p)
            = BasePlatformAdapter.cacheManager <$> adapters !! p) as Hnoop.
    { destruct (adapters !! p) as [a|]; [|done]. simpl. f_equal.
      unfold BasePlatformAdapter.clearCache.
      by rewrite (proj2 (MemoryCacheFacts.truthy_string_Some s) Hs). }
    destruct target as [q|].
    + destruct (decide (q = p)) as [->|Hq].
      * by rewrite Hsame.
      * by rewrite Hother.
    + unfold clearCache. by rewrite lookup_map.
Qed.

End Clear.

Lemma successes_keep_errorRate_witness :
  (Metrics.errorRate
     (dispatchAll "search" AdapterManager.sample_adapters
        (dispatch "search" AdapterManager.sample_adapters (Metrics.initializeMetrics 0)
           QQ (λ a, AdapterManager.search a "x") 50).1
        [mkCall NETEASE (λ a, AdapterManager.search a "x") 100;
         mkCall KUGOU (λ a, AdapterManager.search a "x") 300])
   == 1)%Q.
Proof.
  assert (Forall (succeeds AdapterManager.sample_adapters)
            [mkCall NETEASE (λ a, AdapterManager.search a "x") 100;
             mkCall KUGOU (λ a, AdapterManager.search a "x") 300]) as Hall.
  { apply Forall_cons. split; [eexists _, _; split; reflexivity|].
    apply Forall_cons. split; [eexists _, _; split; reflexivity|]. apply Forall_nil_2. }
  rewrite (proj2 (successes_keep_errorRate "search" AdapterManager.sample_adapters _ _ Hall)).
  reflexivity.
Defined.

End AdapterManagerMore.

(** * The adapters' lyric lookup *)

Module AdapterLyricsFacts.

Import AdapterLyrics JSMapFacts MemoryCacheFacts MemoryCacheMore.

Section Facts.

Context {LyricData Error : Type}.
Implicit Types (m : CacheManager.t LyricData) (fetch : string → LyricData + Error).

(** After a lookup that missed, the key is absent from the store,
    whether it was never there or was dropped as expired. *)
Lemma miss_leaves_absent key now m :
  MemoryCache.WF (CacheManager.l1Cache m) →
  (getFromCache key now m).2 = None →
  ∀ t, (getFromCache key t (getFromCache key now m).1).2 = None.
Proof.
  intros Hwf. unfold getFromCache, CacheManager.get.
  destruct (enableL1 (CacheManager.config m)) eqn:Hl1; simpl; [|by rewrite Hl1].
  rewrite Hl1. simpl. unfold MemoryCache.get at 1 3.
  destruct (JSMap.get key (MemoryCache.cache (CacheManager.l1Cache m))) as [item|] eqn:Hg;
    simpl.
  - destruct (MemoryCache.isExpired now item); simpl; [|discriminate].
    intros _ t. unfold MemoryCache.get. simpl.
    by rewrite get_delete_eq by apply Hwf.
  - intros _ t. unfold MemoryCache.get. simpl. by rewrite Hg.
Qed.

(** X28: a lyric that was fetched is served from the cache afterwards: within
    the default ttl a second call returns it whatever the upstream would
    now answer.  A failed fetch returns the empty lyric and caches
    nothing, so the next call asks the upstream again. *)
Theorem getLyric_read_through platform emptyLyric fetch fetch' songId now now' now2 now2' m :
  enableL1 (CacheManager.config m) = true →
  MemoryCache.WF (CacheManager.l1Cache m) →
  (getFromCache (AdapterKeys.generateCacheKey platform "lyric" songId []) now m).2 = None →
  let first := getLyric platform emptyLyric fetch songId now now' m in
  let second := getLyric platform emptyLyric fetch' songId now2 now2' first.1 in
  match fetch songId with
  | inl lyric =>
    first.2 = lyric ∧
    (now2 - now' ≤ ttl (CacheManager.config m) → second.2 = lyric)
  | inr _ =>
    first.2 = emptyLyric ∧
    second.2 = match fetch' songId with
               | inl lyric' => lyric'
               | inr _ => emptyLyric
               end
  end.
Proof.
  intros Hl1 Hwf Hmiss. simpl.
  set (key := AdapterKeys.generateCacheKey platform "lyric" songId []) in *.
  pose proof (miss_leaves_absent key now m Hwf Hmiss now2) as Habsent.
  unfold getLyric. fold key. rewrite Hmiss.
  destruct (fetch songId) as [lyric|error]; simpl.
  - split; [done|]. intros Hfresh.
    assert (CacheManager.config (getFromCache key now m).1 = CacheManager.config m) as Hcfg.
    { unfold getFromCache, CacheManager.get. by rewrite Hl1. }
    assert ((getFromCache key now2
               (setToCache key lyric None now' (getFromCache key now m).1)).2 = Some lyric)
      as ->; [|done].
    unfold getFromCache at 1, setToCache, CacheManager.get, CacheManager.set.
    rewrite Hcfg, Hl1. simpl. rewrite Hl1. simpl.
    pose proof (peek_set (T := LyricData) (CacheManager.config m) key lyric None now' now2
                  (CacheManager.l1Cache (getFromCache key now m).1)) as Hp.
    unfold MemoryCacheApi.peek in Hp. rewrite Hp. simpl.
    destruct (Z.ltb_spec (ttl (CacheManager.config m)) (now2 - now')); [lia|done].
  - split; [done|]. rewrite Habsent. by destruct (fetch' songId).
Qed.

End Facts.

Lemma getLyric_read_through_witness :
  (getLyric KUWO "" (λ _, inr tt) "42" 9 9
     (getLyric KUWO "" (λ id, inl (B := unit) ("la " +:+ id)) "42" 0 1
        (CacheManager.new cacheConfig2)).1).2 = "la 42".
Proof.
  apply (getLyric_read_through KUWO "" (λ id, inl ("la " +:+ id)) (λ _, inr tt) "42" 0 1 9 9
           (CacheManager.new cacheConfig2)).
  - reflexivity.
  - apply WF_new.
  - reflexivity.
  - vm_compute. discriminate.
Defined.

End AdapterLyricsFacts.
